(** * Pedestrians with cognitive heuristics: the per-step kernel

    A shallow embedding of the simulation core (vector and geometry helpers,
    vision, heuristics, contact forces, the Euler step, entity creation) and
    the properties of it that the specification states.

    Numbers.  A JavaScript [number] is modelled as a real number: arithmetic
    is exact, and NaN and the infinities have no counterpart.  Where the
    source initialises a running minimum with [Infinity] the model uses
    [option] ([None] is [Infinity]); where the source reads an array out of
    range ([undefined], which poisons every later product with NaN) the
    model returns [None].  [Math.sqrt], [Math.cos], [Math.sin], [Math.log],
    [Math.abs], [Math.min], [Math.max] and [Math.ceil] are the functions of
    the real library; [Math.atan2] is written out below. *)

From Stdlib Require Import Reals Lra Lia ZArith.
From stdpp Require Import base decidable option list.

Open Scope R_scope.

Abbreviation number := R (only parsing).

#[global] Instance Rlt_decision : RelDecision Rlt := Rlt_dec.
#[global] Instance Rle_decision : RelDecision Rle := Rle_dec.
#[global] Instance Rgt_decision : RelDecision Rgt := Rgt_dec.
#[global] Instance Rge_decision : RelDecision Rge := Rge_dec.

(** [Math.atan2(y, x)] on finite reals. *)
Definition Math_atan2 (y x : number) : number :=
  if decide (0 < x) then atan (y / x)
  else if decide (x < 0) then
    (if decide (0 <= y) then atan (y / x) + PI else atan (y / x) - PI)
  else if decide (0 < y) then PI / 2
  else if decide (y < 0) then - (PI / 2)
  else 0.

(** [Math.ceil], as an integer. *)
Definition Math_ceil (v : number) : Z := Zceil v.

(** ** utils/vector.ts *)

Record Vec2 := mkVec2 { x : number; y : number }.

Module vec2.

Definition create (x0 y0 : number) : Vec2 := {| x := x0; y := y0 |}.

Definition add (a b : Vec2) : Vec2 :=
  {| x := a.(x) + b.(x); y := a.(y) + b.(y) |}.

Definition sub (a b : Vec2) : Vec2 :=
  {| x := a.(x) - b.(x); y := a.(y) - b.(y) |}.

Definition scale (v : Vec2) (s : number) : Vec2 :=
  {| x := v.(x) * s; y := v.(y) * s |}.

Definition dot (a b : Vec2) : number := a.(x) * b.(x) + a.(y) * b.(y).

Definition length (v : Vec2) : number :=
  sqrt (v.(x) * v.(x) + v.(y) * v.(y)).

Definition lengthSquared (v : Vec2) : number :=
  v.(x) * v.(x) + v.(y) * v.(y).

Definition distance (a b : Vec2) : number := length (sub a b).

Definition normalize (v : Vec2) : Vec2 :=
  let len := length v in
  if decide (len > 1e-10) then scale v (1 / len) else {| x := 0; y := 0 |}.

Definition angle (v : Vec2) : number := Math_atan2 v.(y) v.(x).

Definition fromAngle (angle magnitude : number) : Vec2 :=
  {| x := cos angle * magnitude; y := sin angle * magnitude |}.

Definition perpendicular (v : Vec2) : Vec2 := {| x := - v.(y); y := v.(x) |}.

Definition copy (v : Vec2) : Vec2 := {| x := v.(x); y := v.(y) |}.

Definition zero : Vec2 := {| x := 0; y := 0 |}.

Definition distanceSquared (a b : Vec2) : number := lengthSquared (sub a b).

Definition rotate (v : Vec2) (angle : number) : Vec2 :=
  let cos := cos angle in
  let sin := sin angle in
  {| x := v.(x) * cos - v.(y) * sin; y := v.(x) * sin + v.(y) * cos |}.

Definition lerp (a b : Vec2) (t : number) : Vec2 :=
  {| x := a.(x) + (b.(x) - a.(x)) * t; y := a.(y) + (b.(y) - a.(y)) * t |}.

Definition clampLength (v : Vec2) (maxLength : number) : Vec2 :=
  let len := length v in
  if decide (len > maxLength /\ len > 1e-10) then scale v (maxLength / len) else v.

End vec2.

(** ** simulation/types.ts *)

Record Pedestrian := mkPedestrian {
  id : Z;
  position : Vec2;
  velocity : Vec2;
  mass : number;
  radius : number;
  desiredSpeed : number;
  destination : Vec2;
  direction : number;
  active : bool
}.

(** [end] is a keyword, so the second endpoint is [end_]. *)
Record Wall := mkWall {
  start : Vec2;
  end_ : Vec2;
  a : number;
  b : number;
  c : number;
  normal : Vec2
}.

Inductive BoundaryType := closed | periodic | open.

#[global] Instance BoundaryType_eq_dec : EqDecision BoundaryType.
Proof. solve_decision. Defined.

Record Bounds := mkBounds {
  xMin : number;
  xMax : number;
  yMin : number;
  yMax : number
}.

Record Environment := mkEnvironment {
  walls : list Wall;
  boundaryType : BoundaryType;
  bounds : Bounds
}.

Record SimulationParams := mkParams {
  tau : number;
  phi : number;
  dMax : number;
  k : number;
  dt : number;
  angularResolution : number
}.

Definition defaultParams : SimulationParams :=
  {| tau := 0.5;
     phi := (75 * PI) / 180;
     dMax := 10.0;
     k := 5000;
     dt := 0.02;
     angularResolution := (1 * PI) / 180 |}.

Record VisionResult := mkVision {
  angles : list number;
  distances : list number
}.

(** [angles[bestIdx]] and [distances[bestIdx]] are array reads: [None] is
    JavaScript's [undefined]. *)
Record DirectionResult := mkDirection {
  alphaDes : option number;
  distanceToObstacle : option number
}.

(** ** utils/geometry.ts *)

Record LineEquation := mkLine { line_a : number; line_b : number; line_c : number }.

Definition lineFromPoints (p1 p2 : Vec2) : LineEquation :=
  let dx := p2.(x) - p1.(x) in
  let dy := p2.(y) - p1.(y) in
  let a0 := - dy in
  let b0 := dx in
  let c0 := - (a0 * p1.(x) + b0 * p1.(y)) in
  let len := sqrt (a0 * a0 + b0 * b0) in
  if decide (len < 1e-10) then {| line_a := 0; line_b := 0; line_c := 0 |}
  else {| line_a := a0 / len; line_b := b0 / len; line_c := c0 / len |}.

Definition closestPointOnSegment (point segStart segEnd : Vec2) : Vec2 :=
  let seg := vec2.sub segEnd segStart in
  let segLenSq := vec2.lengthSquared seg in
  if decide (segLenSq < 1e-10) then vec2.copy segStart
  else
    let toPoint := vec2.sub point segStart in
    let t := vec2.dot toPoint seg / segLenSq in
    let t := Rmax 0 (Rmin 1 t) in
    vec2.add segStart (vec2.scale seg t).

Definition distanceToSegment (point segStart segEnd : Vec2) : number :=
  let closest := closestPointOnSegment point segStart segEnd in
  vec2.distance point closest.

Definition normalFromSegmentToPoint (point segStart segEnd : Vec2) : Vec2 :=
  let closest := closestPointOnSegment point segStart segEnd in
  let toPoint := vec2.sub point closest in
  let len := vec2.length toPoint in
  if decide (len < 1e-10) then
    let seg := vec2.sub segEnd segStart in
    vec2.normalize (vec2.perpendicular seg)
  else vec2.scale toPoint (1 / len).

(** [while (result < min) result += range], run for at most [fuel] turns. *)
Fixpoint wrapValue_raise (fuel : nat) (result min range : number) : number :=
  match fuel with
  | O => result
  | S fuel' =>
      if decide (result < min) then wrapValue_raise fuel' (result + range) min range
      else result
  end.

(** [while (result >= max) result -= range], run for at most [fuel] turns. *)
Fixpoint wrapValue_lower (fuel : nat) (result max range : number) : number :=
  match fuel with
  | O => result
  | S fuel' =>
      if decide (result >= max) then wrapValue_lower fuel' (result - range) max range
      else result
  end.

(** The two loops get the number of turns they need on reals
    ([wrapValue_raise_done] and [wrapValue_lower_done] below). *)
Definition wrapValue (value min max : number) : number :=
  let range := max - min in
  if decide (range <= 0) then value
  else
    let result :=
      wrapValue_raise (Z.to_nat (Zceil ((min - value) / range))) value min range in
    wrapValue_lower (Z.to_nat (Zfloor ((result - max) / range) + 1)) result max range.

Definition wrapPosition (position : Vec2) (bounds : Bounds) : Vec2 :=
  {| x := wrapValue position.(x) bounds.(xMin) bounds.(xMax);
     y := wrapValue position.(y) bounds.(yMin) bounds.(yMax) |}.

Definition periodicDisplacement (from to : Vec2) (bounds : Bounds) : Vec2 :=
  let rangeX := bounds.(xMax) - bounds.(xMin) in
  let rangeY := bounds.(yMax) - bounds.(yMin) in
  let dx := to.(x) - from.(x) in
  let dy := to.(y) - from.(y) in
  let dx :=
    if decide (dx > rangeX / 2) then dx - rangeX
    else if decide (dx < - rangeX / 2) then dx + rangeX
    else dx in
  let dy :=
    if decide (dy > rangeY / 2) then dy - rangeY
    else if decide (dy < - rangeY / 2) then dy + rangeY
    else dy in
  {| x := dx; y := dy |}.

(** ** simulation/vision.ts *)

Definition collisionDistancePedestrian
    (pi pj : Pedestrian) (vCandidate : Vec2) (dMax : number) : number :=
  let dx := pj.(position).(x) - pi.(position).(x) in
  let dy := pj.(position).(y) - pi.(position).(y) in
  let dvx := pj.(velocity).(x) - vCandidate.(x) in
  let dvy := pj.(velocity).(y) - vCandidate.(y) in
  let currentDistSq := dx * dx + dy * dy in
  let combinedRadius := pi.(radius) + pj.(radius) in
  if decide (currentDistSq <= combinedRadius * combinedRadius) then
    let toOther := vec2.normalize {| x := dx; y := dy |} in
    let candidateDir := vec2.normalize vCandidate in
    let dot := vec2.dot candidateDir toOther in
    if decide (dot > 0) then 0 else dMax
  else
    let A := dvx * dvx + dvy * dvy in
    let B := 2 * (dvx * dx + dvy * dy) in
    let C := dx * dx + dy * dy - combinedRadius * combinedRadius in
    if decide (A < 1e-10) then (if decide (C <= 0) then 0 else dMax)
    else
      let discriminant := B * B - 4 * A * C in
      if decide (discriminant < 0) then dMax
      else
        let sqrtDisc := sqrt discriminant in
        let t1 := (- B - sqrtDisc) / (2 * A) in
        let t2 := (- B + sqrtDisc) / (2 * A) in
        (* [tCollision = Infinity] is [None] *)
        let tCollision :=
          if decide (t1 > 1e-6) then Some t1
          else if decide (t2 > 1e-6) then Some t2
          else None in
        match tCollision with
        | None => dMax
        | Some t =>
            let speed := vec2.length vCandidate in
            let distance := speed * t in
            Rmin distance dMax
        end.

Definition collisionDistanceWall
    (ped : Pedestrian) (wall : Wall) (vCandidate : Vec2) (dMax : number) : number :=
  let speed := vec2.length vCandidate in
  if decide (speed < 1e-10) then dMax
  else
    let vDir := vec2.normalize vCandidate in
    let segDir := vec2.sub wall.(end_) wall.(start) in
    let segLen := vec2.length segDir in
    if decide (segLen < 1e-10) then dMax
    else
      let toStart := vec2.sub wall.(start) ped.(position) in
      let cross := vDir.(x) * segDir.(y) - vDir.(y) * segDir.(x) in
      if decide (Rabs cross < 1e-10) then
        let dist := distanceToSegment ped.(position) wall.(start) wall.(end_) in
        if decide (dist <= ped.(radius)) then
          let perpDist :=
            wall.(a) * ped.(position).(x) + wall.(b) * ped.(position).(y) + wall.(c) in
          if decide (perpDist * (wall.(a) * vCandidate.(x) + wall.(b) * vCandidate.(y)) < 0)
          then 0
          else dMax
        else dMax
      else
        let t := (toStart.(x) * segDir.(y) - toStart.(y) * segDir.(x)) / cross in
        let s := (toStart.(x) * vDir.(y) - toStart.(y) * vDir.(x)) / cross in
        if decide (t < 0 \/ s < 0 \/ s > segLen) then
          let distToStart := vec2.distance ped.(position) wall.(start) in
          let distToEnd := vec2.distance ped.(position) wall.(end_) in
          if decide (distToStart <= ped.(radius) \/ distToEnd <= ped.(radius)) then 0
          else dMax
        else
          let intersectionDist := t * speed in
          let adjustedDist := Rmax 0 (intersectionDist - ped.(radius)) in
          Rmin adjustedDist dMax.

(** [{ ...other, position: otherPos }] *)
Definition with_position (other : Pedestrian) (otherPos : Vec2) : Pedestrian :=
  {| id := other.(id); position := otherPos; velocity := other.(velocity);
     mass := other.(mass); radius := other.(radius);
     desiredSpeed := other.(desiredSpeed); destination := other.(destination);
     direction := other.(direction); active := other.(active) |}.

(** The indices [0, 1, ..., numSteps - 1] of a counting loop. *)
Definition indices (numSteps : Z) : list Z :=
  Z.of_nat <$> seq 0 (Z.to_nat numSteps).

(** The inner loop of [computeVision] over [others], from [minDist]. *)
Definition visionOthers
    (pedestrian : Pedestrian) (others : list Pedestrian) (params : SimulationParams)
    (bounds : option Bounds) (periodic : bool) (vCandidate : Vec2)
    (minDist : number) : number :=
  foldl (fun minDist other =>
    if decide (other.(id) = pedestrian.(id)) then minDist
    else if negb other.(active) then minDist
    else
      let otherPos :=
        match bounds with
        | Some bounds =>
            if periodic then
              let displacement :=
                periodicDisplacement pedestrian.(position) other.(position) bounds in
              vec2.add pedestrian.(position) displacement
            else other.(position)
        | None => other.(position)
        end in
      let otherAdjusted := with_position other otherPos in
      let dist :=
        collisionDistancePedestrian pedestrian otherAdjusted vCandidate params.(dMax) in
      Rmin minDist dist) minDist others.

(** The inner loop of [computeVision] over [walls], from [minDist]. *)
Definition visionWalls
    (pedestrian : Pedestrian) (walls : list Wall) (params : SimulationParams)
    (vCandidate : Vec2) (minDist : number) : number :=
  foldl (fun minDist wall =>
    let dist := collisionDistanceWall pedestrian wall vCandidate params.(dMax) in
    Rmin minDist dist) minDist walls.

Definition visionNumSteps (params : SimulationParams) : Z :=
  (Math_ceil ((2 * params.(phi)) / params.(angularResolution))%R + 1)%Z.

Definition visionAlpha (params : SimulationParams) (i : Z) : number :=
  - params.(phi) + IZR i * params.(angularResolution).

Definition computeVision
    (pedestrian : Pedestrian) (others : list Pedestrian) (walls : list Wall)
    (params : SimulationParams) (bounds : option Bounds) (periodic : bool)
    (heading : option number) : VisionResult :=
  let actualHeading :=
    match heading with
    | Some h => h
    | None => vec2.angle (vec2.sub pedestrian.(destination) pedestrian.(position))
    end in
  let numSteps := visionNumSteps params in
  let sample (i : Z) : number * number :=
    let alpha := visionAlpha params i in
    let minDist := params.(dMax) in
    let absDirection := actualHeading + alpha in
    let vCandidate := vec2.fromAngle absDirection pedestrian.(desiredSpeed) in
    let minDist := visionOthers pedestrian others params bounds periodic vCandidate minDist in
    let minDist := visionWalls pedestrian walls params vCandidate minDist in
    (alpha, minDist) in
  let samples := sample <$> indices numSteps in
  {| angles := fst <$> samples; distances := snd <$> samples |}.

(** ** simulation/heuristics.ts *)

Definition directionCost (dMax alpha f : number) : number :=
  let alpha0 := 0 in
  let dMaxSq := dMax * dMax in
  dMaxSq + f * f - 2 * dMax * f * cos (alpha0 - alpha).

(** The scan of [selectDirection] from index [i], with the running
    [minCost] ([None] is [Infinity]) and [bestIdx].  When [distances] is the
    shorter array, [f] is [undefined] from there on: the cost is NaN and
    [cost < minCost] is false. *)
Fixpoint selectDirection_scan (dMax : number) (angles distances : list number)
    (i : nat) (minCost : option number) (bestIdx : nat) : nat :=
  match angles, distances with
  | alpha :: angles', f :: distances' =>
      let cost := directionCost dMax alpha f in
      let better :=
        match minCost with
        | None => true
        | Some m => bool_decide (cost < m)
        end in
      if better then selectDirection_scan dMax angles' distances' (S i) (Some cost) i
      else selectDirection_scan dMax angles' distances' (S i) minCost bestIdx
  | _, _ => bestIdx
  end.

Definition selectDirection
    (angles distances : list number) (params : SimulationParams) : DirectionResult :=
  let bestIdx := selectDirection_scan params.(dMax) angles distances 0 None 0 in
  {| alphaDes := angles !! bestIdx; distanceToObstacle := distances !! bestIdx |}.

Definition selectSpeed (desiredSpeed distanceToObstacle tau : number) : number :=
  Rmin desiredSpeed (distanceToObstacle / tau).

(** [None] when [selectDirection] read the arrays out of range. *)
Definition computeDesiredVelocity
    (desiredSpeed : number) (angles distances : list number)
    (params : SimulationParams) : option (number * number) :=
  let r := selectDirection angles distances params in
  alphaDes ← r.(alphaDes);
  distanceToObstacle ← r.(distanceToObstacle);
  let speedDes := selectSpeed desiredSpeed distanceToObstacle params.(tau) in
  Some (alphaDes, speedDes).

(** ** simulation/physics.ts *)

(** The body of the loop over [j] in [computeContactForces]. *)
Definition contactPair
    (pedestrians : list Pedestrian) (params : SimulationParams)
    (bounds : option Bounds) (periodic : bool) (i : nat) (pi : Pedestrian)
    (forces : list Vec2) (j : nat) : list Vec2 :=
  match pedestrians !! j with
  | None => forces
  | Some pj =>
      if negb pj.(active) then forces
      else
        let delta :=
          match bounds with
          | Some bounds =>
              if periodic then periodicDisplacement pj.(position) pi.(position) bounds
              else vec2.sub pi.(position) pj.(position)
          | None => vec2.sub pi.(position) pj.(position)
          end in
        let dist := vec2.length delta in
        let overlap := pi.(radius) + pj.(radius) - dist in
        if decide (overlap > 0) then
          let normal :=
            if decide (dist > 1e-10) then vec2.scale delta (1 / dist)
            else {| x := 1; y := 0 |} in
          let forceMag := params.(k) * overlap in
          let force := vec2.scale normal forceMag in
          let forces := alter (fun f => vec2.add f force) i forces in
          alter (fun f => vec2.sub f force) j forces
        else forces
  end.

(** The body of the loop over [walls] in [computeContactForces]. *)
Definition contactWall
    (params : SimulationParams) (i : nat) (pi : Pedestrian)
    (forces : list Vec2) (wall : Wall) : list Vec2 :=
  let distance := distanceToSegment pi.(position) wall.(start) wall.(end_) in
  let overlap := pi.(radius) - distance in
  if decide (overlap > 0) then
    let normal := normalFromSegmentToPoint pi.(position) wall.(start) wall.(end_) in
    let forceMag := params.(k) * overlap in
    let force := vec2.scale normal forceMag in
    alter (fun f => vec2.add f force) i forces
  else forces.

(** The body of the loop over [i] in [computeContactForces]. *)
Definition contactAgent
    (pedestrians : list Pedestrian) (walls : list Wall) (params : SimulationParams)
    (bounds : option Bounds) (periodic : bool)
    (forces : list Vec2) (i : nat) : list Vec2 :=
  match pedestrians !! i with
  | None => forces
  | Some pi =>
      if negb pi.(active) then forces
      else
        let forces :=
          foldl (contactPair pedestrians params bounds periodic i pi) forces
                (seq (S i) (length pedestrians - S i)) in
        foldl (contactWall params i pi) forces walls
  end.

Definition computeContactForces
    (pedestrians : list Pedestrian) (walls : list Wall) (params : SimulationParams)
    (bounds : option Bounds) (periodic : bool) : list Vec2 :=
  let forces := (fun _ => vec2.zero) <$> pedestrians in
  foldl (contactAgent pedestrians walls params bounds periodic) forces
        (seq 0 (length pedestrians)).

(** ** simulation/simulation.ts *)

(** A call either returns a value or throws. *)
Inductive Completion (A : Type) :=
  | Returns (v : A)
  | Throws.
Arguments Returns {A} v.
Arguments Throws {A}.

(** [Partial<SimulationParams>]: [None] is an absent property. *)
Module PartialParams.
Record t := mk {
  tau : option number;
  phi : option number;
  dMax : option number;
  k : option number;
  dt : option number;
  angularResolution : option number
}.
Definition empty : t := mk None None None None None None.
End PartialParams.

(** [{ ...defaultParams, ...params }] *)
Definition spreadParams (base : SimulationParams) (over : PartialParams.t)
    : SimulationParams :=
  {| tau := default base.(tau) over.(PartialParams.tau);
     phi := default base.(phi) over.(PartialParams.phi);
     dMax := default base.(dMax) over.(PartialParams.dMax);
     k := default base.(k) over.(PartialParams.k);
     dt := default base.(dt) over.(PartialParams.dt);
     angularResolution :=
       default base.(angularResolution) over.(PartialParams.angularResolution) |}.

(** The data fields of the [Simulation] class. *)
Record World := mkWorld {
  pedestrians : list Pedestrian;
  environment : Environment;
  params : SimulationParams;
  time : number
}.

(** A [Simulation] object: its data and the registered step hooks, each a
    transformer of the data. *)
Record Simulation := mkSimulation {
  world : World;
  onStepCallbacks : list (World -> World)
}.

Definition Simulation_constructor
    (environment : Environment) (params : PartialParams.t) : Completion Simulation :=
  Returns
    {| world := {| pedestrians := [];
                   environment := environment;
                   params := spreadParams defaultParams params;
                   time := 0 |};
       onStepCallbacks := [] |}.

Definition addPedestrians (sim : Simulation) (peds : list Pedestrian) : Simulation :=
  let '(mkWorld pedestrians environment params time) := sim.(world) in
  {| world := mkWorld (pedestrians ++ peds) environment params time;
     onStepCallbacks := sim.(onStepCallbacks) |}.

(** The heading chosen at the top of the loop body of [step]. *)
Definition stepHeading (periodic : bool) (ped : Pedestrian) : number :=
  if periodic then
    (if decide (ped.(direction) > 0) then 0 else PI)
  else
    let toDestination := vec2.sub ped.(destination) ped.(position) in
    let dist := vec2.length toDestination in
    if decide (dist > 0.1) then vec2.angle toDestination
    else if decide (vec2.length ped.(velocity) > 0.01) then vec2.angle ped.(velocity)
    else 0.

(** [ped.velocity = v; ped.position = p] on the object stored in the array. *)
Definition moved (ped : Pedestrian) (v p : Vec2) : Pedestrian :=
  {| id := ped.(id); position := p; velocity := v;
     mass := ped.(mass); radius := ped.(radius);
     desiredSpeed := ped.(desiredSpeed); destination := ped.(destination);
     direction := ped.(direction); active := ped.(active) |}.

(** The new state of [ped], given the population [others] that its vision
    reads and the contact force [force] on it.  [None]: the heuristic read
    an empty sample array, so the new velocity is NaN. *)
Definition advance
    (walls : list Wall) (params : SimulationParams) (bounds : Bounds)
    (periodic : bool) (others : list Pedestrian) (force : Vec2)
    (ped : Pedestrian) : option Pedestrian :=
  let heading := stepHeading periodic ped in
  let vision :=
    computeVision ped others walls params (Some bounds) periodic (Some heading) in
  '(alphaDes, speedDes) ←
    computeDesiredVelocity ped.(desiredSpeed) vision.(angles) vision.(distances) params;
  let absDirection := heading + alphaDes in
  let vDes := vec2.fromAngle absDirection speedDes in
  let relaxation := vec2.scale (vec2.sub vDes ped.(velocity)) (1 / params.(tau)) in
  let contactAccel := vec2.scale force (1 / ped.(mass)) in
  let acceleration := vec2.add relaxation contactAccel in
  let velocity := vec2.add ped.(velocity) (vec2.scale acceleration params.(dt)) in
  let position := vec2.add ped.(position) (vec2.scale velocity params.(dt)) in
  let position := if periodic then wrapPosition position bounds else position in
  Some (moved ped velocity position).

(** The body of the loop over [i] in [step]: the array [pedestrians] is
    updated in place, so later turns read what earlier turns wrote. *)
Definition stepAgent
    (forces : list Vec2) (walls : list Wall) (params : SimulationParams)
    (bounds : Bounds) (periodic : bool)
    (pedestrians : list Pedestrian) (i : nat) : option (list Pedestrian) :=
  ped ← pedestrians !! i;
  if negb ped.(active) then Some pedestrians
  else
    force ← forces !! i;
    ped' ← advance walls params bounds periodic pedestrians force ped;
    Some (<[i := ped']> pedestrians).

Fixpoint stepAgents
    (forces : list Vec2) (walls : list Wall) (params : SimulationParams)
    (bounds : Bounds) (periodic : bool)
    (pedestrians : list Pedestrian) (ixs : list nat) : option (list Pedestrian) :=
  match ixs with
  | [] => Some pedestrians
  | i :: ixs' =>
      pedestrians' ← stepAgent forces walls params bounds periodic pedestrians i;
      stepAgents forces walls params bounds periodic pedestrians' ixs'
  end.

(** The agent loop of [step] on a population: forces first, then the loop. *)
Definition stepPedestrians
    (environment : Environment) (params : SimulationParams)
    (pedestrians : list Pedestrian) : option (list Pedestrian) :=
  let '(mkEnvironment walls boundaryType bounds) := environment in
  let periodic := bool_decide (boundaryType = periodic) in
  let forces := computeContactForces pedestrians walls params (Some bounds) periodic in
  stepAgents forces walls params bounds periodic pedestrians (seq 0 (length pedestrians)).

Definition step (sim : Simulation) : option Simulation :=
  let '(mkWorld pedestrians environment params time) := sim.(world) in
  pedestrians' ← stepPedestrians environment params pedestrians;
  let w := mkWorld pedestrians' environment params (time + params.(dt)) in
  Some {| world := foldl (fun w callback => callback w) w sim.(onStepCallbacks);
          onStepCallbacks := sim.(onStepCallbacks) |}.

(** ** simulation/environment.ts *)

Definition createWall (start end_ : Vec2) : Completion Wall :=
  let line := lineFromPoints start end_ in
  let normal := {| x := line.(line_a); y := line.(line_b) |} in
  Returns
    {| start := vec2.copy start;
       end_ := vec2.copy end_;
       a := line.(line_a);
       b := line.(line_b);
       c := line.(line_c);
       normal := normal |}.

(** ** simulation/pedestrian.ts

    The module reads two pieces of global state: its own counter [nextId]
    and the generator behind [Math.random], here the sequence [randoms] of
    the values it will return (each in [0, 1)) and the number [drawn] of
    values already consumed. *)

Record Runtime := mkRuntime {
  nextId : Z;
  randoms : nat -> number;
  drawn : nat
}.

Definition Run (A : Type) : Type := Runtime -> A * Runtime.

Definition ret {A : Type} (v : A) : Run A := fun rt => (v, rt).

Definition bind {A B : Type} (m : Run A) (f : A -> Run B) : Run B :=
  fun rt => let '(v, rt') := m rt in f v rt'.

Notation "'let*' v := m 'in' f" := (bind m (fun v => f))
  (at level 10, v name, m at level 200, f at level 200).

Definition Math_random : Run number :=
  fun rt =>
    (rt.(randoms) rt.(drawn),
     {| nextId := rt.(nextId); randoms := rt.(randoms); drawn := S rt.(drawn) |}).

(** [nextId++] *)
Definition takeId : Run Z :=
  fun rt =>
    (rt.(nextId),
     {| nextId := (rt.(nextId) + 1)%Z; randoms := rt.(randoms); drawn := rt.(drawn) |}).

Definition resetPedestrianIds : Run unit :=
  fun rt => (tt, {| nextId := 0%Z; randoms := rt.(randoms); drawn := rt.(drawn) |}).

(** utils/geometry.ts, Box-Muller *)
Definition randomNormal (mean std : number) : Run number :=
  let* u1 := Math_random in
  let* u2 := Math_random in
  let z := sqrt (-2 * ln u1) * cos (2 * PI * u2) in
  ret (mean + std * z).

Module PedestrianOptions.
Record t := mk {
  position : Vec2;
  destination : Vec2;
  mass : option number;
  desiredSpeed : option number;
  velocity : option Vec2;
  direction : option number
}.
End PedestrianOptions.

Definition createPedestrian (options : PedestrianOptions.t) : Run Pedestrian :=
  let* mass :=
    match options.(PedestrianOptions.mass) with
    | Some m => ret m
    | None => let* r := Math_random in ret (60 + r * 40)
    end in
  let radius := mass / 320 in
  let* desiredSpeed :=
    match options.(PedestrianOptions.desiredSpeed) with
    | Some s => ret s
    | None => let* n := randomNormal 1.3 0.2 in ret (Rmax 0.5 n)
    end in
  let* id := takeId in
  ret {| id := id;
         position := vec2.copy options.(PedestrianOptions.position);
         velocity :=
           match options.(PedestrianOptions.velocity) with
           | Some v => vec2.copy v
           | None => vec2.zero
           end;
         mass := mass;
         radius := radius;
         desiredSpeed := desiredSpeed;
         destination := vec2.copy options.(PedestrianOptions.destination);
         direction := default 1 options.(PedestrianOptions.direction);
         active := true |}.

(** The [options] argument of [createPedestriansInArea]. *)
Module AreaOptions.
Record t := mk {
  desiredSpeedMean : option number;
  desiredSpeedStd : option number;
  uniformMass : option number;
  directionFn : option (nat -> number)
}.
End AreaOptions.

(** The [while] loop of [createPedestriansInArea], with its two variables
    [pedestrians] and [attempts]; its locals [position], [mass], [radius]
    and [desiredSpeed] are primed here, the plain names being the fields
    of [Pedestrian].  [fuel] bounds the number of turns; the
    loop is started with [maxAttempts] of it, which the guard
    [attempts < maxAttempts] never lets run out. *)
Fixpoint placementLoop
    (fuel : nat) (count maxAttempts : nat) (bounds : Bounds)
    (destinationFn : Vec2 -> nat -> Vec2) (options : option AreaOptions.t)
    (pedestrians : list Pedestrian) (attempts : nat)
    : Run (list Pedestrian * nat) :=
  match fuel with
  | O => ret (pedestrians, attempts)
  | S fuel' =>
      if decide ((length pedestrians < count)%nat /\ (attempts < maxAttempts)%nat) then
        let attempts := S attempts in
        let* rx := Math_random in
        let* ry := Math_random in
        let position' :=
          {| x := bounds.(xMin) + rx * (bounds.(xMax) - bounds.(xMin));
             y := bounds.(yMin) + ry * (bounds.(yMax) - bounds.(yMin)) |} in
        let* mass' :=
          match options ≫= AreaOptions.uniformMass with
          | Some m => ret m
          | None => let* r := Math_random in ret (60 + r * 40)
          end in
        let radius' := mass' / 320 in
        let overlaps :=
          existsb (fun other =>
            let dist := vec2.distance position' other.(position) in
            bool_decide (dist < radius' + other.(radius) + 0.05)) pedestrians in
        if overlaps then
          placementLoop fuel' count maxAttempts bounds destinationFn options
                        pedestrians attempts
        else
          let index := length pedestrians in
          let* desiredSpeed' :=
            match options ≫= AreaOptions.desiredSpeedMean with
            | Some mean =>
                let* n := randomNormal mean
                          (default 0.2 (options ≫= AreaOptions.desiredSpeedStd)) in
                ret (Rmax 0.5 n)
            | None => let* n := randomNormal 1.3 0.2 in ret (Rmax 0.5 n)
            end in
          let* ped :=
            createPedestrian
              {| PedestrianOptions.position := position';
                 PedestrianOptions.destination := destinationFn position' index;
                 PedestrianOptions.mass := options ≫= AreaOptions.uniformMass;
                 PedestrianOptions.desiredSpeed := Some desiredSpeed';
                 PedestrianOptions.velocity := None;
                 PedestrianOptions.direction :=
                   Some (default 1
                     ((fun f => f index) <$> (options ≫= AreaOptions.directionFn))) |} in
          placementLoop fuel' count maxAttempts bounds destinationFn options
                        (pedestrians ++ [ped]) attempts
      else ret (pedestrians, attempts)
  end.

Definition createPedestriansInArea
    (count : nat) (bounds : Bounds) (destinationFn : Vec2 -> nat -> Vec2)
    (options : option AreaOptions.t) : Run (list Pedestrian) :=
  let maxAttempts := (count * 100)%nat in
  let* r := placementLoop maxAttempts count maxAttempts bounds destinationFn options [] 0 in
  ret r.1.

(** ** More of utils/geometry.ts *)

Definition signedDistanceToLine (point : Vec2) (line : LineEquation) : number :=
  line.(line_a) * point.(x) + line.(line_b) * point.(y) + line.(line_c).

Definition distanceToLine (point : Vec2) (line : LineEquation) : number :=
  Rabs (signedDistanceToLine point line).

(** [tolerance = 0.01] when omitted. *)
Definition isPointOnSegment (point segStart segEnd : Vec2) (tolerance : option number)
    : bool :=
  let tolerance := default 0.01 tolerance in
  let segLen := vec2.distance segStart segEnd in
  if decide (segLen < 1e-10) then false
  else
    let toPoint := vec2.sub point segStart in
    let segDir := vec2.normalize (vec2.sub segEnd segStart) in
    let projection := vec2.dot toPoint segDir in
    bool_decide (projection >= - tolerance /\ projection <= segLen + tolerance).

Definition gaussian (distance R : number) : number :=
  let Rsq := R * R in
  (1 / (PI * Rsq)) * exp (- (distance * distance) / Rsq).

(** [while (angle > Math.PI) angle -= 2 * Math.PI], for at most [fuel] turns. *)
Fixpoint normalizeAngle_lower (fuel : nat) (angle : number) : number :=
  match fuel with
  | O => angle
  | S fuel' =>
      if decide (angle > PI) then normalizeAngle_lower fuel' (angle - 2 * PI)
      else angle
  end.

(** [while (angle < -Math.PI) angle += 2 * Math.PI], for at most [fuel] turns. *)
Fixpoint normalizeAngle_raise (fuel : nat) (angle : number) : number :=
  match fuel with
  | O => angle
  | S fuel' =>
      if decide (angle < - PI) then normalizeAngle_raise fuel' (angle + 2 * PI)
      else angle
  end.

(** Both loops get the number of turns they need on reals
    ([normalizeAngle_loops_done] below). *)
Definition normalizeAngle (angle : number) : number :=
  let angle :=
    normalizeAngle_lower (Z.to_nat (Zceil ((angle - PI) / (2 * PI)))) angle in
  normalizeAngle_raise (Z.to_nat (Zceil ((- PI - angle) / (2 * PI)))) angle.

(** ** More of simulation/vision.ts *)

Definition getDistanceInDirection
    (pedestrian : Pedestrian) (direction : number) (others : list Pedestrian)
    (walls : list Wall) (dMax : number) : number :=
  let vCandidate := vec2.fromAngle direction pedestrian.(desiredSpeed) in
  let minDist := dMax in
  let minDist :=
    foldl (fun minDist other =>
      if decide (other.(id) = pedestrian.(id)) then minDist
      else if negb other.(active) then minDist
      else
        let dist := collisionDistancePedestrian pedestrian other vCandidate dMax in
        Rmin minDist dist) minDist others in
  foldl (fun minDist wall =>
    let dist := collisionDistanceWall pedestrian wall vCandidate dMax in
    Rmin minDist dist) minDist walls.

(** ** More of simulation/physics.ts *)

(** The loop of [computeCompression]: the running [totalOverlap] and
    [contactCount]. *)
Definition compressionContacts
    (pedestrian : Pedestrian) (others : list Pedestrian)
    (bounds : option Bounds) (periodic : bool) : number * nat :=
  foldl (fun '(totalOverlap, contactCount) other =>
    if decide (other.(id) = pedestrian.(id)) then (totalOverlap, contactCount)
    else if negb other.(active) then (totalOverlap, contactCount)
    else
      let delta :=
        match bounds with
        | Some bounds =>
            if periodic then
              periodicDisplacement other.(position) pedestrian.(position) bounds
            else vec2.sub pedestrian.(position) other.(position)
        | None => vec2.sub pedestrian.(position) other.(position)
        end in
      let dist := vec2.length delta in
      let overlap := pedestrian.(radius) + other.(radius) - dist in
      if decide (overlap > 0) then (totalOverlap + overlap, S contactCount)
      else (totalOverlap, contactCount)) (0, O) others.

Definition computeCompression
    (pedestrian : Pedestrian) (others : list Pedestrian)
    (bounds : option Bounds) (periodic : bool) : number :=
  let '(totalOverlap, contactCount) :=
    compressionContacts pedestrian others bounds periodic in
  if decide (0 < contactCount)%nat then totalOverlap / INR contactCount else 0.

Definition computeAverageCompression
    (pedestrians : list Pedestrian) (bounds : option Bounds) (periodic : bool) : number :=
  let '(totalCompression, activeCount) :=
    foldl (fun '(totalCompression, activeCount) ped =>
      if negb ped.(active) then (totalCompression, activeCount)
      else (totalCompression + computeCompression ped pedestrians bounds periodic,
            S activeCount)) (0, O) pedestrians in
  if decide (0 < activeCount)%nat then totalCompression / INR activeCount else 0.

(** ** metrics/compression.ts *)

Definition computeBodyCompression
    (pedestrian : Pedestrian) (others : list Pedestrian)
    (bounds : option Bounds) (periodic : bool) : number :=
  foldl (fun totalOverlap other =>
    if decide (other.(id) = pedestrian.(id)) then totalOverlap
    else if negb other.(active) then totalOverlap
    else
      let delta :=
        match bounds with
        | Some bounds =>
            if periodic then
              periodicDisplacement other.(position) pedestrian.(position) bounds
            else vec2.sub pedestrian.(position) other.(position)
        | None => vec2.sub pedestrian.(position) other.(position)
        end in
      let dist := vec2.length delta in
      let overlap := pedestrian.(radius) + other.(radius) - dist in
      if decide (overlap > 0) then totalOverlap + overlap else totalOverlap) 0 others.

(** ** More of simulation/environment.ts *)

(** Calls in sequence: the first that throws ends them. *)
#[global] Instance Completion_ret : MRet Completion := fun _ v => Returns v.
#[global] Instance Completion_bind : MBind Completion :=
  fun _ _ f m => match m with Returns v => f v | Throws => Throws end.

Definition createRectangularRoom (xMin yMin xMax yMax : number) : Completion (list Wall) :=
  bottom ← createWall {| x := xMin; y := yMin |} {| x := xMax; y := yMin |};
  right ← createWall {| x := xMax; y := yMin |} {| x := xMax; y := yMax |};
  top ← createWall {| x := xMax; y := yMax |} {| x := xMin; y := yMax |};
  left ← createWall {| x := xMin; y := yMax |} {| x := xMin; y := yMin |};
  mret [bottom; right; top; left].

(** [centerY = 0] when omitted. *)
Definition createCorridor (length width : number) (centerY : option number)
    : Completion (list Wall) :=
  let centerY := default 0 centerY in
  let halfWidth := width / 2 in
  let halfLength := length / 2 in
  top ← createWall {| x := - halfLength; y := centerY + halfWidth |}
                   {| x := halfLength; y := centerY + halfWidth |};
  bottom ← createWall {| x := halfLength; y := centerY - halfWidth |}
                      {| x := - halfLength; y := centerY - halfWidth |};
  mret [top; bottom].

(** ['left' | 'right' | 'center'] *)
Inductive DoorPosition := door_left | door_right | door_center.

(** [doorPosition = 'right'] when omitted; [walls.push] appends. *)
Definition createCorridorWithDoor (length width doorWidth : number)
    (doorPosition : option DoorPosition) : Completion (list Wall) :=
  let doorPosition := default door_right doorPosition in
  let halfWidth := width / 2 in
  let halfLength := length / 2 in
  let halfDoor := doorWidth / 2 in
  let walls := [] in
  top ← createWall {| x := - halfLength; y := halfWidth |}
                   {| x := halfLength; y := halfWidth |};
  let walls := walls ++ [top] in
  bottom ← createWall {| x := halfLength; y := - halfWidth |}
                      {| x := - halfLength; y := - halfWidth |};
  let walls := walls ++ [bottom] in
  leftEnd ← createWall {| x := - halfLength; y := - halfWidth |}
                       {| x := - halfLength; y := halfWidth |};
  let walls := walls ++ [leftEnd] in
  match doorPosition with
  | door_right =>
      upper ← createWall {| x := halfLength; y := halfWidth |}
                         {| x := halfLength; y := halfDoor |};
      let walls := walls ++ [upper] in
      lower ← createWall {| x := halfLength; y := - halfDoor |}
                         {| x := halfLength; y := - halfWidth |};
      let walls := walls ++ [lower] in
      mret walls
  | _ =>
      rightEnd ← createWall {| x := halfLength; y := halfWidth |}
                            {| x := halfLength; y := - halfWidth |};
      let walls := walls ++ [rightEnd] in
      mret walls
  end.

(** ** More of simulation/simulation.ts *)

Definition onStep (sim : Simulation) (callback : World -> World) : Simulation :=
  {| world := sim.(world); onStepCallbacks := sim.(onStepCallbacks) ++ [callback] |}.

Definition clearPedestrians (sim : Simulation) : Simulation :=
  let '(mkWorld _ environment params time) := sim.(world) in
  {| world := mkWorld [] environment params time;
     onStepCallbacks := sim.(onStepCallbacks) |}.

Definition reset (sim : Simulation) : Simulation :=
  let '(mkWorld _ environment params _) := sim.(world) in
  {| world := mkWorld [] environment params 0;
     onStepCallbacks := sim.(onStepCallbacks) |}.

(** [this.step()] called [turns] times in a row. *)
Fixpoint stepN_loop (turns : nat) (sim : Simulation) : option Simulation :=
  match turns with
  | O => Some sim
  | S turns' => sim' ← step sim; stepN_loop turns' sim'
  end.

(** [for (let i = 0; i < n; i++) this.step()]: the counter takes the
    integers from 0 that are below [n], which are [ceil n] many for a
    positive [n] and none otherwise. *)
Definition stepN (n : number) (sim : Simulation) : option Simulation :=
  stepN_loop (Z.to_nat (Math_ceil n)) sim.

Module SimulationMetrics.
Record t := mk {
  time : number;
  pedestrianCount : nat;
  averageSpeed : number;
  occupancy : number;
  averageCompression : number
}.
End SimulationMetrics.

(** An [area] of 0 makes [occupancy] Infinity or NaN, which is outside
    this model. *)
Definition getMetrics (sim : Simulation) : SimulationMetrics.t :=
  let '(mkWorld pedestrians environment params time) := sim.(world) in
  let '(mkEnvironment walls boundaryType bounds) := environment in
  let activePeds := filter (fun p => p.(active) = true) pedestrians in
  let count := length activePeds in
  let totalSpeed :=
    foldl (fun totalSpeed ped => totalSpeed + vec2.length ped.(velocity)) 0 activePeds in
  let averageSpeed := if decide (0 < count)%nat then totalSpeed / INR count else 0 in
  let area := (bounds.(xMax) - bounds.(xMin)) * (bounds.(yMax) - bounds.(yMin)) in
  let bodyArea :=
    foldl (fun bodyArea ped => bodyArea + PI * ped.(radius) * ped.(radius)) 0 activePeds in
  let occupancy := bodyArea / area in
  let periodic := bool_decide (boundaryType = periodic) in
  let averageCompression := computeAverageCompression pedestrians (Some bounds) periodic in
  {| SimulationMetrics.time := time;
     SimulationMetrics.pedestrianCount := count;
     SimulationMetrics.averageSpeed := averageSpeed;
     SimulationMetrics.occupancy := occupancy;
     SimulationMetrics.averageCompression := averageCompression |}.

(** ** metrics/localSpeed.ts *)

Definition computeAverageSpeed (pedestrians : list Pedestrian) : number :=
  let activePeds := filter (fun p => p.(active) = true) pedestrians in
  if decide (length activePeds = 0%nat) then 0
  else
    let totalSpeed :=
      foldl (fun totalSpeed ped => totalSpeed + vec2.length ped.(velocity)) 0 activePeds in
    totalSpeed / INR (length activePeds).

(** ** metrics/bandIndex.ts *)

(** The counts [n1] and [n2] of the band from [y0] to [yEnd]. *)
Definition bandCounts (activePeds : list Pedestrian) (y0 yEnd : number) : nat * nat :=
  foldl (fun '(n1, n2) ped =>
    if decide (ped.(position).(y) >= y0 /\ ped.(position).(y) < yEnd) then
      (if decide (ped.(direction) > 0) then (S n1, n2) else (n1, S n2))
    else (n1, n2)) (O, O) activePeds.

(** The loop over the bands, for at most [fuel] turns, with its variables
    [y0], [totalBandIndex] and [bandCount]. *)
Fixpoint bandLoop (fuel : nat) (activePeds : list Pedestrian)
    (yMax bandWidth stepSize : number)
    (y0 totalBandIndex : number) (bandCount : nat) : number * nat * number :=
  match fuel with
  | O => (totalBandIndex, bandCount, y0)
  | S fuel' =>
      if decide (y0 <= yMax - bandWidth) then
        let yEnd := y0 + bandWidth in
        let '(n1, n2) := bandCounts activePeds y0 yEnd in
        let total := (n1 + n2)%nat in
        if decide (0 < total)%nat then
          let bandY := Rabs (INR n1 - INR n2) / INR total in
          bandLoop fuel' activePeds yMax bandWidth stepSize
                   (y0 + stepSize) (totalBandIndex + bandY) (S bandCount)
        else
          bandLoop fuel' activePeds yMax bandWidth stepSize
                   (y0 + stepSize) totalBandIndex bandCount
      else (totalBandIndex, bandCount, y0)
  end.

(** [bandWidth = 0.3] and [stepSize = 0.1] when omitted.  [None]: the call
    does not return, which is the case when the loop over the bands is
    entered with a step that is not positive.  With a positive step the
    loop gets the number of turns it needs ([bandLoop_turns_enough] below). *)
Definition computeBandIndex
    (pedestrians : list Pedestrian) (bounds : Bounds)
    (bandWidth stepSize : option number) : option number :=
  let bandWidth := default 0.3 bandWidth in
  let stepSize := default 0.1 stepSize in
  let activePeds := filter (fun p => p.(active) = true) pedestrians in
  if decide (length activePeds < 2)%nat then Some 0
  else
    let yMin := bounds.(yMin) in
    let yMax := bounds.(yMax) in
    if decide (stepSize <= 0 /\ yMin <= yMax - bandWidth) then None
    else
      let turns := Z.to_nat (Zfloor ((yMax - bandWidth - yMin) / stepSize) + 1) in
      let '(totalBandIndex, bandCount, _) :=
        bandLoop turns activePeds yMax bandWidth stepSize yMin 0 O in
      Some (if decide (0 < bandCount)%nat then totalBandIndex / INR bandCount else 0).

(** ** scenarios/evacuation.ts *)

Module EvacuationScenario.

(** The private fields of the scenario. *)
Record t := mk {
  pedestrianCount : nat;
  doorWidth : number;
  evacuatedCount : nat
}.

Definition bounds : Bounds := {| xMin := -5; xMax := 5; yMin := -2; yMax := 2 |}.

Definition setDoorWidth (scenario : t) (width : number) : t :=
  {| pedestrianCount := scenario.(pedestrianCount);
     doorWidth := Rmax 0.4 (Rmin 2.0 width);
     evacuatedCount := scenario.(evacuatedCount) |}.

Definition createWalls (scenario : t) : Completion (list Wall) :=
  createCorridorWithDoor 10 4 scenario.(doorWidth) (Some door_right).

(** [ped.active = false] on the object stored in the array. *)
Definition deactivated (ped : Pedestrian) : Pedestrian :=
  {| id := ped.(id); position := ped.(position); velocity := ped.(velocity);
     mass := ped.(mass); radius := ped.(radius);
     desiredSpeed := ped.(desiredSpeed); destination := ped.(destination);
     direction := ped.(direction); active := false |}.

(** The loop of [onStep] over [simulation.pedestrians], which it updates
    in place: the scenario and the array after it. *)
Definition onStep (scenario : t) (pedestrians : list Pedestrian)
    : t * list Pedestrian :=
  let '(evacuatedCount', pedestrians') :=
    foldl (fun '(evacuatedCount', seen) ped =>
      if negb ped.(active) then (evacuatedCount', seen ++ [ped])
      else if decide (ped.(position).(x) > bounds.(xMax) + 0.5) then
        (S evacuatedCount', seen ++ [deactivated ped])
      else (evacuatedCount', seen ++ [ped]))
      (scenario.(evacuatedCount), []) pedestrians in
  ({| pedestrianCount := scenario.(pedestrianCount);
      doorWidth := scenario.(doorWidth);
      evacuatedCount := evacuatedCount' |}, pedestrians').

Definition isComplete (scenario : t) : bool :=
  bool_decide (scenario.(pedestrianCount) <= scenario.(evacuatedCount))%nat.

End EvacuationScenario.

(** ** Notions used to state the properties *)

(** The sum of a force array. *)
Definition vec2_sum (vs : list Vec2) : Vec2 := foldr vec2.add vec2.zero vs.

(** What one wall adds to the force on [pi] in [computeContactForces]. *)
Definition wallForce (params : SimulationParams) (pi : Pedestrian) (wall : Wall) : Vec2 :=
  let distance := distanceToSegment pi.(position) wall.(start) wall.(end_) in
  let overlap := pi.(radius) - distance in
  if decide (overlap > 0) then
    vec2.scale (normalFromSegmentToPoint pi.(position) wall.(start) wall.(end_))
               (params.(k) * overlap)
  else vec2.zero.

(** What the walls add to the force on one agent. *)
Definition wallTotal (params : SimulationParams) (walls : list Wall) (pi : Pedestrian)
    : Vec2 :=
  if pi.(active) then vec2_sum (wallForce params pi <$> walls) else vec2.zero.

(** What the update of the agent at [i] is computed from, when the loop
    started on [before] and ended on [after]: the entries below [i] as the
    loop left them, the others as they were. *)
Definition seenBy (before after : list Pedestrian) (i : nat) : list Pedestrian :=
  take i after ++ drop i before.

(** Each pedestrian of the list keeps the margin of 0.05 from those placed
    before it. *)
Definition separated (peds : list Pedestrian) : Prop :=
  forall i j p q, (i < j)%nat -> peds !! i = Some p -> peds !! j = Some q ->
    p.(radius) + q.(radius) + 0.05 <= vec2.distance q.(position) p.(position).

(** [ped] with another destination, chosen from its identity. *)
Definition retarget (g : Z -> Vec2) (ped : Pedestrian) : Pedestrian :=
  {| id := ped.(id); position := ped.(position); velocity := ped.(velocity);
     mass := ped.(mass); radius := ped.(radius);
     desiredSpeed := ped.(desiredSpeed); destination := g ped.(id);
     direction := ped.(direction); active := ped.(active) |}.

(** [other] moved to its torus image nearest to [observer]. *)
Definition nearestImage (bounds : Bounds) (observer other : Pedestrian) : Pedestrian :=
  with_position other
    (vec2.add observer.(position)
       (periodicDisplacement observer.(position) other.(position) bounds)).

(** The squared distance between the centres after a time [t], when [pi]
    moves with the velocity [v] and [pj] with its own. *)
Definition gapSquaredAfter (pi pj : Pedestrian) (v : Vec2) (t : number) : number :=
  vec2.distanceSquared
    (vec2.add pj.(position) (vec2.scale pj.(velocity) t))
    (vec2.add pi.(position) (vec2.scale v t)).

(** The vector from [pj] to [pi] that the contact code measures: the
    minimum image on a torus, the plain difference otherwise. *)
Definition contactDelta (bounds : option Bounds) (periodic : bool) (pi pj : Pedestrian)
    : Vec2 :=
  match bounds with
  | Some bounds =>
      if periodic then periodicDisplacement pj.(position) pi.(position) bounds
      else vec2.sub pi.(position) pj.(position)
  | None => vec2.sub pi.(position) pj.(position)
  end.

(** [q] is the pedestrian [p] at some place and with some velocity: all
    its other fields are those of [p]. *)
Definition sameBody (p q : Pedestrian) : Prop :=
  q = moved p q.(velocity) q.(position).

(** A point of the rectangle, upper edges excluded. *)
Definition insideBounds (bounds : Bounds) (p : Vec2) : Prop :=
  bounds.(xMin) <= p.(x) < bounds.(xMax) /\ bounds.(yMin) <= p.(y) < bounds.(yMax).

(** A computation that leaves the id counter and the generator's sequence
    as they are: it may only draw. *)
Definition keepsIds {A : Type} (m : Run A) : Prop :=
  forall rt, (m rt).2.(nextId) = rt.(nextId) /\ (m rt).2.(randoms) = rt.(randoms).

(** What holds of the pedestrian that [createPedestriansInArea] returns at
    index [i], when the id counter stood at [id0] before the call. *)
Definition placed (id0 : Z) (bounds : Bounds) (destinationFn : Vec2 -> nat -> Vec2)
    (options : option AreaOptions.t) (i : nat) (p : Pedestrian) : Prop :=
  p.(id) = (id0 + Z.of_nat i)%Z /\
  p.(active) = true /\
  p.(velocity) = vec2.zero /\
  p.(radius) = p.(mass) / 320 /\
  match options ≫= AreaOptions.uniformMass with
  | Some m => p.(mass) = m
  | None => 60 <= p.(mass) < 100
  end /\
  0.5 <= p.(desiredSpeed) /\
  bounds.(xMin) <= p.(position).(x) <= bounds.(xMax) /\
  bounds.(yMin) <= p.(position).(y) <= bounds.(yMax) /\
  p.(destination) = destinationFn p.(position) i /\
  p.(direction) = default 1 ((fun f => f i) <$> (options ≫= AreaOptions.directionFn)).

(** The number of active pedestrians of a population. *)
Definition activeCount (pedestrians : list Pedestrian) : nat :=
  length (filter (fun p => p.(active) = true) pedestrians).

(** ** Example data *)

(** Default constants, with a field of view of 90 degrees to each side
    sampled every 90 degrees: the candidates are right, ahead and left. *)
Definition coarseParams : SimulationParams :=
  {| tau := 0.5; phi := PI / 2; dMax := 10; k := 5000; dt := 0.02;
     angularResolution := PI / 2 |}.

(** Two walkers of 80 kg one metre apart, walking towards each other. *)
Definition walkerA : Pedestrian :=
  {| id := 0; position := {| x := 0; y := 0 |}; velocity := vec2.zero;
     mass := 80; radius := 0.25; desiredSpeed := 1;
     destination := {| x := 10; y := 0 |}; direction := 1; active := true |}.

Definition walkerB : Pedestrian :=
  {| id := 1; position := {| x := 1; y := 0 |}; velocity := vec2.zero;
     mass := 80; radius := 0.25; desiredSpeed := 1;
     destination := {| x := -10; y := 0 |}; direction := -1; active := true |}.

Definition hall : Bounds := {| xMin := -20; xMax := 20; yMin := -20; yMax := 20 |}.

Definition openFloor : Environment :=
  {| walls := []; boundaryType := closed; bounds := hall |}.

Definition torusFloor : Environment :=
  {| walls := []; boundaryType := periodic; bounds := hall |}.

(** Default constants with a half-angle of one radian sampled every 0.3. *)
Definition unevenParams : SimulationParams :=
  {| tau := 0.5; phi := 1; dMax := 10; k := 5000; dt := 0.02;
     angularResolution := 0.3 |}.

(** A parameter object that asks for a negative time step. *)
Definition negativeStep : PartialParams.t :=
  PartialParams.mk None None None None (Some (-1)) None.

(** A runtime whose generator returns one half every time. *)
Definition steadyRuntime : Runtime :=
  {| nextId := 0; randoms := fun _ => 0.5; drawn := 0 |}.

(** The options of the standing pedestrian of the static two-pedestrian
    scenario. *)
Definition standingOptions : PedestrianOptions.t :=
  {| PedestrianOptions.position := {| x := 0; y := 0 |};
     PedestrianOptions.destination := {| x := 0; y := 0 |};
     PedestrianOptions.mass := None;
     PedestrianOptions.desiredSpeed := Some 0;
     PedestrianOptions.velocity := Some {| x := 0; y := 0 |};
     PedestrianOptions.direction := None |}.

(** A placement run: the unit square, two pedestrians, no options.  The
    generator returns 0.2, 0.5 for the first position and 0.7, 0.5 for the
    second; 0.5 and 0 for the two masses of the overlap check; 0.5 and 0.9
    for the two masses drawn by [createPedestrian]; 0.5 elsewhere. *)
Definition unitSquare : Bounds := {| xMin := 0; xMax := 1; yMin := 0; yMax := 1 |}.

Definition toExit (position : Vec2) (index : nat) : Vec2 := {| x := 5; y := 0.5 |}.

Definition packingDraws (n : nat) : number :=
  match n with
  | 0%nat => 0.2
  | 6%nat => 0.7
  | 8%nat => 0
  | 11%nat => 0.9
  | _ => 0.5
  end.

Definition packingRuntime : Runtime :=
  {| nextId := 0; randoms := packingDraws; drawn := 0 |}.

(** The two walkers on the open floor, in either order, with no hooks. *)
Definition crossing (pedestrians : list Pedestrian) : Simulation :=
  {| world := mkWorld pedestrians openFloor coarseParams 0; onStepCallbacks := [] |}.

(** [walkerA] after one step taken while [walkerB] stands at its start. *)
Definition walkerA1 : Pedestrian :=
  moved walkerA {| x := 0.04; y := 0 |} {| x := 0.0008; y := 0 |}.

(** [walkerB] after one step taken while [walkerA] stands at its start. *)
Definition walkerB0 : Pedestrian :=
  moved walkerB {| x := -0.04; y := 0 |} {| x := 0.9992; y := 0 |}.

(** [walkerB] after one step taken when [walkerA] has already become
    [walkerA1]. *)
Definition walkerB1 : Pedestrian :=
  moved walkerB {| x := -0.0384; y := 0 |} {| x := 0.999232; y := 0 |}.

(** [walkerA] after one step taken when [walkerB] has already become
    [walkerB0]. *)
Definition walkerA0 : Pedestrian :=
  moved walkerA {| x := 0.0384; y := 0 |} {| x := 0.000768; y := 0 |}.

(** * Properties *)

(** ** Reading decisions on reals *)

Ltac decide_true := rewrite decide_True by lra.

(** ** Heuristics *)

(** C8: speed selection is [min(desiredSpeed, f / tau)]: the desired speed
    when the obstacle distance over tau is at least the desired speed, the
    quotient otherwise; scenario D gives 0.8.  The quotient needs a nonzero
    tau, which the data model's [tau > 0] provides. *)
Theorem selectSpeed_is_min (desiredSpeed f tau : number) :
  0 <= desiredSpeed -> 0 <= f -> 0 < tau ->
  selectSpeed desiredSpeed f tau = Rmin desiredSpeed (f / tau) /\
  (desiredSpeed <= f / tau -> selectSpeed desiredSpeed f tau = desiredSpeed) /\
  (f / tau < desiredSpeed -> selectSpeed desiredSpeed f tau = f / tau) /\
  selectSpeed 1.3 0.4 0.5 = 0.8.
Proof.
  intros _ _ _. unfold selectSpeed. repeat split.
  - intros H. by apply Rmin_left.
  - intros H. apply Rmin_right. lra.
  - replace (0.4 / 0.5) with 0.8 by lra. apply Rmin_right. lra.
Qed.

Lemma selectSpeed_is_min_witness :
  selectSpeed 1.3 0.4 0.5 = Rmin 1.3 (0.4 / 0.5) /\
  (1.3 <= 0.4 / 0.5 -> selectSpeed 1.3 0.4 0.5 = 1.3) /\
  (0.4 / 0.5 < 1.3 -> selectSpeed 1.3 0.4 0.5 = 0.4 / 0.5) /\
  selectSpeed 1.3 0.4 0.5 = 0.8.
Proof. apply (selectSpeed_is_min 1.3 0.4 0.5); lra. Defined.

Section SelectDirection.

Variable dMax0 : number.

Local Abbreviation cost := (directionCost dMax0) (only parsing).

(** What the scan returns, from any loop state: either nothing beat the
    running minimum, or the first position of the least cost did. *)
Lemma selectDirection_scan_spec (angles distances : list number) :
  forall (i : nat) (minCost : option number) (bestIdx : nat),
  length angles = length distances ->
  let r := selectDirection_scan dMax0 angles distances i minCost bestIdx in
  (r = bestIdx /\
   match minCost with
   | None => angles = []
   | Some m =>
       forall j al f, angles !! j = Some al -> distances !! j = Some f ->
                      m <= cost al f
   end)
  \/
  (exists j al f,
      r = (i + j)%nat /\ angles !! j = Some al /\ distances !! j = Some f /\
      match minCost with Some m => cost al f < m | None => True end /\
      (forall j' al' f', angles !! j' = Some al' -> distances !! j' = Some f' ->
                         cost al f <= cost al' f') /\
      (forall j' al' f', (j' < j)%nat ->
                         angles !! j' = Some al' -> distances !! j' = Some f' ->
                         cost al f < cost al' f')).
Proof.
  revert distances.
  induction angles as [|al0 angles' IH]; intros distances i minCost bestIdx Hlen.
  - left. split; [done|]. destruct minCost; [|done]. intros j al f Hj. done.
  - destruct distances as [|f0 distances']; [done|].
    injection Hlen as Hlen. cbn [selectDirection_scan].
    set (c0 := directionCost dMax0 al0 f0).
    destruct minCost as [m|].
    + destruct (decide (c0 < m)) as [Hlt|Hge].
      * rewrite bool_decide_eq_true_2 by done.
        destruct (IH distances' (S i) (Some c0) i Hlen) as [[-> Hall]|Hex].
        -- right. exists 0%nat, al0, f0. rewrite Nat.add_0_r.
           repeat split; try done.
           ++ intros [|j'] al' f' Ha Hf; simplify_eq/=; [subst c0; lra|].
              by apply (Hall j').
           ++ intros j' al' f' Hj'. lia.
        -- destruct Hex as (j & al & f & -> & Ha & Hf & Hlt' & Hmin & Hfirst).
           right. exists (S j), al, f. repeat split; try done.
           ++ lia.
           ++ subst c0. lra.
           ++ intros [|j'] al' f' Ha' Hf'; simplify_eq/=; [subst c0; lra|].
              by apply (Hmin j').
           ++ intros [|j'] al' f' Hj' Ha' Hf'; simplify_eq/=; [subst c0; lra|].
              apply (Hfirst j'); [lia|done..].
      * rewrite bool_decide_eq_false_2 by done.
        destruct (IH distances' (S i) (Some m) bestIdx Hlen) as [[-> Hall]|Hex].
        -- left. split; [done|].
           intros [|j'] al' f' Ha Hf; simplify_eq/=; [subst c0; lra|].
           by apply (Hall j').
        -- destruct Hex as (j & al & f & -> & Ha & Hf & Hlt' & Hmin & Hfirst).
           right. exists (S j), al, f. repeat split; try done.
           ++ lia.
           ++ intros [|j'] al' f' Ha' Hf'; simplify_eq/=; [subst c0; lra|].
              by apply (Hmin j').
           ++ intros [|j'] al' f' Hj' Ha' Hf'; simplify_eq/=; [subst c0; lra|].
              apply (Hfirst j'); [lia|done..].
    + destruct (IH distances' (S i) (Some c0) i Hlen) as [[-> Hall]|Hex].
      * right. exists 0%nat, al0, f0. rewrite Nat.add_0_r.
        repeat split; try done.
        -- intros [|j'] al' f' Ha Hf; simplify_eq/=; [subst c0; lra|].
           by apply (Hall j').
        -- intros j' al' f' Hj'. lia.
      * destruct Hex as (j & al & f & -> & Ha & Hf & Hlt' & Hmin & Hfirst).
        right. exists (S j), al, f. repeat split; try done.
        -- lia.
        -- intros [|j'] al' f' Ha' Hf'; simplify_eq/=; [subst c0; lra|].
           by apply (Hmin j').
        -- intros [|j'] al' f' Hj' Ha' Hf'; simplify_eq/=; [subst c0; lra|].
           apply (Hfirst j'); [lia|done..].
Qed.

End SelectDirection.

(** C5: [selectDirection] returns a sampled angle of least cost
    [d(alpha) = dMax^2 + f^2 - 2 dMax f cos(0 - alpha)], and among several
    angles of that least cost the first in scan order; on an ascending
    angle list that is the smallest such angle. *)
Theorem selectDirection_first_minimum
    (angles distances : list number) (params : SimulationParams) :
  angles <> [] -> length angles = length distances ->
  let d := fun alpha f =>
    params.(dMax) * params.(dMax) + f * f - 2 * params.(dMax) * f * cos (0 - alpha) in
  exists bestIdx alpha f,
    angles !! bestIdx = Some alpha /\ distances !! bestIdx = Some f /\
    selectDirection angles distances params =
      {| alphaDes := Some alpha; distanceToObstacle := Some f |} /\
    (forall i al' f', angles !! i = Some al' -> distances !! i = Some f' ->
                      d alpha f <= d al' f') /\
    (forall i al' f', (i < bestIdx)%nat ->
                      angles !! i = Some al' -> distances !! i = Some f' ->
                      d alpha f < d al' f') /\
    ((forall i j ai aj, (i < j)%nat ->
                        angles !! i = Some ai -> angles !! j = Some aj -> ai < aj) ->
     forall i al' f', angles !! i = Some al' -> distances !! i = Some f' ->
                      d al' f' = d alpha f -> alpha <= al').
Proof.
  intros Hne Hlen d.
  destruct (selectDirection_scan_spec params.(dMax) angles distances 0 None 0 Hlen)
    as [[_ Hnil]|(j & al & f & Hr & Ha & Hf & _ & Hmin & Hfirst)]; [done|].
  exists j, al, f. unfold selectDirection. rewrite Hr. simpl.
  rewrite Ha, Hf. repeat split; try done.
  intros Hasc i al' f' Ha' Hf' Heq.
  destruct (decide (i < j)%nat) as [Hlt|Hge].
  - specialize (Hfirst i al' f' Hlt Ha' Hf').
    unfold d, directionCost in *. cbv beta in *. lra.
  - destruct (decide (i = j)) as [->|Hne']; [simplify_eq; lra|].
    assert (al < al'); [|lra]. apply (Hasc j i); [lia|done..].
Qed.

Lemma selectDirection_first_minimum_witness :
  let d := fun alpha f =>
    defaultParams.(dMax) * defaultParams.(dMax) + f * f
    - 2 * defaultParams.(dMax) * f * cos (0 - alpha) in
  exists bestIdx alpha f,
    [-1; 0; 1] !! bestIdx = Some alpha /\ [2; 2; 2] !! bestIdx = Some f /\
    selectDirection [-1; 0; 1] [2; 2; 2] defaultParams =
      {| alphaDes := Some alpha; distanceToObstacle := Some f |} /\
    (forall i al' f', [-1; 0; 1] !! i = Some al' -> [2; 2; 2] !! i = Some f' ->
                      d alpha f <= d al' f') /\
    (forall i al' f', (i < bestIdx)%nat ->
                      [-1; 0; 1] !! i = Some al' -> [2; 2; 2] !! i = Some f' ->
                      d alpha f < d al' f') /\
    ((forall i j ai aj, (i < j)%nat ->
                        [-1; 0; 1] !! i = Some ai -> [-1; 0; 1] !! j = Some aj -> ai < aj) ->
     forall i al' f', [-1; 0; 1] !! i = Some al' -> [2; 2; 2] !! i = Some f' ->
                      d al' f' = d alpha f -> alpha <= al').
Proof.
  apply (selectDirection_first_minimum [-1; 0; 1] [2; 2; 2] defaultParams).
  - discriminate.
  - reflexivity.
Defined.

(** Scenario C: the angles [-1] and [1] see the same distance, so their
    costs are equal; the first of the two is chosen. *)
Example selectDirection_tie :
  selectDirection [-1; 1] [5; 5] defaultParams =
    {| alphaDes := Some (-1); distanceToObstacle := Some 5 |}.
Proof.
  unfold selectDirection. cbn [selectDirection_scan].
  rewrite bool_decide_eq_false_2; [reflexivity|].
  unfold directionCost. replace (0 - -1) with (- (0 - 1)) by lra.
  rewrite cos_neg. lra.
Qed.

(** ** Vision *)

Lemma vec2_length_nonneg (v : Vec2) : 0 <= vec2.length v.
Proof. apply sqrt_pos. Qed.

Lemma collisionDistancePedestrian_bounds (pi pj : Pedestrian) (v : Vec2) (dMax0 : number) :
  0 <= dMax0 -> 0 <= collisionDistancePedestrian pi pj v dMax0 <= dMax0.
Proof.
  intros HdMax. unfold collisionDistancePedestrian. cbv zeta.
  repeat case_decide; try lra.
  - pose proof (vec2_length_nonneg v) as Hlen.
    split; [apply Rmin_glb; [nra|lra] | apply Rmin_r].
  - pose proof (vec2_length_nonneg v) as Hlen.
    split; [apply Rmin_glb; [nra|lra] | apply Rmin_r].
Qed.

Lemma collisionDistanceWall_bounds (ped : Pedestrian) (wall : Wall) (v : Vec2) (dMax0 : number) :
  0 <= dMax0 -> 0 <= collisionDistanceWall ped wall v dMax0 <= dMax0.
Proof.
  intros HdMax. unfold collisionDistanceWall. cbv zeta.
  repeat case_decide; try lra.
  split; [apply Rmin_glb; [apply Rmax_l|lra] | apply Rmin_r].
Qed.

Lemma visionOthers_bounds pedestrian others params bounds periodic v minDist :
  0 <= minDist <= params.(dMax) ->
  0 <= visionOthers pedestrian others params bounds periodic v minDist <= params.(dMax).
Proof.
  unfold visionOthers. revert minDist.
  induction others as [|other others IH]; intros minDist Hm; [done|].
  cbn [foldl]. apply IH.
  case_decide; [done|]. destruct (negb (active other)); [done|].
  match goal with |- context [collisionDistancePedestrian ?p ?q ?w ?d] =>
    pose proof (collisionDistancePedestrian_bounds p q w d ltac:(lra)) as Hc end.
  split; [apply Rmin_glb; lra|].
  eapply Rle_trans; [apply Rmin_l|lra].
Qed.

Lemma visionWalls_bounds pedestrian walls params v minDist :
  0 <= minDist <= params.(dMax) ->
  0 <= visionWalls pedestrian walls params v minDist <= params.(dMax).
Proof.
  unfold visionWalls. revert minDist.
  induction walls as [|wall walls IH]; intros minDist Hm; [done|].
  cbn [foldl]. apply IH.
  pose proof (collisionDistanceWall_bounds pedestrian wall v params.(dMax) ltac:(lra)) as Hc.
  split; [apply Rmin_glb; lra|].
  eapply Rle_trans; [apply Rmin_l|lra].
Qed.

(** The agents that [computeVision] skips make no difference. *)
Lemma visionOthers_considered pedestrian others params bounds periodic v minDist :
  visionOthers pedestrian others params bounds periodic v minDist =
  visionOthers pedestrian
    (filter (fun other => other.(id) <> pedestrian.(id) /\ other.(active) = true) others)
    params bounds periodic v minDist.
Proof.
  unfold visionOthers. revert minDist.
  induction others as [|other others IH]; intros minDist; [done|].
  cbn [foldl]. rewrite IH.
  destruct (decide (other.(id) = pedestrian.(id))) as [Heq|Hne].
  - rewrite filter_cons_False; [done|]. intros [? _]. done.
  - destruct (active other) eqn:Hact; cbn [negb].
    + rewrite filter_cons_True by done. cbn [foldl].
      rewrite decide_False by done. rewrite Hact. done.
    + rewrite filter_cons_False; [done|]. intros [_ ?]. congruence.
Qed.

(** C3: every distance that [computeVision] returns lies in [0, dMax]; it
    is the minimum, started at [dMax], over the agents other than the
    observer that are active and over the walls, so the observer itself
    and the inactive agents do not enter it. *)
Theorem computeVision_bounds
    (pedestrian : Pedestrian) (others : list Pedestrian) (walls : list Wall)
    (params : SimulationParams) (bounds : option Bounds) (periodic : bool)
    (heading : option number) :
  params.(dMax) > 0 ->
  (forall d, d ∈ (computeVision pedestrian others walls params bounds periodic heading).(distances) ->
             0 <= d <= params.(dMax)) /\
  computeVision pedestrian others walls params bounds periodic heading =
  computeVision pedestrian
    (filter (fun other => other.(id) <> pedestrian.(id) /\ other.(active) = true) others)
    walls params bounds periodic heading.
Proof.
  intros HdMax. split.
  - intros d Hd. unfold computeVision in Hd. cbn [distances] in Hd.
    apply list_elem_of_fmap in Hd as ([al d'] & -> & Hd).
    apply list_elem_of_fmap in Hd as (i & Heq & _).
    injection Heq as _ ->. cbn [snd].
    apply visionWalls_bounds, visionOthers_bounds. lra.
  - unfold computeVision. cbv zeta. f_equal.
    + rewrite <- !list_fmap_compose. apply list_fmap_ext. intros _ i _. reflexivity.
    + rewrite <- !list_fmap_compose. apply list_fmap_ext. intros _ i _. cbn.
      by rewrite <- visionOthers_considered.
Qed.

Lemma computeVision_bounds_witness :
  (forall d,
     d ∈ (computeVision walkerA [walkerA; walkerB] [] coarseParams (Some hall) false
                        (Some 0)).(distances) ->
     0 <= d <= coarseParams.(dMax)) /\
  computeVision walkerA [walkerA; walkerB] [] coarseParams (Some hall) false (Some 0) =
  computeVision walkerA
    (filter (fun other => other.(id) <> walkerA.(id) /\ other.(active) = true)
            [walkerA; walkerB])
    [] coarseParams (Some hall) false (Some 0).
Proof.
  apply (computeVision_bounds walkerA [walkerA; walkerB] [] coarseParams (Some hall)
                              false (Some 0)).
  simpl. lra.
Defined.

(** The sampled angles, whatever the parameters: [numSteps] of them,
    starting at [-phi], each [angularResolution] after the one before. *)
Lemma computeVision_angles pedestrian others walls params bounds periodic heading :
  (computeVision pedestrian others walls params bounds periodic heading).(angles) =
  visionAlpha params <$> indices (visionNumSteps params).
Proof.
  unfold computeVision. cbn [angles]. rewrite <- list_fmap_compose.
  apply list_fmap_ext. intros _ i _. reflexivity.
Qed.

Lemma computeVision_lengths pedestrian others walls params bounds periodic heading :
  let v := computeVision pedestrian others walls params bounds periodic heading in
  length v.(angles) = Z.to_nat (visionNumSteps params) /\
  length v.(distances) = Z.to_nat (visionNumSteps params).
Proof.
  unfold computeVision, indices. cbn [angles distances].
  rewrite !length_fmap, length_seq. done.
Qed.

Lemma indices_lookup (n : Z) (i : nat) :
  (i < Z.to_nat n)%nat -> indices n !! i = Some (Z.of_nat i).
Proof.
  intros Hi. unfold indices. rewrite list_lookup_fmap, lookup_seq_lt by done. done.
Qed.

Lemma computeVision_angle_lookup pedestrian others walls params bounds periodic heading i :
  (i < Z.to_nat (visionNumSteps params))%nat ->
  (computeVision pedestrian others walls params bounds periodic heading).(angles) !! i =
  Some (- params.(phi) + INR i * params.(angularResolution)).
Proof.
  intros Hi. rewrite computeVision_angles, list_lookup_fmap, indices_lookup by done.
  cbn. unfold visionAlpha. by rewrite <- INR_IZR_INZ.
Qed.

(** What holds of the sampled angles: the first is [-phi], neighbours are
    [angularResolution] apart, and for a positive resolution they are
    ascending from [-phi] and stay below [phi + angularResolution]. *)
Lemma computeVision_angles_shape pedestrian others walls params bounds periodic heading :
  let v := computeVision pedestrian others walls params bounds periodic heading in
  ((0 < visionNumSteps params)%Z -> v.(angles) !! 0%nat = Some (- params.(phi))) /\
  (forall i a1 a2, v.(angles) !! i = Some a1 -> v.(angles) !! S i = Some a2 ->
                   a2 - a1 = params.(angularResolution)) /\
  (params.(angularResolution) > 0 ->
   forall i al, v.(angles) !! i = Some al ->
                - params.(phi) <= al < params.(phi) + params.(angularResolution)).
Proof.
  cbv zeta. split; [|split].
  - intros Hn. rewrite computeVision_angle_lookup by lia. cbn. f_equal. lra.
  - intros i a1 a2 H1 H2.
    pose proof (lookup_lt_Some _ _ _ H2) as Hlt.
    rewrite (proj1 (computeVision_lengths _ _ _ _ _ _ _)) in Hlt.
    rewrite computeVision_angle_lookup in H1, H2 by lia.
    simplify_eq. rewrite S_INR. lra.
  - intros Hres i al Hal.
    pose proof (lookup_lt_Some _ _ _ Hal) as Hlt.
    rewrite (proj1 (computeVision_lengths _ _ _ _ _ _ _)) in Hlt.
    rewrite computeVision_angle_lookup in Hal by lia. simplify_eq.
    pose proof (pos_INR i) as Hpos. split; [nra|].
    unfold visionNumSteps, Math_ceil in Hlt.
    set (q := 2 * phi params / angularResolution params) in *.
    pose proof (Zceil_bound q) as [Hq _].
    assert (Hi : INR i <= IZR (Zceil q)).
    { rewrite INR_IZR_INZ. apply IZR_le. lia. }
    assert (Hq' : q * angularResolution params = 2 * phi params).
    { unfold q. field. lra. }
    nra.
Qed.

(** For a positive resolution the sampled angles are strictly ascending,
    which is what the tie-break of [selectDirection] is read against. *)
Lemma computeVision_angles_ascending pedestrian others walls params bounds periodic heading :
  params.(angularResolution) > 0 ->
  let v := computeVision pedestrian others walls params bounds periodic heading in
  forall i j ai aj, (i < j)%nat ->
    v.(angles) !! i = Some ai -> v.(angles) !! j = Some aj -> ai < aj.
Proof.
  intros Hres v i j ai aj Hij Hi Hj. subst v.
  pose proof (lookup_lt_Some _ _ _ Hj) as Hlt.
  rewrite (proj1 (computeVision_lengths _ _ _ _ _ _ _)) in Hlt.
  rewrite computeVision_angle_lookup in Hi, Hj by lia. simplify_eq.
  apply lt_INR in Hij. nra.
Qed.

Lemma visionNumSteps_uneven : visionNumSteps unevenParams = 8%Z.
Proof.
  unfold visionNumSteps, Math_ceil. cbn [phi angularResolution unevenParams].
  rewrite (Zceil_eq 7); [reflexivity|]. lra.
Qed.

(** C6, at a half-angle of 1 sampled every 0.3: there are
    [ceil(2 / 0.3) + 1 = 8] sampled angles and the last one is
    [-1 + 7 * 0.3 = 1.1], beyond [phi]. *)
Theorem computeVision_angle_beyond_phi :
  let v := computeVision walkerA [walkerA; walkerB] [] unevenParams (Some hall) false
                         (Some 0) in
  length v.(angles) = 8%nat /\
  v.(angles) !! 7%nat = Some 1.1 /\
  unevenParams.(phi) < 1.1.
Proof.
  cbv zeta. repeat split.
  - rewrite (proj1 (computeVision_lengths _ _ _ _ _ _ _)), visionNumSteps_uneven. done.
  - rewrite computeVision_angle_lookup by (rewrite visionNumSteps_uneven; lia).
    f_equal. cbn [phi angularResolution unevenParams]. simpl INR. lra.
  - cbn [phi unevenParams]. lra.
Qed.

(** ** Contact forces *)

Ltac vec2_eq :=
  repeat match goal with v : Vec2 |- _ => destruct v end;
  unfold vec2.add, vec2.sub, vec2.scale, vec2.zero; cbn [x y];
  f_equal; lra.

Lemma vec2_add_zero_r (v : Vec2) : vec2.add v vec2.zero = v.
Proof. vec2_eq. Qed.

Lemma vec2_add_assoc (u v w : Vec2) :
  vec2.add u (vec2.add v w) = vec2.add (vec2.add u v) w.
Proof. vec2_eq. Qed.

Lemma vec2_add_comm (u v : Vec2) : vec2.add u v = vec2.add v u.
Proof. vec2_eq. Qed.

Lemma vec2_add_sub_cancel (u v : Vec2) : vec2.sub (vec2.add u v) v = u.
Proof. vec2_eq. Qed.

Lemma vec2_sum_cons (v : Vec2) (vs : list Vec2) :
  vec2_sum (v :: vs) = vec2.add v (vec2_sum vs).
Proof. reflexivity. Qed.

Lemma vec2_sum_alter_add (forces : list Vec2) (i : nat) (force : Vec2) :
  (i < length forces)%nat ->
  vec2_sum (alter (fun f => vec2.add f force) i forces) =
  vec2.add (vec2_sum forces) force.
Proof.
  revert i. induction forces as [|f forces IH]; intros i Hi; simpl in Hi; [lia|].
  destruct i as [|i]; cbn [alter list_alter vec2_sum foldr].
  - fold (vec2_sum forces). generalize (vec2_sum forces). intros s. vec2_eq.
  - fold (vec2_sum (alter (fun f => vec2.add f force) i forces)).
    fold (vec2_sum forces). rewrite IH by lia. apply vec2_add_assoc.
Qed.

Lemma vec2_sum_alter_sub (forces : list Vec2) (j : nat) (force : Vec2) :
  (j < length forces)%nat ->
  vec2.add (vec2_sum (alter (fun f => vec2.sub f force) j forces)) force =
  vec2_sum forces.
Proof.
  revert j. induction forces as [|f forces IH]; intros j Hj; simpl in Hj; [lia|].
  destruct j as [|j]; cbn [alter list_alter vec2_sum foldr].
  - fold (vec2_sum forces). generalize (vec2_sum forces). intros s. vec2_eq.
  - fold (vec2_sum (alter (fun f => vec2.sub f force) j forces)).
    fold (vec2_sum forces). rewrite <- vec2_add_assoc, IH by lia. done.
Qed.

Section ContactForces.

Variables (pedestrians : list Pedestrian) (params : SimulationParams).
Variables (bounds : option Bounds) (periodic : bool).

Lemma contactPair_length i pi forces j :
  length (contactPair pedestrians params bounds periodic i pi forces j) =
  length forces.
Proof.
  unfold contactPair. destruct (pedestrians !! j) as [pj|]; [|done].
  destruct (negb (active pj)); [done|]. cbv zeta.
  case_decide; [|done]. by rewrite !length_alter.
Qed.

(** One pair: the same vector goes onto [forces[i]] and off [forces[j]],
    so the total does not change. *)
Lemma contactPair_sum i pi forces j :
  (i < length forces)%nat -> (j < length forces)%nat ->
  vec2_sum (contactPair pedestrians params bounds periodic i pi forces j) =
  vec2_sum forces.
Proof.
  intros Hi Hj. unfold contactPair. destruct (pedestrians !! j) as [pj|]; [|done].
  destruct (negb (active pj)); [done|]. cbv zeta.
  case_decide; [|done].
  match goal with |- context [alter (fun f => vec2.sub f ?u) j _] => set (force := u) end.
  rewrite <- (vec2_add_sub_cancel (vec2_sum (alter _ j _)) force).
  rewrite vec2_sum_alter_sub by (by rewrite length_alter).
  rewrite vec2_sum_alter_add by done. apply vec2_add_sub_cancel.
Qed.

Lemma contactPairs_sum i pi js : forall forces,
  (i < length forces)%nat -> Forall (fun j => (j < length forces)%nat) js ->
  let forces' := foldl (contactPair pedestrians params bounds periodic i pi) forces js in
  length forces' = length forces /\ vec2_sum forces' = vec2_sum forces.
Proof.
  induction js as [|j js IH]; intros forces Hi Hjs; [done|].
  apply Forall_cons in Hjs as [Hj Hjs]. cbn [foldl].
  destruct (IH (contactPair pedestrians params bounds periodic i pi forces j))
    as [Hlen Hsum].
  - by rewrite contactPair_length.
  - by rewrite contactPair_length.
  - cbv zeta in *. split; [by rewrite Hlen, contactPair_length|].
    by rewrite Hsum, contactPair_sum.
Qed.

Lemma contactWalls_sum i pi walls : forall forces,
  (i < length forces)%nat ->
  let forces' := foldl (contactWall params i pi) forces walls in
  length forces' = length forces /\
  vec2_sum forces' = vec2.add (vec2_sum forces) (vec2_sum (wallForce params pi <$> walls)).
Proof.
  induction walls as [|wall walls IH]; intros forces Hi.
  - split; [done|]. cbn. by rewrite vec2_add_zero_r.
  - cbn [foldl fmap list_fmap]. rewrite vec2_sum_cons.
    assert (Hone : length (contactWall params i pi forces wall) = length forces /\
                   vec2_sum (contactWall params i pi forces wall) =
                   vec2.add (vec2_sum forces) (wallForce params pi wall)).
    { unfold contactWall, wallForce. cbv zeta. case_decide.
      - by rewrite length_alter, vec2_sum_alter_add.
      - by rewrite vec2_add_zero_r. }
    destruct Hone as [Hlen1 Hsum1].
    destruct (IH (contactWall params i pi forces wall)) as [Hlen Hsum]; [lia|].
    cbv zeta in *. split; [lia|].
    by rewrite Hsum, Hsum1, vec2_add_assoc.
Qed.

Lemma contactAgent_sum walls forces i pi :
  length forces = length pedestrians -> pedestrians !! i = Some pi ->
  let forces' := contactAgent pedestrians walls params bounds periodic forces i in
  length forces' = length forces /\
  vec2_sum forces' = vec2.add (vec2_sum forces) (wallTotal params walls pi).
Proof.
  intros Hlen Hpi. unfold contactAgent, wallTotal. rewrite Hpi.
  pose proof (lookup_lt_Some _ _ _ Hpi) as Hi.
  destruct (active pi); cbn [negb]; cbv zeta.
  - destruct (contactPairs_sum i pi (seq (S i) (length pedestrians - S i)) forces)
      as [Hlen1 Hsum1].
    + lia.
    + apply Forall_forall. intros j Hj. apply elem_of_seq in Hj. lia.
    + destruct (contactWalls_sum i pi walls
        (foldl (contactPair pedestrians params bounds periodic i pi) forces
               (seq (S i) (length pedestrians - S i)))) as [Hlen2 Hsum2]; [lia|].
      cbv zeta in *. split; [lia|]. by rewrite Hsum2, Hsum1.
  - by rewrite vec2_add_zero_r.
Qed.

Lemma contactAgents_sum walls ixs : forall forces,
  length forces = length pedestrians ->
  Forall (fun i => (i < length pedestrians)%nat) ixs ->
  let forces' := foldl (contactAgent pedestrians walls params bounds periodic) forces ixs in
  length forces' = length forces /\
  vec2_sum forces' =
  vec2.add (vec2_sum forces)
    (vec2_sum ((fun i => default vec2.zero (wallTotal params walls <$> pedestrians !! i)) <$> ixs)).
Proof.
  induction ixs as [|i ixs IH]; intros forces Hlen Hixs.
  - split; [done|]. cbn. by rewrite vec2_add_zero_r.
  - apply Forall_cons in Hixs as [Hi Hixs].
    destruct (lookup_lt_is_Some_2 pedestrians i Hi) as [pi Hpi].
    destruct (contactAgent_sum walls forces i pi Hlen Hpi) as [Hlen1 Hsum1].
    cbn [foldl fmap list_fmap]. rewrite vec2_sum_cons.
    destruct (IH (contactAgent pedestrians walls params bounds periodic forces i))
      as [Hlen2 Hsum2]; [lia|done|].
    cbv zeta in *. split; [lia|].
    rewrite Hsum2, Hsum1, Hpi. cbn. by rewrite vec2_add_assoc.
Qed.

End ContactForces.

Lemma vec2_sum_zeros {A : Type} (l : list A) :
  vec2_sum ((fun _ => vec2.zero) <$> l) = vec2.zero.
Proof.
  induction l as [|a l IH]; [done|].
  cbn [fmap list_fmap]. rewrite vec2_sum_cons. fold (fmap (M:=list) (fun _ : A => vec2.zero) l).
  rewrite IH. vec2_eq.
Qed.

Lemma fmap_lookup_seq {A B : Type} (f : A -> B) (d : B) (l : list A) :
  (fun i => default d (f <$> l !! i)) <$> seq 0 (length l) = f <$> l.
Proof.
  apply list_eq. intros i. rewrite !list_lookup_fmap.
  destruct (decide (i < length l)%nat) as [Hi|Hi].
  - rewrite lookup_seq_lt by done. cbn.
    destruct (lookup_lt_is_Some_2 l i Hi) as [a Ha]. by rewrite Ha.
  - rewrite lookup_seq_ge by lia. by rewrite (lookup_ge_None_2 l i) by lia.
Qed.

Lemma computeContactForces_length pedestrians walls params bounds periodic :
  length (computeContactForces pedestrians walls params bounds periodic) =
  length pedestrians.
Proof.
  unfold computeContactForces. cbv zeta.
  edestruct (contactAgents_sum pedestrians params bounds periodic walls
               (seq 0 (length pedestrians))) as [Hlen _]; [| |rewrite Hlen].
  - by rewrite length_fmap.
  - apply Forall_forall. intros i Hi. apply elem_of_seq in Hi. lia.
  - by rewrite length_fmap.
Qed.

Lemma computeContactForces_sum pedestrians walls params bounds periodic :
  vec2_sum (computeContactForces pedestrians walls params bounds periodic) =
  vec2_sum (wallTotal params walls <$> pedestrians).
Proof.
  unfold computeContactForces. cbv zeta.
  edestruct (contactAgents_sum pedestrians params bounds periodic walls
               (seq 0 (length pedestrians))) as [_ Hsum]; [| |rewrite Hsum].
  - by rewrite length_fmap.
  - apply Forall_forall. intros i Hi. apply elem_of_seq in Hi. lia.
  - rewrite vec2_sum_zeros, fmap_lookup_seq, vec2_add_comm. apply vec2_add_zero_r.
Qed.

(** C4: the contributions between agents cancel.  With no walls the force
    array sums to zero; with walls it sums to what the walls alone
    contribute; the turn of the loop for a pair [i], [j] either leaves the
    array alone or adds one vector to entry [i] and subtracts the same
    vector from entry [j]; and for two agents the array is [force] and its
    opposite. *)
Theorem contact_forces_third_law
    (pedestrians : list Pedestrian) (walls : list Wall) (params : SimulationParams)
    (bounds : option Bounds) (periodic : bool) :
  vec2_sum (computeContactForces pedestrians [] params bounds periodic) = vec2.zero /\
  vec2_sum (computeContactForces pedestrians walls params bounds periodic) =
    vec2_sum (wallTotal params walls <$> pedestrians) /\
  (forall i pi forces j,
      contactPair pedestrians params bounds periodic i pi forces j = forces \/
      exists force,
        contactPair pedestrians params bounds periodic i pi forces j =
        alter (fun f => vec2.sub f force) j (alter (fun f => vec2.add f force) i forces)) /\
  (forall p q, exists force,
      computeContactForces [p; q] [] params bounds periodic =
      [force; vec2.sub vec2.zero force]).
Proof.
  split; [|split; [|split]].
  - rewrite computeContactForces_sum.
    induction pedestrians as [|p ps IH]; [done|].
    cbn [fmap list_fmap]. rewrite vec2_sum_cons.
    fold (fmap (M:=list) (wallTotal params []) ps). rewrite IH.
    unfold wallTotal. destruct (active p); cbn [fmap list_fmap vec2_sum foldr]; vec2_eq.
  - apply computeContactForces_sum.
  - intros i pi forces j. unfold contactPair.
    destruct (pedestrians !! j) as [pj|]; [|by left].
    destruct (negb (active pj)); [by left|]. cbv zeta.
    case_decide; [|by left]. right. eexists. reflexivity.
  - intros p q. unfold computeContactForces, contactAgent. cbn.
    assert (Hzero : [vec2.zero; vec2.zero] = [vec2.zero; vec2.sub vec2.zero vec2.zero]).
    { f_equal. f_equal. vec2_eq. }
    destruct (active p); cbn.
    + unfold contactPair. cbn. destruct (active q); cbn.
      * case_decide; cbn.
        -- match goal with |- context [vec2.sub vec2.zero ?u] => set (force := u) end.
           exists (vec2.add vec2.zero force). clearbody force.
           f_equal. f_equal. vec2_eq.
        -- exists vec2.zero. done.
      * exists vec2.zero. done.
    + exists vec2.zero. destruct (active q); done.
Qed.

(** ** Construction *)

Lemma lineFromPoints_coincident (p : Vec2) :
  lineFromPoints p p = {| line_a := 0; line_b := 0; line_c := 0 |}.
Proof.
  unfold lineFromPoints. cbv zeta.
  replace (- (y p - y p) * - (y p - y p) + (x p - x p) * (x p - x p)) with 0 by ring.
  rewrite sqrt_0. decide_true. reflexivity.
Qed.

(** C7, as the code has it: nothing is rejected at construction.  The
    constructor returns for every parameter object, each supplied value
    taken as it is over the defaults, and [createWall] returns for every
    pair of endpoints; for coincident endpoints the wall it returns has a
    zero line equation and a zero normal. *)
Theorem construction_never_rejects
    (environment : Environment) (partial : PartialParams.t) (start end_ p : Vec2) :
  (exists sim,
      Simulation_constructor environment partial = Returns sim /\
      sim.(world).(params) = spreadParams defaultParams partial /\
      sim.(world).(params).(dt) = default 0.02 partial.(PartialParams.dt) /\
      sim.(world).(params).(tau) = default 0.5 partial.(PartialParams.tau) /\
      sim.(world).(params).(phi) = default (75 * PI / 180) partial.(PartialParams.phi) /\
      sim.(world).(params).(dMax) = default 10.0 partial.(PartialParams.dMax)) /\
  (exists wall, createWall start end_ = Returns wall) /\
  createWall p p =
    Returns {| start := vec2.copy p; end_ := vec2.copy p; a := 0; b := 0; c := 0;
               normal := {| x := 0; y := 0 |} |}.
Proof.
  repeat split.
  - eexists. split; [reflexivity|]. cbn. repeat split.
  - eexists. reflexivity.
  - unfold createWall. rewrite lineFromPoints_coincident. reflexivity.
Qed.

(** C7 fails on the code: a time step of [-1] is accepted and stored, and a
    wall from a point to itself is returned. *)
Lemma invalid_configuration_accepted :
  (exists sim,
      Simulation_constructor openFloor negativeStep = Returns sim /\
      sim.(world).(params).(dt) = -1 /\ sim.(world).(params).(dt) <= 0) /\
  (exists wall,
      createWall {| x := 2; y := 3 |} {| x := 2; y := 3 |} = Returns wall /\
      wall.(start) = wall.(end_)).
Proof.
  split.
  - eexists. split; [reflexivity|]. cbn. split; [reflexivity|lra].
  - eexists. split; [reflexivity|]. reflexivity.
Qed.

(** ** Creating pedestrians *)

Lemma createPedestrian_fields
    (pos dest : Vec2) (m : option number) (speed : option number)
    (vel : option Vec2) (dir : option number) (rt : Runtime) :
  let options := PedestrianOptions.mk pos dest m speed vel dir in
  let drawMass :=
    match m with
    | Some m => (m, rt)
    | None => (60 + (Math_random rt).1 * 40, (Math_random rt).2)
    end in
  let ped := (createPedestrian options rt).1 in
  ped.(mass) = drawMass.1 /\
  ped.(radius) = ped.(mass) / 320 /\
  ped.(position) = vec2.copy pos /\
  ped.(desiredSpeed) =
    match speed with
    | Some s => s
    | None => Rmax 0.5 (randomNormal 1.3 0.2 drawMass.2).1
    end.
Proof.
  cbv zeta. unfold createPedestrian, bind, ret.
  cbn [PedestrianOptions.mass PedestrianOptions.desiredSpeed].
  destruct m as [m|], speed as [s|]; cbn -[Rmax]; done.
Qed.

(** C9, as the code has it: the lower bound of 0.5 is put on the sampled
    default only.  When [desiredSpeed] is omitted the pedestrian gets
    [max(0.5, sample)], which is at least 0.5; a supplied value is used as
    it is. *)
Theorem createPedestrian_speed_clamp
    (pos dest : Vec2) (m : option number) (vel : option Vec2) (dir : option number)
    (rt : Runtime) (s : number) :
  let omitted := PedestrianOptions.mk pos dest m None vel dir in
  let supplied := PedestrianOptions.mk pos dest m (Some s) vel dir in
  0.5 <= (createPedestrian omitted rt).1.(desiredSpeed) /\
  (exists sample, (createPedestrian omitted rt).1.(desiredSpeed) = Rmax 0.5 sample) /\
  (createPedestrian supplied rt).1.(desiredSpeed) = s.
Proof.
  cbv zeta.
  destruct (createPedestrian_fields pos dest m None vel dir rt) as (_ & _ & _ & Hom).
  destruct (createPedestrian_fields pos dest m (Some s) vel dir rt) as (_ & _ & _ & Hsu).
  cbv zeta in Hom, Hsu. rewrite Hom, Hsu. repeat split.
  - apply Rmax_l.
  - eexists. reflexivity.
Qed.

(** C9 fails on the code: the standing pedestrian of the static
    two-pedestrian scenario is created with a desired speed of 0, and 0 is
    what it gets. *)
Lemma explicit_speed_not_clamped :
  (createPedestrian standingOptions steadyRuntime).1.(desiredSpeed) = 0 /\
  ~ 0.5 <= (createPedestrian standingOptions steadyRuntime).1.(desiredSpeed).
Proof.
  assert (H : (createPedestrian standingOptions steadyRuntime).1.(desiredSpeed) = 0)
    by reflexivity.
  rewrite H. split; [reflexivity|lra].
Qed.

(** One turn of the placement loop when no options are given: three
    draws for the candidate, and three more when it is placed. *)
Lemma placementLoop_turn
    (fuel count maxAttempts : nat) (b : Bounds) (destinationFn : Vec2 -> nat -> Vec2)
    (peds : list Pedestrian) (attempts : nat) (rt : Runtime) :
  (length peds < count)%nat -> (attempts < maxAttempts)%nat ->
  let r (n : nat) := rt.(randoms) (n + rt.(drawn))%nat in
  let position' :=
    {| x := b.(xMin) + r 0%nat * (b.(xMax) - b.(xMin));
       y := b.(yMin) + r 1%nat * (b.(yMax) - b.(yMin)) |} in
  let radius' := (60 + r 2%nat * 40) / 320 in
  let overlaps :=
    existsb (fun other =>
      bool_decide (vec2.distance position' other.(position)
                   < radius' + other.(radius) + 0.05)) peds in
  let ped :=
    {| id := rt.(nextId);
       position := vec2.copy position';
       velocity := vec2.zero;
       mass := 60 + r 5%nat * 40;
       radius := (60 + r 5%nat * 40) / 320;
       desiredSpeed :=
         Rmax 0.5 (1.3 + 0.2 * (sqrt (-2 * ln (r 3%nat)) * cos (2 * PI * r 4%nat)));
       destination := vec2.copy (destinationFn position' (length peds));
       direction := 1;
       active := true |} in
  placementLoop (S fuel) count maxAttempts b destinationFn None peds attempts rt =
  if overlaps then
    placementLoop fuel count maxAttempts b destinationFn None peds (S attempts)
      {| nextId := rt.(nextId); randoms := rt.(randoms); drawn := (3 + rt.(drawn))%nat |}
  else
    placementLoop fuel count maxAttempts b destinationFn None (peds ++ [ped]) (S attempts)
      {| nextId := (rt.(nextId) + 1)%Z; randoms := rt.(randoms);
         drawn := (6 + rt.(drawn))%nat |}.
Proof.
  intros Hlen Hatt. cbv zeta. cbn [placementLoop].
  rewrite decide_True by done.
  unfold bind, ret, Math_random. cbn -[existsb Rmax placementLoop].
  destruct (existsb _ peds); reflexivity.
Qed.

(** With its guard false the loop returns what it has. *)
Lemma placementLoop_done
    (fuel count maxAttempts : nat) (b : Bounds) (destinationFn : Vec2 -> nat -> Vec2)
    (options : option AreaOptions.t) (peds : list Pedestrian) (attempts : nat) :
  ~ ((length peds < count)%nat /\ (attempts < maxAttempts)%nat) ->
  placementLoop fuel count maxAttempts b destinationFn options peds attempts =
  ret (peds, attempts).
Proof.
  intros Hguard. destruct fuel as [|fuel]; [reflexivity|].
  cbn [placementLoop]. by rewrite decide_False.
Qed.

Lemma vec2_distance_horizontal (x1 x2 y0 : number) :
  x1 <= x2 ->
  vec2.distance {| x := x2; y := y0 |} {| x := x1; y := y0 |} = x2 - x1.
Proof.
  intros Hle. unfold vec2.distance, vec2.length, vec2.sub. cbn [x y].
  replace ((x2 - x1) * (x2 - x1) + (y0 - y0) * (y0 - y0)) with ((x2 - x1) * (x2 - x1)) by ring.
  apply sqrt_square. lra.
Qed.

(** C10, on the run [packingRuntime]: the first pedestrian is placed at
    (0.2, 0.5) with radius 0.25.  The second candidate, at (0.7, 0.5), is
    checked with the radius 0.1875 of a mass that is then thrown away,
    passes ([0.5 >= 0.1875 + 0.25 + 0.05]), and is created with a fresh
    mass of radius 0.3: the two are 0.5 apart, less than
    [0.25 + 0.3 + 0.05], and less even than the sum of their radii. *)
Theorem createPedestriansInArea_overlap :
  exists p q,
    (createPedestriansInArea 2 unitSquare toExit None packingRuntime).1 = [p; q] /\
    p.(radius) = 0.25 /\ q.(radius) = 0.3 /\
    vec2.distance q.(position) p.(position) = 0.5 /\
    vec2.distance q.(position) p.(position) < p.(radius) + q.(radius) + 0.05 /\
    vec2.distance q.(position) p.(position) < p.(radius) + q.(radius).
Proof.
  unfold createPedestriansInArea, bind, ret. cbv zeta.
  change (2 * 100)%nat with (S (S (S 197))).
  rewrite placementLoop_turn by (cbn; lia).
  cbn [existsb app].
  rewrite placementLoop_turn by (cbn; lia).
  cbn [existsb length app drawn randoms nextId packingRuntime packingDraws Nat.add
       position radius xMin xMax yMin yMax unitSquare x y orb].
  unfold vec2.copy. cbn [x y].
  rewrite vec2_distance_horizontal by lra.
  rewrite bool_decide_eq_false_2 by lra.
  cbn [orb]. rewrite placementLoop_done by (cbn [length]; lia).
  unfold ret. cbn [fst].
  eexists _, _. split; [reflexivity|].
  cbn [position radius x y].
  rewrite vec2_distance_horizontal by lra.
  repeat split; lra.
Qed.


(** The parts of C10 that hold: the loop places at most [count]
    pedestrians in at most [maxAttempts] attempts, and when its fuel covers
    the attempts that are left it stops because its guard is false. *)
Lemma placementLoop_bounds
    (count maxAttempts : nat) (b : Bounds) (destinationFn : Vec2 -> nat -> Vec2)
    (options : option AreaOptions.t) (fuel : nat) :
  forall (peds : list Pedestrian) (attempts : nat) (rt : Runtime),
  (length peds <= count)%nat -> (attempts <= maxAttempts)%nat ->
  let r := (placementLoop fuel count maxAttempts b destinationFn options peds attempts rt).1 in
  (length r.1 <= count)%nat /\ (r.2 <= maxAttempts)%nat /\
  ((maxAttempts - attempts <= fuel)%nat ->
   ~ ((length r.1 < count)%nat /\ (r.2 < maxAttempts)%nat)).
Proof.
  induction fuel as [|fuel IH]; intros peds attempts rt Hlen Hatt; cbv zeta.
  - cbn [placementLoop]. unfold ret. cbn [fst snd]. repeat split; try done. lia.
  - cbn [placementLoop]. case_decide as Hguard.
    + destruct Hguard as [Hl Ha]. unfold bind. cbv beta.
      destruct (Math_random rt) as [rx rt1].
      destruct (Math_random rt1) as [ry rt2].
      match goal with |- context [let '(_, _) := ?e rt2 in _] =>
        destruct (e rt2) as [mass' rt3] end.
      destruct (existsb _ peds).
      * specialize (IH peds (S attempts) rt3 Hlen ltac:(lia)). cbv zeta in IH.
        destruct IH as (H1 & H2 & H3). repeat split; try done.
        intros Hfuel. apply H3. lia.
      * match goal with |- context [let '(_, _) := ?e rt3 in _] =>
          destruct (e rt3) as [speed' rt4] end.
        match goal with |- context [let '(_, _) := ?e rt4 in _] =>
          destruct (e rt4) as [ped rt5] end.
        specialize (IH (peds ++ [ped]) (S attempts) rt5). cbv zeta in IH.
        rewrite length_app in IH. cbn [length] in IH.
        destruct IH as (H1 & H2 & H3); [lia|lia|]. repeat split; try done.
        intros Hfuel. apply H3. lia.
    + unfold ret. cbn [fst snd]. repeat split; try done.
Qed.

Lemma createPedestriansInArea_count
    (count : nat) (b : Bounds) (destinationFn : Vec2 -> nat -> Vec2)
    (options : option AreaOptions.t) (rt : Runtime) :
  (length (createPedestriansInArea count b destinationFn options rt).1 <= count)%nat.
Proof.
  unfold createPedestriansInArea, bind, ret. cbv zeta.
  generalize (count * 100)%nat. intros maxAttempts.
  pose proof (placementLoop_bounds count maxAttempts b destinationFn options
                maxAttempts [] 0 rt) as H.
  cbv zeta in H. destruct H as (H & _); [cbn [length]; lia|lia|].
  destruct (placementLoop _ _ _ _ _ _ _ _ _) as [[peds attempts] rt']. done.
Qed.

(** ** The step: destinations and torus images *)

Lemma visionOthers_retarget g pedestrian others params bounds periodic v minDist :
  visionOthers (retarget g pedestrian) (retarget g <$> others) params bounds periodic v minDist =
  visionOthers pedestrian others params bounds periodic v minDist.
Proof.
  unfold visionOthers. revert minDist.
  induction others as [|other others IH]; intros minDist; [done|].
  cbn [fmap list_fmap foldl]. apply IH.
Qed.

Lemma computeVision_retarget g pedestrian others walls params bounds periodic h :
  computeVision (retarget g pedestrian) (retarget g <$> others) walls params bounds
                periodic (Some h) =
  computeVision pedestrian others walls params bounds periodic (Some h).
Proof.
  unfold computeVision. cbv zeta.
  match goal with
  | |- {| angles := (?f1 <$> ?l).*1; distances := _ |} =
       {| angles := (?f2 <$> _).*1; distances := _ |} =>
      assert (Hsamples : f1 <$> l = f2 <$> l)
  end.
  { apply list_fmap_ext. intros _ i _. cbv beta.
    rewrite visionOthers_retarget. reflexivity. }
  by rewrite Hsamples.
Qed.

Lemma contactPair_retarget g pedestrians params bounds periodic i pi forces j :
  contactPair (retarget g <$> pedestrians) params bounds periodic i (retarget g pi) forces j =
  contactPair pedestrians params bounds periodic i pi forces j.
Proof.
  unfold contactPair. rewrite list_lookup_fmap.
  destruct (pedestrians !! j) as [pj|]; reflexivity.
Qed.

Lemma foldl_ext_in {A B : Type} (f f' : A -> B -> A) (l : list B) (a : A) :
  (forall a b, f a b = f' a b) -> foldl f a l = foldl f' a l.
Proof.
  intros Hext. revert a. induction l as [|b l IH]; intros a; [done|].
  cbn [foldl]. by rewrite Hext, IH.
Qed.

Lemma computeContactForces_retarget g pedestrians walls params bounds periodic :
  computeContactForces (retarget g <$> pedestrians) walls params bounds periodic =
  computeContactForces pedestrians walls params bounds periodic.
Proof.
  unfold computeContactForces. cbv zeta. rewrite length_fmap.
  rewrite <- list_fmap_compose.
  apply foldl_ext_in. intros forces i. unfold contactAgent.
  rewrite list_lookup_fmap, length_fmap.
  destruct (pedestrians !! i) as [pi|]; [|reflexivity]. cbn [fmap option_fmap option_map].
  change (active (retarget g pi)) with (active pi).
  destruct (active pi); cbn [negb]; [|reflexivity]. cbv zeta.
  f_equal. apply foldl_ext_in. intros forces' j. apply contactPair_retarget.
Qed.

(** Under a periodic boundary one agent's update commutes with any change
    of destinations. *)
Lemma advance_retarget g walls params bounds others force ped :
  advance walls params bounds true (retarget g <$> others) force (retarget g ped) =
  retarget g <$> advance walls params bounds true others force ped.
Proof.
  unfold advance. cbv zeta.
  change (stepHeading true (retarget g ped)) with (stepHeading true ped).
  rewrite computeVision_retarget.
  change (desiredSpeed (retarget g ped)) with (desiredSpeed ped).
  destruct (computeDesiredVelocity _ _ _ _) as [[al sp]|]; reflexivity.
Qed.

Lemma stepAgents_retarget g forces walls params bounds ixs :
  forall pedestrians : list Pedestrian,
  stepAgents forces walls params bounds true (retarget g <$> pedestrians) ixs =
  fmap (M:=list) (retarget g) <$> stepAgents forces walls params bounds true pedestrians ixs.
Proof.
  induction ixs as [|i ixs IH]; intros pedestrians; [done|].
  cbn [stepAgents]. unfold stepAgent. rewrite list_lookup_fmap.
  destruct (pedestrians !! i) as [ped|]; [|reflexivity].
  cbn [fmap option_fmap option_map mbind option_bind].
  change (active (retarget g ped)) with (active ped).
  destruct (active ped); cbn [negb]; [|apply IH].
  destruct (forces !! i) as [force|]; [|reflexivity].
  cbn [mbind option_bind]. rewrite advance_retarget.
  destruct (advance walls params bounds true pedestrians force ped) as [ped'|];
    [|reflexivity].
  cbn [fmap option_fmap option_map mbind option_bind].
  rewrite <- list_fmap_insert. apply IH.
Qed.

Lemma visionOthers_nearestImage pedestrian others params b v minDist :
  visionOthers pedestrian others params (Some b) true v minDist =
  visionOthers pedestrian (nearestImage b pedestrian <$> others) params (Some b) false v minDist.
Proof.
  unfold visionOthers. revert minDist.
  induction others as [|other others IH]; intros minDist; [done|].
  cbn [fmap list_fmap foldl]. apply IH.
Qed.

(** C2: under a periodic boundary the heading of an agent is 0 when its
    [direction] is positive and pi otherwise; that heading is what
    [computeVision] receives and what the desired velocity is built on; the
    step does not read the destinations at all (changing them changes
    nothing else in the result); and inside [computeVision] the periodic
    flag only moves the other agents to their nearest torus images, the
    heading being passed through as given. *)
Theorem periodic_heading_from_direction
    (environment : Environment) (params : SimulationParams)
    (pedestrians : list Pedestrian) (g : Z -> Vec2)
    (ped : Pedestrian) (force : Vec2) (h : number) :
  environment.(boundaryType) = periodic ->
  let walls := environment.(walls) in
  let bounds := environment.(bounds) in
  let heading := if decide (ped.(direction) > 0) then 0 else PI in
  stepHeading true ped = heading /\
  advance walls params bounds true pedestrians force ped =
    (let vision :=
       computeVision ped pedestrians walls params (Some bounds) true (Some heading) in
     '(alphaDes, speedDes) ←
       computeDesiredVelocity ped.(desiredSpeed) vision.(angles) vision.(distances) params;
     let vDes := vec2.fromAngle (heading + alphaDes) speedDes in
     let acceleration :=
       vec2.add (vec2.scale (vec2.sub vDes ped.(velocity)) (1 / params.(tau)))
                (vec2.scale force (1 / ped.(mass))) in
     let v := vec2.add ped.(velocity) (vec2.scale acceleration params.(dt)) in
     let p := vec2.add ped.(position) (vec2.scale v params.(dt)) in
     Some (moved ped v (wrapPosition p bounds))) /\
  stepPedestrians environment params (retarget g <$> pedestrians) =
    fmap (M:=list) (retarget g) <$> stepPedestrians environment params pedestrians /\
  computeVision ped pedestrians walls params (Some bounds) true (Some h) =
  computeVision ped (nearestImage bounds ped <$> pedestrians) walls params (Some bounds)
                false (Some h).
Proof.
  intros Hperiodic. cbv zeta. repeat split.
  - destruct environment as [walls0 kind bounds0]. cbn in Hperiodic. subst kind.
    unfold stepPedestrians. rewrite bool_decide_eq_true_2 by done.
    rewrite computeContactForces_retarget, length_fmap.
    apply stepAgents_retarget.
  - unfold computeVision. cbv zeta.
    match goal with
    | |- {| angles := (?f1 <$> ?l).*1; distances := _ |} =
         {| angles := (?f2 <$> _).*1; distances := _ |} =>
        assert (Hsamples : f1 <$> l = f2 <$> l)
    end.
    { apply list_fmap_ext. intros _ i _. cbv beta.
      rewrite visionOthers_nearestImage. reflexivity. }
    by rewrite Hsamples.
Qed.

Lemma periodic_heading_from_direction_witness :
  let g := fun _ : Z => {| x := 3; y := 4 |} in
  let heading := if decide (walkerB.(direction) > 0) then 0 else PI in
  stepHeading true walkerB = heading /\
  advance [] coarseParams hall true [walkerA; walkerB] vec2.zero walkerB =
    (let vision :=
       computeVision walkerB [walkerA; walkerB] [] coarseParams (Some hall) true
                     (Some heading) in
     '(alphaDes, speedDes) ←
       computeDesiredVelocity walkerB.(desiredSpeed) vision.(angles) vision.(distances)
                              coarseParams;
     let vDes := vec2.fromAngle (heading + alphaDes) speedDes in
     let acceleration :=
       vec2.add (vec2.scale (vec2.sub vDes walkerB.(velocity)) (1 / coarseParams.(tau)))
                (vec2.scale vec2.zero (1 / walkerB.(mass))) in
     let v := vec2.add walkerB.(velocity) (vec2.scale acceleration coarseParams.(dt)) in
     let p := vec2.add walkerB.(position) (vec2.scale v coarseParams.(dt)) in
     Some (moved walkerB v (wrapPosition p hall))) /\
  stepPedestrians torusFloor coarseParams (retarget g <$> [walkerA; walkerB]) =
    fmap (M:=list) (retarget g) <$> stepPedestrians torusFloor coarseParams [walkerA; walkerB] /\
  computeVision walkerB [walkerA; walkerB] [] coarseParams (Some hall) true (Some 0) =
  computeVision walkerB (nearestImage hall walkerB <$> [walkerA; walkerB]) [] coarseParams
                (Some hall) false (Some 0).
Proof.
  apply (periodic_heading_from_direction torusFloor coarseParams [walkerA; walkerB]
           (fun _ => {| x := 3; y := 4 |}) walkerB vec2.zero 0).
  reflexivity.
Defined.

(** ** The step: order of reads and writes *)

Lemma visionNumSteps_pos (params : SimulationParams) :
  params.(phi) > 0 -> params.(angularResolution) > 0 ->
  (0 < visionNumSteps params)%Z.
Proof.
  intros Hphi Hres. unfold visionNumSteps, Math_ceil.
  pose proof (Zceil_bound (2 * phi params / angularResolution params)) as [_ Hle].
  assert (Hq : 0 < 2 * phi params / angularResolution params).
  { apply Rdiv_lt_0_compat; lra. }
  assert (0 < IZR (Zceil (2 * phi params / angularResolution params))) as Hc by lra.
  apply lt_IZR in Hc. lia.
Qed.

Lemma computeDesiredVelocity_total desiredSpeed0 angles0 distances0 params :
  angles0 <> [] -> length angles0 = length distances0 ->
  is_Some (computeDesiredVelocity desiredSpeed0 angles0 distances0 params).
Proof.
  intros Hne Hlen.
  destruct (selectDirection_scan_spec params.(dMax) angles0 distances0 0 None 0 Hlen)
    as [[_ Hnil]|(j & al & f & Hr & Ha & Hf & _)]; [done|].
  unfold computeDesiredVelocity, selectDirection. rewrite Hr.
  cbn [alphaDes distanceToObstacle Nat.add].
  rewrite Ha, Hf. cbn. eauto.
Qed.

Lemma advance_total walls params bounds periodic others force ped :
  (0 < visionNumSteps params)%Z ->
  is_Some (advance walls params bounds periodic others force ped).
Proof.
  intros Hn. unfold advance. cbv zeta.
  match goal with |- context [computeVision ?p ?o ?w ?pa ?b ?pe ?h] =>
    pose proof (computeVision_lengths p o w pa b pe h) as [Hla Hld];
    set (vision := computeVision p o w pa b pe h) in * end.
  destruct (computeDesiredVelocity_total (desiredSpeed ped) (angles vision)
              (distances vision) params) as [[al sp] Hdv].
  - intros Hnil. rewrite Hnil in Hla. cbn in Hla. lia.
  - lia.
  - rewrite Hdv. cbn. eauto.
Qed.

(** One turn of the agent loop writes at most the entry [i]. *)
Lemma stepAgent_spec forces walls params bounds periodic pedestrians i pedestrians' :
  stepAgent forces walls params bounds periodic pedestrians i = Some pedestrians' ->
  exists ped,
    pedestrians !! i = Some ped /\
    if ped.(active) then
      exists force ped',
        forces !! i = Some force /\
        advance walls params bounds periodic pedestrians force ped = Some ped' /\
        pedestrians' = <[i := ped']> pedestrians
    else pedestrians' = pedestrians.
Proof.
  unfold stepAgent. intros Hstep.
  destruct (pedestrians !! i) as [ped|]; cbn [mbind option_bind negb] in Hstep; [|done].
  exists ped. split; [done|].
  destruct (active ped); cbn [mbind option_bind negb] in Hstep; [|by simplify_eq].
  destruct (forces !! i) as [force|]; cbn [mbind option_bind negb] in Hstep; [|done].
  destruct (advance walls params bounds periodic pedestrians force ped) as [ped'|]
    eqn:Hadv; cbn [mbind option_bind negb] in Hstep; [|done].
  simplify_eq. by exists force, ped'.
Qed.

Lemma stepAgent_total forces walls params bounds periodic pedestrians i :
  (0 < visionNumSteps params)%Z ->
  (i < length pedestrians)%nat -> length forces = length pedestrians ->
  is_Some (stepAgent forces walls params bounds periodic pedestrians i).
Proof.
  intros Hn Hi Hlen. unfold stepAgent.
  destruct (lookup_lt_is_Some_2 pedestrians i Hi) as [ped ->]. cbn [mbind option_bind].
  destruct (active ped); cbn [negb]; [|eauto].
  destruct (lookup_lt_is_Some_2 forces i ltac:(lia)) as [force ->]. cbn [mbind option_bind].
  destruct (advance_total walls params bounds periodic pedestrians force ped Hn)
    as [ped' ->].
  cbn [mbind option_bind]. eauto.
Qed.

Section AgentLoop.

Variables (forces : list Vec2) (walls : list Wall) (params : SimulationParams).
Variables (bounds : Bounds) (periodic : bool).

Lemma stepAgents_in_place (k : nat) : forall (m : nat) (before after : list Pedestrian),
  stepAgents forces walls params bounds periodic before (seq m k) = Some after ->
  (m + k = length before)%nat ->
  length after = length before /\
  (forall j, (j < m)%nat -> after !! j = before !! j) /\
  (forall i ped, (m <= i)%nat -> before !! i = Some ped ->
     if ped.(active) then
       exists force ped',
         forces !! i = Some force /\
         advance walls params bounds periodic (seenBy before after i) force ped = Some ped' /\
         after !! i = Some ped'
     else after !! i = Some ped).
Proof.
  induction k as [|k IH]; intros m before after Hrun Hlen.
  - cbn [seq stepAgents] in Hrun. simplify_eq. repeat split; try done.
    intros i ped Hi Hped. apply lookup_lt_Some in Hped. lia.
  - cbn [seq stepAgents] in Hrun.
    destruct (stepAgent forces walls params bounds periodic before m) as [mid|] eqn:Hturn;
      cbn [mbind option_bind] in Hrun; [|done].
    apply stepAgent_spec in Hturn as (pedm & Hpedm & Hturn).
    assert (Hmid : length mid = length before /\
                   (forall j, j <> m -> mid !! j = before !! j)).
    { destruct (active pedm).
      - destruct Hturn as (force & ped' & _ & _ & ->).
        split; [by rewrite length_insert|].
        intros j Hj. by rewrite list_lookup_insert_ne.
      - by subst mid. }
    destruct Hmid as [Hlenmid Hsame].
    destruct (IH (S m) mid after Hrun ltac:(lia)) as (Hlenafter & Hlow & Hhigh).
    split; [lia|]. split.
    + intros j Hj. rewrite Hlow by lia. apply Hsame. lia.
    + intros i ped Hi Hped.
      destruct (decide (i = m)) as [->|Hne].
      * assert (ped = pedm) as -> by congruence.
        assert (Hseen : seenBy before after m = before).
        { unfold seenBy. transitivity (take m before ++ drop m before);
            [|apply take_drop]. f_equal.
          apply list_eq. intros j. rewrite !lookup_take.
          destruct (decide (j < m)%nat) as [Hj|Hj]; [|done].
          rewrite Hlow by lia. apply Hsame. lia. }
        rewrite Hseen.
        destruct (active pedm).
        -- destruct Hturn as (force & ped' & Hforce & Hadv & ->).
           exists force, ped'. repeat split; try done.
           rewrite Hlow by lia. apply list_lookup_insert_eq.
           by apply lookup_lt_Some in Hpedm.
        -- subst mid. by rewrite Hlow by lia.
      * assert (Hseen : seenBy mid after i = seenBy before after i).
        { unfold seenBy. f_equal. apply list_eq. intros j. rewrite !lookup_drop.
          apply Hsame. lia. }
        specialize (Hhigh i ped ltac:(lia)). rewrite Hsame in Hhigh by done.
        specialize (Hhigh Hped). by rewrite Hseen in Hhigh.
Qed.

Lemma stepAgents_total (k : nat) : forall (m : nat) (before : list Pedestrian),
  (0 < visionNumSteps params)%Z ->
  (m + k = length before)%nat -> length forces = length before ->
  is_Some (stepAgents forces walls params bounds periodic before (seq m k)).
Proof.
  induction k as [|k IH]; intros m before Hn Hlen Hforces; [cbn [seq stepAgents]; eauto|].
  cbn [seq stepAgents].
  destruct (stepAgent_total forces walls params bounds periodic before m Hn)
    as [mid Hturn]; [lia|done|].
  rewrite Hturn. cbn [mbind option_bind].
  apply IH; [done| |].
  - apply stepAgent_spec in Hturn as (pedm & _ & Hturn). destruct (active pedm).
    + destruct Hturn as (force & ped' & _ & _ & ->). rewrite length_insert. lia.
    + subst. lia.
  - apply stepAgent_spec in Hturn as (pedm & _ & Hturn). destruct (active pedm).
    + destruct Hturn as (force & ped' & _ & _ & ->). by rewrite length_insert.
    + by subst.
Qed.

End AgentLoop.

(** C1, as the code has it: the contact forces are computed once, from the
    state before the step, and then the agents are advanced one after the
    other in list order, each written back before the next is read.  The
    force on agent [i] is entry [i] of that one array; its vision reads
    the agents before it in the list as already advanced and itself and
    the agents after it as they were.  Inactive agents are left alone,
    time advances by [dt], and the hooks run on the result. *)
Theorem step_forces_first_then_in_place (sim : Simulation) :
  sim.(world).(params).(phi) > 0 ->
  sim.(world).(params).(angularResolution) > 0 ->
  let before := sim.(world).(pedestrians) in
  let environment := sim.(world).(environment) in
  let params := sim.(world).(params) in
  let walls := environment.(walls) in
  let bounds := environment.(bounds) in
  let periodic := bool_decide (environment.(boundaryType) = periodic) in
  let forces := computeContactForces before walls params (Some bounds) periodic in
  exists after,
    step sim =
      Some {| world :=
                foldl (fun w callback => callback w)
                      (mkWorld after environment params
                               (sim.(world).(time) + params.(dt)))
                      sim.(onStepCallbacks);
              onStepCallbacks := sim.(onStepCallbacks) |} /\
    length after = length before /\
    length forces = length before /\
    forall i ped, before !! i = Some ped ->
      if ped.(active) then
        exists force ped',
          forces !! i = Some force /\
          advance walls params bounds periodic (seenBy before after i) force ped
            = Some ped' /\
          after !! i = Some ped'
      else after !! i = Some ped.
Proof.
  destruct sim as [[before env prm tm] callbacks].
  cbn [world pedestrians environment params time onStepCallbacks].
  intros Hphi Hres. cbv zeta.
  pose proof (visionNumSteps_pos prm Hphi Hres) as Hn.
  destruct env as [walls0 kind bounds0].
  cbn [walls bounds boundaryType].
  set (wraps := bool_decide (kind = periodic)).
  set (forces := computeContactForces before walls0 prm (Some bounds0) wraps).
  assert (Hforces : length forces = length before)
    by apply computeContactForces_length.
  destruct (stepAgents_total forces walls0 prm bounds0 wraps (length before) 0
              before Hn ltac:(lia) Hforces) as [after Hrun].
  exists after.
  destruct (stepAgents_in_place forces walls0 prm bounds0 wraps (length before) 0
              before after Hrun ltac:(lia)) as (Hlen & _ & Hagents).
  repeat split; try done.
  - unfold step. cbn [world onStepCallbacks]. unfold stepPedestrians.
    fold wraps. fold forces. rewrite Hrun. reflexivity.
  - intros i ped Hped. apply Hagents; [lia|done].
Qed.

(** ** One step of the two walkers, in both list orders *)

Lemma cos_at_0 (e : number) : e = 0 -> cos e = 1.
Proof. intros ->. apply cos_0. Qed.
Lemma sin_at_0 (e : number) : e = 0 -> sin e = 0.
Proof. intros ->. apply sin_0. Qed.
Lemma cos_at_PI2 (e : number) : e = PI / 2 -> cos e = 0.
Proof. intros ->. apply cos_PI2. Qed.
Lemma sin_at_PI2 (e : number) : e = PI / 2 -> sin e = 1.
Proof. intros ->. apply sin_PI2. Qed.
Lemma cos_at_neg_PI2 (e : number) : e = - (PI / 2) -> cos e = 0.
Proof. intros ->. rewrite cos_neg. apply cos_PI2. Qed.
Lemma sin_at_neg_PI2 (e : number) : e = - (PI / 2) -> sin e = -1.
Proof. intros ->. rewrite sin_neg, sin_PI2. reflexivity. Qed.
Lemma cos_at_PI (e : number) : e = PI -> cos e = -1.
Proof. intros ->. apply cos_PI. Qed.
Lemma sin_at_PI (e : number) : e = PI -> sin e = 0.
Proof. intros ->. apply sin_PI. Qed.
Lemma cos_at_3PI2 (e : number) : e = 3 * (PI / 2) -> cos e = 0.
Proof. intros ->. apply cos_3PI2. Qed.
Lemma sin_at_3PI2 (e : number) : e = 3 * (PI / 2) -> sin e = -1.
Proof. intros ->. apply sin_3PI2. Qed.

(** Rewrites the sines and cosines of the goal at multiples of pi/2. *)
Ltac trig_eval :=
  repeat match goal with
  | |- context [cos ?e] =>
      first [ rewrite (cos_at_0 e) by lra
            | rewrite (cos_at_PI2 e) by lra
            | rewrite (cos_at_neg_PI2 e) by lra
            | rewrite (cos_at_PI e) by lra
            | rewrite (cos_at_3PI2 e) by lra ]
  | |- context [sin ?e] =>
      first [ rewrite (sin_at_0 e) by lra
            | rewrite (sin_at_PI2 e) by lra
            | rewrite (sin_at_neg_PI2 e) by lra
            | rewrite (sin_at_PI e) by lra
            | rewrite (sin_at_3PI2 e) by lra ]
  end.

Lemma visionNumSteps_coarse : visionNumSteps coarseParams = 3%Z.
Proof.
  unfold visionNumSteps, Math_ceil. cbn [phi angularResolution coarseParams].
  rewrite (Zceil_eq 2); [reflexivity|].
  replace (2 * (PI / 2) / (PI / 2)) with 2 by (field; apply PI_neq0). lra.
Qed.

(** With the coarse parameters and no walls there are three samples:
    right, ahead and left of the heading. *)
Lemma computeVision_coarse (ped : Pedestrian) (others : list Pedestrian) (b : Bounds)
    (h : number) :
  let look (direction0 : number) :=
    visionOthers ped others coarseParams (Some b) false
                 (vec2.fromAngle direction0 ped.(desiredSpeed)) 10 in
  computeVision ped others [] coarseParams (Some b) false (Some h) =
  {| angles := [- (PI / 2) + 0 * (PI / 2); - (PI / 2) + 1 * (PI / 2);
                - (PI / 2) + 2 * (PI / 2)];
     distances := [look (h + (- (PI / 2) + 0 * (PI / 2)));
                   look (h + (- (PI / 2) + 1 * (PI / 2)));
                   look (h + (- (PI / 2) + 2 * (PI / 2)))] |}.
Proof.
  unfold computeVision. rewrite visionNumSteps_coarse. reflexivity.
Qed.

(** The population is the observer and one other active agent. *)
Lemma visionOthers_self_first (ped other : Pedestrian) (params : SimulationParams)
    (b : Bounds) (v : Vec2) (minDist : number) :
  other.(id) <> ped.(id) -> other.(active) = true ->
  visionOthers ped [ped; other] params (Some b) false v minDist =
  Rmin minDist (collisionDistancePedestrian ped other v params.(dMax)).
Proof.
  intros Hid Hactive. unfold visionOthers. cbn [foldl].
  destruct (decide (id ped = id ped)) as [_|?]; [|done].
  destruct (decide (id other = id ped)) as [?|_]; [done|].
  rewrite Hactive. cbn [negb]. destruct other; reflexivity.
Qed.

Lemma visionOthers_self_second (ped other : Pedestrian) (params : SimulationParams)
    (b : Bounds) (v : Vec2) (minDist : number) :
  other.(id) <> ped.(id) -> other.(active) = true ->
  visionOthers ped [other; ped] params (Some b) false v minDist =
  Rmin minDist (collisionDistancePedestrian ped other v params.(dMax)).
Proof.
  intros Hid Hactive. unfold visionOthers. cbn [foldl].
  destruct (decide (id ped = id ped)) as [_|?]; [|done].
  destruct (decide (id other = id ped)) as [?|_]; [done|].
  rewrite Hactive. cbn [negb]. destruct other; reflexivity.
Qed.

(** The candidate never meets the other agent: no real root. *)
Lemma collisionDistancePedestrian_miss (pi pj : Pedestrian) (v : Vec2) (dMax0 : number) :
  let dx := pj.(position).(x) - pi.(position).(x) in
  let dy := pj.(position).(y) - pi.(position).(y) in
  let dvx := pj.(velocity).(x) - v.(x) in
  let dvy := pj.(velocity).(y) - v.(y) in
  let combinedRadius := pi.(radius) + pj.(radius) in
  let A := dvx * dvx + dvy * dvy in
  let B := 2 * (dvx * dx + dvy * dy) in
  let C := dx * dx + dy * dy - combinedRadius * combinedRadius in
  combinedRadius * combinedRadius < dx * dx + dy * dy ->
  1e-10 <= A ->
  B * B - 4 * A * C < 0 ->
  collisionDistancePedestrian pi pj v dMax0 = dMax0.
Proof.
  cbv zeta. intros Hapart HA Hdisc. unfold collisionDistancePedestrian. cbv zeta.
  rewrite decide_False by lra. rewrite decide_False by lra.
  rewrite decide_True by lra. reflexivity.
Qed.

(** The candidate meets the other agent at the smaller root [t], [s]
    being the square root of the discriminant and [speed] the candidate
    speed. *)
Lemma collisionDistancePedestrian_hit (pi pj : Pedestrian) (v : Vec2) (dMax0 : number)
    (s t speed : number) :
  let dx := pj.(position).(x) - pi.(position).(x) in
  let dy := pj.(position).(y) - pi.(position).(y) in
  let dvx := pj.(velocity).(x) - v.(x) in
  let dvy := pj.(velocity).(y) - v.(y) in
  let combinedRadius := pi.(radius) + pj.(radius) in
  let A := dvx * dvx + dvy * dvy in
  let B := 2 * (dvx * dx + dvy * dy) in
  let C := dx * dx + dy * dy - combinedRadius * combinedRadius in
  combinedRadius * combinedRadius < dx * dx + dy * dy ->
  1e-10 <= A ->
  0 <= s -> B * B - 4 * A * C = s * s ->
  - B - s = t * (2 * A) -> t > 1e-6 ->
  0 <= speed -> v.(x) * v.(x) + v.(y) * v.(y) = speed * speed ->
  collisionDistancePedestrian pi pj v dMax0 = Rmin (speed * t) dMax0.
Proof.
  cbv zeta. intros Hapart HA Hs Hdisc Hroot Ht Hspeed Hv.
  unfold collisionDistancePedestrian. cbv zeta.
  rewrite decide_False by lra. rewrite decide_False by lra.
  rewrite Hdisc. rewrite decide_False by nra.
  rewrite (sqrt_square s) by done.
  rewrite Hroot.
  match goal with |- context [t * (2 * ?A0) / (2 * ?A0)] =>
    replace (t * (2 * A0) / (2 * A0)) with t by (field; lra) end.
  rewrite decide_True by done.
  unfold vec2.length. rewrite Hv, (sqrt_square speed) by done. reflexivity.
Qed.

(** Three samples, the outer two clear to the horizon and at right
    angles to the heading, the middle one straight ahead: ahead wins. *)
Lemma computeDesiredVelocity_ahead (speed f : number) :
  0 <= f <= 10 ->
  computeDesiredVelocity speed
    [- (PI / 2) + 0 * (PI / 2); - (PI / 2) + 1 * (PI / 2); - (PI / 2) + 2 * (PI / 2)]
    [10; f; 10] coarseParams =
  Some (- (PI / 2) + 1 * (PI / 2), Rmin speed (f / 0.5)).
Proof.
  intros Hf. unfold computeDesiredVelocity, selectDirection.
  cbn [selectDirection_scan dMax coarseParams]. unfold directionCost. cbv zeta.
  trig_eval.
  rewrite bool_decide_eq_true_2 by nra.
  rewrite bool_decide_eq_false_2 by nra.
  reflexivity.
Qed.

Ltac rmin_eval :=
  repeat match goal with
  | |- context [Rmin ?u ?w] =>
      first [ rewrite (Rmin_left u w) by lra | rewrite (Rmin_right u w) by lra ]
  end.

Lemma vec2_length_eq (v : Vec2) (s : number) :
  0 <= s -> v.(x) * v.(x) + v.(y) * v.(y) = s * s -> vec2.length v = s.
Proof. intros Hs Hv. unfold vec2.length. rewrite Hv. by apply sqrt_square. Qed.

(** One agent's update with the coarse parameters, no walls and no wrap,
    when only the sample straight ahead sees an obstacle, at distance [f]. *)
Lemma advance_coarse_ahead (ped : Pedestrian) (others : list Pedestrian) (b : Bounds)
    (force : Vec2) (h f : number) :
  let look (direction0 : number) :=
    visionOthers ped others coarseParams (Some b) false
                 (vec2.fromAngle direction0 ped.(desiredSpeed)) 10 in
  stepHeading false ped = h ->
  look (h + (- (PI / 2) + 0 * (PI / 2))) = 10 ->
  look (h + (- (PI / 2) + 1 * (PI / 2))) = f ->
  look (h + (- (PI / 2) + 2 * (PI / 2))) = 10 ->
  0 <= f <= 10 ->
  advance [] coarseParams b false others force ped =
  let speedDes := Rmin ped.(desiredSpeed) (f / 0.5) in
  let vDes := {| x := cos h * speedDes; y := sin h * speedDes |} in
  let acceleration :=
    vec2.add (vec2.scale (vec2.sub vDes ped.(velocity)) (1 / 0.5))
             (vec2.scale force (1 / ped.(mass))) in
  let v := vec2.add ped.(velocity) (vec2.scale acceleration 0.02) in
  Some (moved ped v (vec2.add ped.(position) (vec2.scale v 0.02))).
Proof.
  cbv zeta. intros Hh H0 H1 H2 Hf. unfold advance. cbv zeta.
  rewrite Hh, computeVision_coarse. cbv zeta. cbn [angles distances].
  rewrite H0, H1, H2, computeDesiredVelocity_ahead by done.
  cbn [mbind option_bind tau dt coarseParams]. unfold vec2.fromAngle at 1.
  replace (h + (- (PI / 2) + 1 * (PI / 2))) with h by lra.
  reflexivity.
Qed.

Lemma stepHeading_walkerA : stepHeading false walkerA = 0.
Proof.
  unfold stepHeading. cbv zeta.
  rewrite (vec2_length_eq _ 10); [|lra|cbn; lra].
  rewrite decide_True by lra.
  unfold vec2.angle, Math_atan2. cbn [vec2.sub destination position walkerA x y].
  rewrite decide_True by lra.
  replace ((0 - 0) / (10 - 0)) with 0 by (unfold Rdiv; ring). apply atan_0.
Qed.

Lemma stepHeading_walkerB : stepHeading false walkerB = PI.
Proof.
  unfold stepHeading. cbv zeta.
  rewrite (vec2_length_eq _ 11); [|lra|cbn; lra].
  rewrite decide_True by lra.
  unfold vec2.angle, Math_atan2. cbn [vec2.sub destination position walkerB x y].
  rewrite decide_False by lra. rewrite decide_True by lra. rewrite decide_True by lra.
  replace ((0 - 0) / (-10 - 1)) with 0 by (unfold Rdiv; ring). rewrite atan_0. lra.
Qed.

(** Two active agents whose bodies do not touch exert no force. *)
Lemma computeContactForces_apart (p q : Pedestrian) (params : SimulationParams)
    (b : Bounds) (s : number) :
  p.(active) = true -> q.(active) = true ->
  0 <= s ->
  (p.(position).(x) - q.(position).(x)) * (p.(position).(x) - q.(position).(x))
  + (p.(position).(y) - q.(position).(y)) * (p.(position).(y) - q.(position).(y))
  = s * s ->
  p.(radius) + q.(radius) <= s ->
  computeContactForces [p; q] [] params (Some b) false = [vec2.zero; vec2.zero].
Proof.
  intros Hp Hq Hs Hdist Hsum.
  unfold computeContactForces, contactAgent.
  cbn [length seq foldl lookup list_lookup fmap list_fmap Nat.sub].
  rewrite Hp, Hq. cbn [negb foldl]. unfold contactPair.
  cbn [lookup list_lookup]. rewrite Hq. cbn [negb]. cbv zeta.
  rewrite (vec2_length_eq _ s); [|done|cbn [vec2.sub x y]; lra].
  rewrite decide_False by lra. reflexivity.
Qed.

Ltac reduce_fields :=
  cbn [position velocity radius desiredSpeed mass active id destination direction
       x y moved walkerA walkerB walkerA1 walkerB0 walkerB1 walkerA0 dMax coarseParams];
  unfold vec2.zero; cbn [x y].

(** A sample that misses the other walker. *)
Ltac look_miss self_lemma :=
  rewrite self_lemma by done;
  unfold vec2.fromAngle; trig_eval;
  rewrite collisionDistancePedestrian_miss; [|reduce_fields; lra..];
  reduce_fields; rmin_eval; reflexivity.

(** A sample that meets the other walker at time [t]. *)
Ltac look_hit self_lemma s t :=
  rewrite self_lemma by done;
  unfold vec2.fromAngle; trig_eval;
  rewrite (collisionDistancePedestrian_hit _ _ _ _ s t 1); [|reduce_fields; lra..];
  reduce_fields; rmin_eval; lra.

(** [walkerA] looks at [walkerB], both at their starts. *)
Lemma walkerA_looks_first :
  let look (direction0 : number) :=
    visionOthers walkerA [walkerA; walkerB] coarseParams (Some hall) false
                 (vec2.fromAngle direction0 walkerA.(desiredSpeed)) 10 in
  look (0 + (- (PI / 2) + 0 * (PI / 2))) = 10 /\
  look (0 + (- (PI / 2) + 1 * (PI / 2))) = 0.5 /\
  look (0 + (- (PI / 2) + 2 * (PI / 2))) = 10.
Proof.
  cbv zeta. repeat split.
  - look_miss visionOthers_self_first.
  - look_hit visionOthers_self_first 1 0.5.
  - look_miss visionOthers_self_first.
Qed.

(** [walkerB] looks at [walkerA], both at their starts. *)
Lemma walkerB_looks_first :
  let look (direction0 : number) :=
    visionOthers walkerB [walkerB; walkerA] coarseParams (Some hall) false
                 (vec2.fromAngle direction0 walkerB.(desiredSpeed)) 10 in
  look (PI + (- (PI / 2) + 0 * (PI / 2))) = 10 /\
  look (PI + (- (PI / 2) + 1 * (PI / 2))) = 0.5 /\
  look (PI + (- (PI / 2) + 2 * (PI / 2))) = 10.
Proof.
  cbv zeta. repeat split.
  - look_miss visionOthers_self_first.
  - look_hit visionOthers_self_first 1 0.5.
  - look_miss visionOthers_self_first.
Qed.

(** [walkerB] looks at [walkerA1], which has already moved towards it. *)
Lemma walkerB_looks_second :
  let look (direction0 : number) :=
    visionOthers walkerB [walkerA1; walkerB] coarseParams (Some hall) false
                 (vec2.fromAngle direction0 walkerB.(desiredSpeed)) 10 in
  look (PI + (- (PI / 2) + 0 * (PI / 2))) = 10 /\
  look (PI + (- (PI / 2) + 1 * (PI / 2))) = 0.48 /\
  look (PI + (- (PI / 2) + 2 * (PI / 2))) = 10.
Proof.
  cbv zeta. repeat split.
  - look_miss visionOthers_self_second.
  - look_hit visionOthers_self_second 1.04 0.48.
  - look_miss visionOthers_self_second.
Qed.

(** [walkerA] looks at [walkerB0], which has already moved towards it. *)
Lemma walkerA_looks_second :
  let look (direction0 : number) :=
    visionOthers walkerA [walkerB0; walkerA] coarseParams (Some hall) false
                 (vec2.fromAngle direction0 walkerA.(desiredSpeed)) 10 in
  look (0 + (- (PI / 2) + 0 * (PI / 2))) = 10 /\
  look (0 + (- (PI / 2) + 1 * (PI / 2))) = 0.48 /\
  look (0 + (- (PI / 2) + 2 * (PI / 2))) = 10.
Proof.
  cbv zeta. repeat split.
  - look_miss visionOthers_self_second.
  - look_hit visionOthers_self_second 1.04 0.48.
  - look_miss visionOthers_self_second.
Qed.

(** Closes [advance ... = Some w] for a walker [w] given by its numbers. *)
Ltac advance_eval heading_lemma looks f :=
  destruct looks as (Hright & Hahead & Hleft);
  rewrite (advance_coarse_ahead _ _ _ _ _ f heading_lemma Hright Hahead Hleft)
    by lra;
  cbv zeta; f_equal;
  unfold walkerA1, walkerB0, walkerB1, walkerA0, moved, vec2.add, vec2.scale, vec2.sub;
  reduce_fields; trig_eval; rmin_eval;
  f_equal; f_equal; lra.

Lemma advance_walkerA_first :
  advance [] coarseParams hall false [walkerA; walkerB] vec2.zero walkerA = Some walkerA1.
Proof. advance_eval stepHeading_walkerA walkerA_looks_first 0.5. Qed.

Lemma advance_walkerB_first :
  advance [] coarseParams hall false [walkerB; walkerA] vec2.zero walkerB = Some walkerB0.
Proof. advance_eval stepHeading_walkerB walkerB_looks_first 0.5. Qed.

Lemma advance_walkerB_second :
  advance [] coarseParams hall false [walkerA1; walkerB] vec2.zero walkerB = Some walkerB1.
Proof. advance_eval stepHeading_walkerB walkerB_looks_second 0.48. Qed.

Lemma advance_walkerA_second :
  advance [] coarseParams hall false [walkerB0; walkerA] vec2.zero walkerA = Some walkerA0.
Proof. advance_eval stepHeading_walkerA walkerA_looks_second 0.48. Qed.

Lemma stepPedestrians_A_then_B :
  stepPedestrians openFloor coarseParams [walkerA; walkerB] = Some [walkerA1; walkerB1].
Proof.
  unfold stepPedestrians, openFloor.
  rewrite bool_decide_eq_false_2 by discriminate.
  rewrite (computeContactForces_apart walkerA walkerB coarseParams hall 1);
    [|done|done|lra|reduce_fields; lra|reduce_fields; lra].
  cbn [length seq stepAgents]. unfold stepAgent.
  cbn [lookup list_lookup mbind option_bind active walkerA negb].
  rewrite advance_walkerA_first.
  cbn [mbind option_bind insert list_insert lookup list_lookup active walkerB negb].
  rewrite advance_walkerB_second. reflexivity.
Qed.

Lemma stepPedestrians_B_then_A :
  stepPedestrians openFloor coarseParams [walkerB; walkerA] = Some [walkerB0; walkerA0].
Proof.
  unfold stepPedestrians, openFloor.
  rewrite bool_decide_eq_false_2 by discriminate.
  rewrite (computeContactForces_apart walkerB walkerA coarseParams hall 1);
    [|done|done|lra|reduce_fields; lra|reduce_fields; lra].
  cbn [length seq stepAgents]. unfold stepAgent.
  cbn [lookup list_lookup mbind option_bind active walkerB negb].
  rewrite advance_walkerB_first.
  cbn [mbind option_bind insert list_insert lookup list_lookup active walkerA negb].
  rewrite advance_walkerA_second. reflexivity.
Qed.

Lemma step_crossing (l l' : list Pedestrian) :
  stepPedestrians openFloor coarseParams l = Some l' ->
  (fun sim' => sim'.(world).(pedestrians)) <$> step (crossing l) = Some l'.
Proof. intros Hl. unfold step, crossing. cbn [world onStepCallbacks]. by rewrite Hl. Qed.

(** C1 fails on the code.  Two walkers one metre apart walk towards each
    other.  Stepped as [A; B], A advances first and B then sees it nearer
    and already moving: B ends with velocity -0.0384.  Stepped as [B; A],
    B advances first, sees A at rest, and ends with velocity -0.04.  So
    the step of the swapped list is not the swapped step, and the vision
    of the second agent has read the post-step state of the first. *)
Lemma step_depends_on_list_order :
  let stepped (l : list Pedestrian) :=
    (fun sim' => sim'.(world).(pedestrians)) <$> step (crossing l) in
  stepped [walkerA; walkerB] = Some [walkerA1; walkerB1] /\
  stepped [walkerB; walkerA] = Some [walkerB0; walkerA0] /\
  walkerB1.(velocity).(x) = -0.0384 /\ walkerB0.(velocity).(x) = -0.04 /\
  stepped [walkerB; walkerA] <> reverse <$> stepped [walkerA; walkerB].
Proof.
  cbv beta zeta.
  rewrite (step_crossing _ _ stepPedestrians_A_then_B).
  rewrite (step_crossing _ _ stepPedestrians_B_then_A).
  repeat split. cbn [fmap option_fmap option_map reverse rev_append].
  intros Heq. injection Heq as Hvx _. lra.
Qed.

Lemma step_forces_first_then_in_place_witness :
  let sim := crossing [walkerA; walkerB] in
  let before := sim.(world).(pedestrians) in
  let environment := sim.(world).(environment) in
  let params := sim.(world).(params) in
  let walls := environment.(walls) in
  let bounds := environment.(bounds) in
  let periodic := bool_decide (environment.(boundaryType) = periodic) in
  let forces := computeContactForces before walls params (Some bounds) periodic in
  exists after,
    step sim =
      Some {| world :=
                foldl (fun w callback => callback w)
                      (mkWorld after environment params
                               (sim.(world).(time) + params.(dt)))
                      sim.(onStepCallbacks);
              onStepCallbacks := sim.(onStepCallbacks) |} /\
    length after = length before /\
    length forces = length before /\
    forall i ped, before !! i = Some ped ->
      if ped.(active) then
        exists force ped',
          forces !! i = Some force /\
          advance walls params bounds periodic (seenBy before after i) force ped
            = Some ped' /\
          after !! i = Some ped'
      else after !! i = Some ped.
Proof.
  apply (step_forces_first_then_in_place (crossing [walkerA; walkerB]));
    simpl; pose proof PI_RGT_0; lra.
Defined.

(** ** Wrapping into the bounds *)

Lemma wrapValue_raise_enough (min range : number) (fuel : nat) : forall value,
  0 < range -> min - value <= INR fuel * range ->
  ~ wrapValue_raise fuel value min range < min.
Proof.
  induction fuel as [|fuel IH]; intros value Hrange Hfuel.
  - cbn [wrapValue_raise]. cbn in Hfuel. lra.
  - cbn [wrapValue_raise]. rewrite S_INR in Hfuel.
    case_decide; [|done]. apply IH; [done|lra].
Qed.

Lemma wrapValue_lower_enough (max range : number) (fuel : nat) : forall result,
  0 < range -> result - max < INR fuel * range ->
  ~ wrapValue_lower fuel result max range >= max.
Proof.
  induction fuel as [|fuel IH]; intros result Hrange Hfuel.
  - cbn [wrapValue_lower]. cbn in Hfuel. lra.
  - cbn [wrapValue_lower]. rewrite S_INR in Hfuel.
    case_decide; [|done]. apply IH; [done|lra].
Qed.

Lemma wrapValue_lower_floor (max range : number) (fuel : nat) : forall result,
  0 < range -> max - range <= result ->
  max - range <= wrapValue_lower fuel result max range.
Proof.
  induction fuel as [|fuel IH]; intros result Hrange Hresult; [done|].
  cbn [wrapValue_lower]. case_decide; [|done]. apply IH; [done|lra].
Qed.

Lemma INR_to_nat_ge (z : Z) : IZR z <= INR (Z.to_nat z).
Proof.
  destruct (Z_lt_le_dec z 0) as [Hneg|Hpos].
  - replace (Z.to_nat z) with 0%nat by lia. cbn. apply IZR_le. lia.
  - rewrite INR_IZR_INZ, Z2Nat.id by done. lra.
Qed.

(** The first loop of [wrapValue] leaves it because its guard is false. *)
Lemma wrapValue_raise_done (value min range : number) :
  0 < range ->
  ~ wrapValue_raise (Z.to_nat (Zceil ((min - value) / range))) value min range < min.
Proof.
  intros Hrange. apply wrapValue_raise_enough; [done|].
  pose proof (Zceil_bound ((min - value) / range)) as [_ Hceil].
  pose proof (INR_to_nat_ge (Zceil ((min - value) / range))) as Hnat.
  assert (Hq : (min - value) / range * range = min - value) by (field; lra).
  nra.
Qed.

(** So does the second. *)
Lemma wrapValue_lower_done (result max range : number) :
  0 < range ->
  ~ wrapValue_lower (Z.to_nat (Zfloor ((result - max) / range) + 1)) result max range
    >= max.
Proof.
  intros Hrange. apply wrapValue_lower_enough; [done|].
  pose proof (Zfloor_bound ((result - max) / range)) as [_ Hfloor].
  pose proof (INR_to_nat_ge (Zfloor ((result - max) / range) + 1)) as Hnat.
  rewrite plus_IZR in Hnat.
  assert (Hq : (result - max) / range * range = result - max) by (field; lra).
  nra.
Qed.

(** A wrapped value lies in its range. *)
Lemma wrapValue_in_range (value min max : number) :
  min < max -> min <= wrapValue value min max < max.
Proof.
  intros Hlt. unfold wrapValue. cbv zeta. rewrite decide_False by lra.
  pose proof (wrapValue_raise_done value min (max - min) ltac:(lra)) as Hraise.
  set (result := wrapValue_raise _ value min (max - min)) in *.
  pose proof (wrapValue_lower_done result max (max - min) ltac:(lra)) as Hlower.
  pose proof (wrapValue_lower_floor max (max - min)
                (Z.to_nat (Zfloor ((result - max) / (max - min)) + 1)) result
                ltac:(lra) ltac:(lra)) as Hfloor.
  lra.
Qed.

(** ** Placement with a uniform mass *)

Lemma vec2_copy_id (v : Vec2) : vec2.copy v = v.
Proof. by destruct v. Qed.

Lemma existsb_false_elem {A : Type} (f : A -> bool) (l : list A) (a : A) :
  existsb f l = false -> a ∈ l -> f a = false.
Proof.
  induction l as [|a' l IH]; intros Hex Ha; [by apply elem_of_nil in Ha|].
  cbn [existsb] in Hex. apply orb_false_iff in Hex as [Ha' Hl].
  apply elem_of_cons in Ha as [->|Ha]; [done|by apply IH].
Qed.

Lemma separated_snoc (peds : list Pedestrian) (ped : Pedestrian) :
  separated peds ->
  (forall other, other ∈ peds ->
     other.(radius) + ped.(radius) + 0.05
     <= vec2.distance ped.(position) other.(position)) ->
  separated (peds ++ [ped]).
Proof.
  intros Hsep Hnew i j p q Hij Hp Hq.
  pose proof (lookup_lt_Some _ _ _ Hq) as Hj. rewrite length_app in Hj. cbn in Hj.
  rewrite lookup_app_l in Hp by lia.
  destruct (decide (j < length peds)%nat) as [Hlt|Hge].
  - rewrite lookup_app_l in Hq by done. by apply (Hsep i j).
  - rewrite lookup_app_r in Hq by lia.
    replace (j - length peds)%nat with 0%nat in Hq by lia. cbn in Hq. simplify_eq.
    apply Hnew. by eapply list_elem_of_lookup_2.
Qed.

(** The part of C10 about the margin holds on the path on which the mass
    of the overlap check is the mass of the pedestrian created: when
    [uniformMass] is given. *)
Lemma placementLoop_separated
    (count maxAttempts : nat) (b : Bounds) (destinationFn : Vec2 -> nat -> Vec2)
    (opts : AreaOptions.t) (m : number) (fuel : nat) :
  opts.(AreaOptions.uniformMass) = Some m ->
  forall (peds : list Pedestrian) (attempts : nat) (rt : Runtime),
  separated peds -> Forall (fun p => p.(radius) = m / 320) peds ->
  let r := (placementLoop fuel count maxAttempts b destinationFn (Some opts) peds
                          attempts rt).1.1 in
  separated r /\ Forall (fun p => p.(radius) = m / 320) r.
Proof.
  intros Hum. induction fuel as [|fuel IH]; intros peds attempts rt Hsep Hrad; cbv zeta.
  - done.
  - cbn [placementLoop]. case_decide as Hguard; [|done].
    unfold bind. cbv beta.
    destruct (Math_random rt) as [rx rt1]. destruct (Math_random rt1) as [ry rt2].
    cbn [mbind option_bind]. rewrite Hum. unfold ret. cbv beta iota.
    set (position' := {| x := xMin b + rx * (xMax b - xMin b);
                         y := yMin b + ry * (yMax b - yMin b) |}).
    destruct (existsb _ peds) eqn:Hoverlaps; [by apply IH|].
    match goal with |- context [let '(_, _) := ?e rt2 in _] =>
      destruct (e rt2) as [speed' rt4] end.
    match goal with |- context [createPedestrian ?o rt4] =>
      pose proof (createPedestrian_fields
                    (PedestrianOptions.position o) (PedestrianOptions.destination o)
                    (Some m) (Some speed') None (PedestrianOptions.direction o) rt4)
        as Hfields
    end.
    cbv zeta in Hfields. cbn [PedestrianOptions.position PedestrianOptions.destination
                              PedestrianOptions.direction fst] in Hfields.
    destruct (createPedestrian _ rt4) as [ped rt5]. cbn [fst] in Hfields.
    destruct Hfields as (Hmass & Hradius & Hposition & _).
    rewrite Hmass in Hradius. rewrite vec2_copy_id in Hposition.
    apply IH.
    + apply separated_snoc; [done|]. intros other Hother.
      pose proof (existsb_false_elem _ _ other Hoverlaps Hother) as Hclear.
      cbv beta in Hclear. apply bool_decide_eq_false_1 in Hclear.
      rewrite Hposition, Hradius. lra.
    + apply Forall_app. split; [done|]. by apply Forall_singleton.
Qed.

Lemma createPedestriansInArea_separated
    (count : nat) (b : Bounds) (destinationFn : Vec2 -> nat -> Vec2)
    (opts : AreaOptions.t) (m : number) (rt : Runtime) :
  opts.(AreaOptions.uniformMass) = Some m ->
  separated (createPedestriansInArea count b destinationFn (Some opts) rt).1.
Proof.
  intros Hum. unfold createPedestriansInArea, bind, ret. cbv zeta.
  generalize (count * 100)%nat. intros maxAttempts.
  pose proof (placementLoop_separated count maxAttempts b destinationFn opts m
                maxAttempts Hum [] 0 rt) as H.
  cbv zeta in H. destruct H as [H _].
  - intros i j p q _ Hp. done.
  - done.
  - destruct (placementLoop _ _ _ _ _ _ _ _ _) as [[peds attempts] rt']. done.
Qed.

(** * Further properties of the sources *)

(** ** utils/geometry.ts: wrapping *)

Lemma wrapValue_raise_shift (min range : number) (fuel : nat) : forall value,
  exists n : nat, wrapValue_raise fuel value min range = value + INR n * range.
Proof.
  induction fuel as [|fuel IH]; intros value.
  - exists 0%nat. cbn. lra.
  - cbn [wrapValue_raise]. case_decide.
    + destruct (IH (value + range)) as [n ->]. exists (S n). rewrite S_INR. lra.
    + exists 0%nat. cbn. lra.
Qed.

Lemma wrapValue_lower_shift (max range : number) (fuel : nat) : forall result,
  exists n : nat, wrapValue_lower fuel result max range = result - INR n * range.
Proof.
  induction fuel as [|fuel IH]; intros result.
  - exists 0%nat. cbn. lra.
  - cbn [wrapValue_lower]. case_decide.
    + destruct (IH (result - range)) as [n ->]. exists (S n). rewrite S_INR. lra.
    + exists 0%nat. cbn. lra.
Qed.

Lemma wrapValue_shift (value min max : number) :
  exists k : Z, wrapValue value min max = value + IZR k * (max - min).
Proof.
  unfold wrapValue. cbv zeta. case_decide; [exists 0%Z; lra|].
  destruct (wrapValue_raise_shift min (max - min)
              (Z.to_nat (Zceil ((min - value) / (max - min)))) value) as [n ->].
  match goal with |- context [wrapValue_lower ?f ?r max (max - min)] =>
    destruct (wrapValue_lower_shift max (max - min) f r) as [m ->] end.
  exists (Z.of_nat n - Z.of_nat m)%Z.
  rewrite minus_IZR, <- !INR_IZR_INZ. lra.
Qed.

Lemma wrapValue_inside (value min max : number) :
  min <= value < max -> wrapValue value min max = value.
Proof.
  intros Hin. unfold wrapValue. cbv zeta. rewrite decide_False by lra.
  assert (Hraise : forall fuel, wrapValue_raise fuel value min (max - min) = value).
  { intros [|fuel]; [done|]. cbn [wrapValue_raise]. by rewrite decide_False by lra. }
  rewrite !Hraise.
  generalize (Z.to_nat (Zfloor ((value - max) / (max - min)) + 1)).
  intros [|fuel]; [done|]. cbn [wrapValue_lower]. by rewrite decide_False by lra.
Qed.

(** X1: for bounds with [xMin < xMax] and [yMin < yMax], [wrapPosition]
    returns a point inside them (lower edge included, upper edge
    excluded) that differs from the given point by whole multiples of the
    two ranges, and a point already inside is returned unchanged. *)
Theorem wrapPosition_in_bounds (p : Vec2) (b : Bounds) :
  b.(xMin) < b.(xMax) -> b.(yMin) < b.(yMax) ->
  let w := wrapPosition p b in
  b.(xMin) <= w.(x) < b.(xMax) /\
  b.(yMin) <= w.(y) < b.(yMax) /\
  (exists kx ky : Z,
      w.(x) = p.(x) + IZR kx * (b.(xMax) - b.(xMin)) /\
      w.(y) = p.(y) + IZR ky * (b.(yMax) - b.(yMin))) /\
  (b.(xMin) <= p.(x) < b.(xMax) -> b.(yMin) <= p.(y) < b.(yMax) ->
   w.(x) = p.(x) /\ w.(y) = p.(y)).
Proof.
  intros Hx Hy. cbv zeta. unfold wrapPosition. cbn [x y].
  split; [by apply wrapValue_in_range|]. split; [by apply wrapValue_in_range|]. split.
  - destruct (wrapValue_shift (x p) (xMin b) (xMax b)) as [kx Hkx].
    destruct (wrapValue_shift (y p) (yMin b) (yMax b)) as [ky Hky].
    by exists kx, ky.
  - intros Hpx Hpy. by rewrite !wrapValue_inside.
Qed.

Lemma wrapPosition_in_bounds_witness :
  let p := {| x := 25; y := -3 |} in
  let w := wrapPosition p hall in
  hall.(xMin) <= w.(x) < hall.(xMax) /\
  hall.(yMin) <= w.(y) < hall.(yMax) /\
  (exists kx ky : Z,
      w.(x) = p.(x) + IZR kx * (hall.(xMax) - hall.(xMin)) /\
      w.(y) = p.(y) + IZR ky * (hall.(yMax) - hall.(yMin))) /\
  (hall.(xMin) <= p.(x) < hall.(xMax) -> hall.(yMin) <= p.(y) < hall.(yMax) ->
   w.(x) = p.(x) /\ w.(y) = p.(y)).
Proof.
  apply (wrapPosition_in_bounds {| x := 25; y := -3 |} hall); simpl; lra.
Defined.

(** ** utils/geometry.ts: the minimum image *)

Lemma Rabs_le_between (u w : number) : Rabs u <= w <-> - w <= u <= w.
Proof. unfold Rabs. destruct (Rcase_abs u); lra. Qed.

(** X2: for bounds with [xMin <= xMax] and [yMin <= yMax],
    [periodicDisplacement] is antisymmetric in its two points, differs from
    the plain difference by at most one range per axis, and, when the two
    points are no further apart than a range on an axis, is at most half
    that range long on that axis. *)
Theorem periodicDisplacement_minimum_image (from to : Vec2) (b : Bounds) :
  b.(xMin) <= b.(xMax) -> b.(yMin) <= b.(yMax) ->
  let rangeX := b.(xMax) - b.(xMin) in
  let rangeY := b.(yMax) - b.(yMin) in
  let d := periodicDisplacement from to b in
  let e := periodicDisplacement to from b in
  d.(x) = - e.(x) /\ d.(y) = - e.(y) /\
  (d.(x) = to.(x) - from.(x) \/ d.(x) = to.(x) - from.(x) - rangeX \/
   d.(x) = to.(x) - from.(x) + rangeX) /\
  (d.(y) = to.(y) - from.(y) \/ d.(y) = to.(y) - from.(y) - rangeY \/
   d.(y) = to.(y) - from.(y) + rangeY) /\
  (Rabs (to.(x) - from.(x)) <= rangeX -> Rabs d.(x) <= rangeX / 2) /\
  (Rabs (to.(y) - from.(y)) <= rangeY -> Rabs d.(y) <= rangeY / 2).
Proof.
  intros Hx Hy. cbv zeta. unfold periodicDisplacement. cbv zeta. cbn [x y].
  repeat split.
  - repeat case_decide; lra.
  - repeat case_decide; lra.
  - repeat case_decide; lra.
  - repeat case_decide; lra.
  - intros Hclose. apply Rabs_le_between in Hclose. apply Rabs_le_between.
    repeat case_decide; lra.
  - intros Hclose. apply Rabs_le_between in Hclose. apply Rabs_le_between.
    repeat case_decide; lra.
Qed.

Lemma periodicDisplacement_minimum_image_witness :
  let from := {| x := -19; y := 0 |} in
  let to := {| x := 19; y := 1 |} in
  let rangeX := hall.(xMax) - hall.(xMin) in
  let rangeY := hall.(yMax) - hall.(yMin) in
  let d := periodicDisplacement from to hall in
  let e := periodicDisplacement to from hall in
  d.(x) = - e.(x) /\ d.(y) = - e.(y) /\
  (d.(x) = to.(x) - from.(x) \/ d.(x) = to.(x) - from.(x) - rangeX \/
   d.(x) = to.(x) - from.(x) + rangeX) /\
  (d.(y) = to.(y) - from.(y) \/ d.(y) = to.(y) - from.(y) - rangeY \/
   d.(y) = to.(y) - from.(y) + rangeY) /\
  (Rabs (to.(x) - from.(x)) <= rangeX -> Rabs d.(x) <= rangeX / 2) /\
  (Rabs (to.(y) - from.(y)) <= rangeY -> Rabs d.(y) <= rangeY / 2).
Proof.
  apply (periodicDisplacement_minimum_image {| x := -19; y := 0 |} {| x := 19; y := 1 |}
           hall); simpl; lra.
Defined.

(** ** utils/geometry.ts: segments and lines *)

Lemma vec2_length_le (u v : Vec2) :
  vec2.lengthSquared u <= vec2.lengthSquared v -> vec2.length u <= vec2.length v.
Proof. intros Hle. unfold vec2.length. by apply sqrt_le_1_alt. Qed.

Lemma closestPointOnSegment_param (p a b : Vec2) :
  1e-10 <= vec2.lengthSquared (vec2.sub b a) ->
  let t := Rmax 0 (Rmin 1 (vec2.dot (vec2.sub p a) (vec2.sub b a)
                           / vec2.lengthSquared (vec2.sub b a))) in
  0 <= t <= 1 /\ closestPointOnSegment p a b = vec2.lerp a b t.
Proof.
  intros Hlen. cbv zeta. split.
  - split; [apply Rmax_l|]. apply Rmax_lub; [lra|apply Rmin_l].
  - unfold closestPointOnSegment. cbv zeta. rewrite decide_False by lra. reflexivity.
Qed.

(** X3: on a segment that is not degenerate (squared length at least
    1e-10) [closestPointOnSegment] returns a point of the segment, and no
    point of the segment is nearer to the given point: [distanceToSegment]
    is at most the distance to [lerp(a, b, s)] for every [s] in [0, 1],
    the two endpoints included. *)
Theorem distanceToSegment_is_least (p a b : Vec2) (s : number) :
  1e-10 <= vec2.lengthSquared (vec2.sub b a) -> 0 <= s <= 1 ->
  (exists t, 0 <= t <= 1 /\ closestPointOnSegment p a b = vec2.lerp a b t) /\
  distanceToSegment p a b <= vec2.distance p (vec2.lerp a b s).
Proof.
  intros Hlen Hs.
  destruct (closestPointOnSegment_param p a b Hlen) as [Ht Hclosest].
  split; [eauto|].
  unfold distanceToSegment. cbv zeta. rewrite Hclosest.
  unfold vec2.distance. apply vec2_length_le.
  set (L := vec2.lengthSquared (vec2.sub b a)) in *.
  set (d := vec2.dot (vec2.sub p a) (vec2.sub b a)) in *.
  set (t := Rmax 0 (Rmin 1 (d / L))) in *.
  assert (Hq : d / L * L = d) by (field; lra).
  assert (Hgap : forall r, vec2.lengthSquared (vec2.sub p (vec2.lerp a b r)) =
                           vec2.lengthSquared (vec2.sub p a) - 2 * r * d + r * r * L).
  { intros r. unfold L, d, vec2.lengthSquared, vec2.dot, vec2.sub, vec2.lerp.
    cbn [x y]. ring. }
  rewrite !Hgap.
  assert (Hcase : (t = 0 /\ d <= 0) \/ (t = d / L /\ 0 <= d <= L) \/ (t = 1 /\ L <= d)).
  { unfold t. destruct (Rle_dec 0 (d / L)) as [H0|H0].
    - destruct (Rle_dec (d / L) 1) as [H1|H1].
      + right. left. rewrite Rmin_right, Rmax_right by lra. split; [done|]. nra.
      + right. right. rewrite Rmin_left, Rmax_right by lra. split; [done|]. nra.
    - left. rewrite Rmin_right, Rmax_left by lra. split; [done|]. nra. }
  clear Hgap Hclosest. generalize (vec2.lengthSquared (vec2.sub p a)). intros A.
  remember (d / L) as q eqn:Hqdef. clear Hqdef. clearbody t L d.
  destruct Hcase as [[-> Hd]|[[-> Hd]|[-> Hd]]].
  - assert (0 <= s * L) by (apply Rmult_le_pos; lra).
    assert (0 <= s * (s * L - 2 * d)) by (apply Rmult_le_pos; lra). lra.
  - pose proof (Rle_0_sqr (s - q)) as Hsq. unfold Rsqr in Hsq.
    assert (0 <= L * ((s - q) * (s - q))) by (apply Rmult_le_pos; lra).
    rewrite <- Hq. lra.
  - assert (0 <= L * (1 - s)) by (apply Rmult_le_pos; lra).
    assert (0 <= (1 - s) * (2 * d - L * (1 + s))) by (apply Rmult_le_pos; lra). lra.
Qed.

Lemma distanceToSegment_is_least_witness :
  let p := {| x := 1; y := 2 |} in
  let a := {| x := 0; y := 0 |} in
  let b := {| x := 4; y := 0 |} in
  (exists t, 0 <= t <= 1 /\ closestPointOnSegment p a b = vec2.lerp a b t) /\
  distanceToSegment p a b <= vec2.distance p (vec2.lerp a b 0.5).
Proof.
  apply (distanceToSegment_is_least {| x := 1; y := 2 |} {| x := 0; y := 0 |}
           {| x := 4; y := 0 |} 0.5);
    unfold vec2.lengthSquared, vec2.sub; simpl; lra.
Defined.

(** ** utils/vector.ts *)

Lemma vec2_length_sqr (v : Vec2) :
  vec2.length v * vec2.length v = vec2.lengthSquared v.
Proof. unfold vec2.length, vec2.lengthSquared. apply sqrt_sqrt. nra. Qed.

Lemma vec2_length_scale (v : Vec2) (s : number) :
  vec2.length (vec2.scale v s) = vec2.length v * Rabs s.
Proof.
  unfold vec2.length, vec2.scale. cbn [x y].
  replace (x v * s * (x v * s) + y v * s * (y v * s))
    with ((x v * x v + y v * y v) * (s * s)) by ring.
  rewrite sqrt_mult_alt by nra. f_equal.
  rewrite <- (sqrt_Rsqr_abs s). reflexivity.
Qed.

Lemma vec2_normalize_length (v : Vec2) :
  vec2.length v > 1e-10 -> vec2.length (vec2.normalize v) = 1.
Proof.
  intros Hlen. unfold vec2.normalize. cbv zeta. rewrite decide_True by done.
  rewrite vec2_length_scale, Rabs_right.
  - field. lra.
  - apply Rle_ge. apply Rlt_le. apply Rdiv_lt_0_compat; lra.
Qed.

(** X4: [normalize] returns either a vector of length 1 that, scaled by
    the length of its argument, gives the argument back, or, for an
    argument no longer than 1e-10, the zero vector. *)
Theorem normalize_unit_or_zero (v : Vec2) :
  (vec2.length v > 1e-10 /\
   vec2.length (vec2.normalize v) = 1 /\
   vec2.scale (vec2.normalize v) (vec2.length v) = v) \/
  (vec2.length v <= 1e-10 /\ vec2.normalize v = vec2.zero).
Proof.
  destruct (Rgt_dec (vec2.length v) 1e-10) as [Hlen|Hlen].
  - left. split; [done|]. split; [by apply vec2_normalize_length|].
    unfold vec2.normalize. cbv zeta. rewrite decide_True by done.
    destruct v as [vx vy]. unfold vec2.scale. cbn [x y].
    set (len := vec2.length _) in *. f_equal; field; lra.
  - right. split; [lra|]. unfold vec2.normalize. cbv zeta.
    by rewrite decide_False.
Qed.

Lemma sqrt_factor (u v : number) :
  u <> 0 -> sqrt (u * u + v * v) = Rabs u * sqrt (1 + (v / u)²).
Proof.
  intros Hu. rewrite <- (sqrt_Rsqr_abs u), <- sqrt_mult_alt by apply Rle_0_sqr.
  f_equal. unfold Rsqr. field. done.
Qed.

Lemma sqrt_one_plus_sqr_pos (q : number) : 0 < sqrt (1 + q²).
Proof. apply sqrt_lt_R0. pose proof (Rle_0_sqr q). lra. Qed.

(** X5: a vector is recovered from its polar form: [fromAngle] applied to
    the [angle] and the [length] of a vector gives the vector back, the
    zero vector included, and [fromAngle] of a magnitude [m] has length
    [|m|]. *)
Theorem fromAngle_angle_length (v : Vec2) (theta m : number) :
  vec2.fromAngle (vec2.angle v) (vec2.length v) = v /\
  vec2.length (vec2.fromAngle theta m) = Rabs m.
Proof.
  split.
  - destruct v as [vx vy].
    unfold vec2.fromAngle, vec2.angle, vec2.length, Math_atan2. cbn [x y].
    pose proof (sqrt_one_plus_sqr_pos (vy / vx)) as HS.
    destruct (decide (0 < vx)) as [Hpos|Hnpos].
    { rewrite cos_atan, sin_atan, sqrt_factor, Rabs_right by lra.
      f_equal; field; lra. }
    destruct (decide (vx < 0)) as [Hneg|Hnneg].
    { destruct (decide (0 <= vy)) as [Hy|Hy].
      - rewrite neg_cos, neg_sin, cos_atan, sin_atan, sqrt_factor, Rabs_left by lra.
        f_equal; field; lra.
      - rewrite cos_minus, sin_minus, cos_PI, sin_PI, cos_atan, sin_atan,
          sqrt_factor, Rabs_left by lra.
        f_equal; field; lra. }
    assert (vx = 0) as -> by lra.
    replace (0 * 0 + vy * vy) with (vy * vy) by ring.
    destruct (decide (0 < vy)) as [Hy|Hy].
    { rewrite cos_PI2, sin_PI2, sqrt_square by lra. f_equal; ring. }
    destruct (decide (vy < 0)) as [Hy'|Hy'].
    { rewrite cos_neg, sin_neg, cos_PI2, sin_PI2.
      replace (vy * vy) with (- vy * - vy) by ring.
      rewrite sqrt_square by lra. f_equal; ring. }
    assert (vy = 0) as -> by lra.
    replace (0 * 0) with 0 by ring. rewrite sqrt_0. f_equal; ring.
  - unfold vec2.length, vec2.fromAngle. cbn [x y].
    replace (cos theta * m * (cos theta * m) + sin theta * m * (sin theta * m))
      with (((sin theta)² + (cos theta)²) * m²) by (unfold Rsqr; ring).
    rewrite sin2_cos2, Rmult_1_l. apply sqrt_Rsqr_abs.
Qed.

(** X6: [rotate] is a rigid turn: it keeps the length, turning by [a] and
    then by [b] is turning by [a + b], turning back by [-a] undoes it,
    it adds to the angle of a polar form, and a quarter turn is
    [perpendicular]. *)
Theorem rotate_rigid (v : Vec2) (a b m : number) :
  vec2.length (vec2.rotate v a) = vec2.length v /\
  vec2.rotate (vec2.rotate v a) b = vec2.rotate v (a + b) /\
  vec2.rotate (vec2.rotate v a) (- a) = v /\
  vec2.rotate (vec2.fromAngle a m) b = vec2.fromAngle (a + b) m /\
  vec2.rotate v (PI / 2) = vec2.perpendicular v.
Proof.
  assert (Hone : forall t, sin t * sin t + cos t * cos t = 1).
  { intros t. pose proof (sin2_cos2 t) as H. unfold Rsqr in H. done. }
  destruct v as [vx vy]. repeat split.
  - unfold vec2.length, vec2.rotate. cbn [x y]. f_equal.
    replace ((vx * cos a - vy * sin a) * (vx * cos a - vy * sin a) +
             (vx * sin a + vy * cos a) * (vx * sin a + vy * cos a))
      with ((vx * vx + vy * vy) * (sin a * sin a + cos a * cos a)) by ring.
    rewrite Hone. ring.
  - unfold vec2.rotate. cbn [x y]. rewrite cos_plus, sin_plus. f_equal; ring.
  - unfold vec2.rotate. cbn [x y]. rewrite cos_neg, sin_neg.
    pose proof (Hone a) as H.
    assert (Hx : vx * (sin a * sin a + cos a * cos a) = vx) by (rewrite H; ring).
    assert (Hy : vy * (sin a * sin a + cos a * cos a) = vy) by (rewrite H; ring).
    f_equal; lra.
  - unfold vec2.rotate, vec2.fromAngle. cbn [x y]. rewrite cos_plus, sin_plus.
    f_equal; ring.
  - unfold vec2.rotate, vec2.perpendicular. cbn [x y]. rewrite cos_PI2, sin_PI2.
    f_equal; ring.
Qed.

(** X7: for a limit that is not negative, [clampLength] returns a vector
    no longer than its argument and no longer than the larger of the limit
    and 1e-10; an argument within the limit is returned as it is, and for a
    limit of at least 1e-10 the result has the smaller of the two
    lengths. *)
Theorem clampLength_bound (v : Vec2) (maxLength : number) :
  0 <= maxLength ->
  vec2.length (vec2.clampLength v maxLength) <= vec2.length v /\
  vec2.length (vec2.clampLength v maxLength) <= Rmax maxLength 1e-10 /\
  (vec2.length v <= maxLength -> vec2.clampLength v maxLength = v) /\
  (1e-10 <= maxLength ->
   vec2.length (vec2.clampLength v maxLength) = Rmin (vec2.length v) maxLength).
Proof.
  intros Hmax. unfold vec2.clampLength. cbv zeta.
  destruct (decide (vec2.length v > maxLength /\ vec2.length v > 1e-10)) as [[H1 H2]|Hn].
  - assert (Hlen : vec2.length (vec2.scale v (maxLength / vec2.length v)) = maxLength).
    { rewrite vec2_length_scale, Rabs_right.
      - field. lra.
      - apply Rle_ge. apply Rmult_le_pos; [done|].
        apply Rlt_le, Rinv_0_lt_compat. lra. }
    rewrite Hlen. repeat split.
    + lra.
    + apply Rmax_l.
    + lra.
    + intros _. rewrite Rmin_right; lra.
  - repeat split.
    + lra.
    + destruct (Rle_dec (vec2.length v) maxLength).
      * etransitivity; [done|apply Rmax_l].
      * etransitivity; [|apply Rmax_r]. apply Rnot_gt_le. intros Hgt. apply Hn. lra.
    + intros Hge. rewrite Rmin_left; [done|].
      apply Rnot_gt_le. intros Hgt. apply Hn. lra.
Qed.

Lemma clampLength_bound_witness :
  let v := {| x := 4; y := 0 |} in
  vec2.length (vec2.clampLength v 1.5) <= vec2.length v /\
  vec2.length (vec2.clampLength v 1.5) <= Rmax 1.5 1e-10 /\
  (vec2.length v <= 1.5 -> vec2.clampLength v 1.5 = v) /\
  (1e-10 <= 1.5 ->
   vec2.length (vec2.clampLength v 1.5) = Rmin (vec2.length v) 1.5).
Proof. apply (clampLength_bound {| x := 4; y := 0 |} 1.5). lra. Defined.

(** ** utils/geometry.ts and simulation/environment.ts: the line of a wall *)

(** X8: a wall between two points at least 1e-10 apart is created with
    copies of the two points, a normal of length 1 that is perpendicular
    to the wall, and a line equation that gives every point its signed
    distance along that normal from the start point: both endpoints are
    on the line. *)
Theorem createWall_line (s e : Vec2) :
  1e-10 <= vec2.distance s e ->
  exists w,
    createWall s e = Returns w /\
    w.(start) = s /\ w.(end_) = e /\
    vec2.length w.(normal) = 1 /\
    vec2.dot w.(normal) (vec2.sub e s) = 0 /\
    lineFromPoints s e = {| line_a := w.(a); line_b := w.(b); line_c := w.(c) |} /\
    (forall p, signedDistanceToLine p (lineFromPoints s e)
               = vec2.dot w.(normal) (vec2.sub p s)) /\
    signedDistanceToLine s (lineFromPoints s e) = 0 /\
    signedDistanceToLine e (lineFromPoints s e) = 0.
Proof.
  intros Hapart. destruct s as [sx sy], e as [ex ey].
  unfold createWall, lineFromPoints. cbv zeta. cbn [x y].
  set (len := sqrt (- (ey - sy) * - (ey - sy) + (ex - sx) * (ex - sx))).
  assert (Hlen : len = vec2.distance {| x := sx; y := sy |} {| x := ex; y := ey |}).
  { unfold len, vec2.distance, vec2.length, vec2.sub. cbn [x y]. f_equal. ring. }
  assert (Hsq : len * len = - (ey - sy) * - (ey - sy) + (ex - sx) * (ex - sx)).
  { unfold len. apply sqrt_sqrt.
    pose proof (Rle_0_sqr (ey - sy)) as H1. pose proof (Rle_0_sqr (ex - sx)) as H2.
    unfold Rsqr in H1, H2. lra. }
  rewrite decide_False by lra.
  eexists. split; [reflexivity|].
  cbn [start end_ normal a b c line_a line_b line_c].
  assert (Hdot : - (ey - sy) / len * (ex - sx) + (ex - sx) / len * (ey - sy) = 0)
    by (field; lra).
  assert (Hline : forall p,
            signedDistanceToLine p
              {| line_a := - (ey - sy) / len; line_b := (ex - sx) / len;
                 line_c := - (- (ey - sy) * sx + (ex - sx) * sy) / len |}
            = vec2.dot {| x := - (ey - sy) / len; y := (ex - sx) / len |}
                       (vec2.sub p {| x := sx; y := sy |})).
  { intros p. unfold signedDistanceToLine, vec2.dot, vec2.sub.
    cbn [x y line_a line_b line_c]. field. lra. }
  repeat split.
  - unfold vec2.length. cbn [x y].
    replace (- (ey - sy) / len * (- (ey - sy) / len) + (ex - sx) / len * ((ex - sx) / len))
      with ((- (ey - sy) * - (ey - sy) + (ex - sx) * (ex - sx)) / (len * len))
      by (field; lra).
    rewrite <- Hsq. replace (len * len / (len * len)) with 1 by (field; lra).
    apply sqrt_1.
  - unfold vec2.dot, vec2.sub. cbn [x y]. done.
  - done.
  - rewrite Hline. unfold vec2.dot, vec2.sub. cbn [x y]. ring.
  - rewrite Hline. unfold vec2.dot, vec2.sub. cbn [x y]. done.
Qed.

Lemma createWall_line_witness :
  let s := {| x := 4; y := 0 |} in
  let e := {| x := 0; y := 0 |} in
  exists w,
    createWall s e = Returns w /\
    w.(start) = s /\ w.(end_) = e /\
    vec2.length w.(normal) = 1 /\
    vec2.dot w.(normal) (vec2.sub e s) = 0 /\
    lineFromPoints s e = {| line_a := w.(a); line_b := w.(b); line_c := w.(c) |} /\
    (forall p, signedDistanceToLine p (lineFromPoints s e)
               = vec2.dot w.(normal) (vec2.sub p s)) /\
    signedDistanceToLine s (lineFromPoints s e) = 0 /\
    signedDistanceToLine e (lineFromPoints s e) = 0.
Proof.
  apply (createWall_line {| x := 4; y := 0 |} {| x := 0; y := 0 |}).
  rewrite vec2_distance_horizontal; lra.
Defined.

(** ** utils/geometry.ts: the normal from a segment *)

(** X9: for a segment longer than 1e-10, [normalFromSegmentToPoint]
    returns a vector of length 1, and a point at least 1e-10 away from the
    segment is its closest point on the segment moved along that vector by
    [distanceToSegment]. *)
Theorem normalFromSegmentToPoint_unit (p a b : Vec2) :
  vec2.length (vec2.sub b a) > 1e-10 ->
  vec2.length (normalFromSegmentToPoint p a b) = 1 /\
  (1e-10 <= distanceToSegment p a b ->
   vec2.add (closestPointOnSegment p a b)
            (vec2.scale (normalFromSegmentToPoint p a b) (distanceToSegment p a b)) = p).
Proof.
  intros Hseg. unfold normalFromSegmentToPoint, distanceToSegment, vec2.distance.
  cbv zeta. set (closest := closestPointOnSegment p a b).
  set (len := vec2.length (vec2.sub p closest)).
  case_decide as Hlen.
  - split; [|lra]. apply vec2_normalize_length.
    replace (vec2.length (vec2.perpendicular (vec2.sub b a)))
      with (vec2.length (vec2.sub b a)); [done|].
    unfold vec2.length, vec2.perpendicular. cbn [x y]. f_equal. ring.
  - split.
    + rewrite vec2_length_scale. fold len. rewrite Rabs_right.
      * field. lra.
      * apply Rle_ge, Rlt_le. apply Rdiv_lt_0_compat; lra.
    + intros _. destruct p as [px py], closest as [qx qy].
      unfold vec2.add, vec2.scale, vec2.sub. cbn [x y]. f_equal; field; lra.
Qed.

Lemma normalFromSegmentToPoint_unit_witness :
  let p := {| x := 1; y := 2 |} in
  let a := {| x := 4; y := 0 |} in
  let b := {| x := 0; y := 0 |} in
  vec2.length (normalFromSegmentToPoint p a b) = 1 /\
  (1e-10 <= distanceToSegment p a b ->
   vec2.add (closestPointOnSegment p a b)
            (vec2.scale (normalFromSegmentToPoint p a b) (distanceToSegment p a b)) = p).
Proof.
  apply (normalFromSegmentToPoint_unit {| x := 1; y := 2 |} {| x := 4; y := 0 |}
           {| x := 0; y := 0 |}).
  change (vec2.length (vec2.sub {| x := 0; y := 0 |} {| x := 4; y := 0 |}))
    with (vec2.distance {| x := 0; y := 0 |} {| x := 4; y := 0 |}).
  unfold vec2.distance, vec2.length, vec2.sub. cbn [x y].
  replace ((0 - 4) * (0 - 4) + (0 - 0) * (0 - 0)) with (4 * 4) by ring.
  rewrite sqrt_square; lra.
Defined.

(** ** utils/geometry.ts: angles *)

Lemma normalizeAngle_lower_spec (fuel : nat) : forall angle,
  angle - PI <= INR fuel * (2 * PI) ->
  let r := normalizeAngle_lower fuel angle in
  r <= PI /\ (angle <= PI -> r = angle) /\ (angle > PI -> - PI < r) /\
  exists n : nat, r = angle - 2 * INR n * PI.
Proof.
  pose proof PI_RGT_0 as Hpi.
  induction fuel as [|fuel IH]; intros angle Hfuel; cbv zeta.
  - cbn [normalizeAngle_lower]. cbn in Hfuel.
    split; [lra|]. split; [done|]. split; [lra|]. exists 0%nat. cbn. lra.
  - cbn [normalizeAngle_lower]. rewrite S_INR in Hfuel. case_decide as Hgt.
    + destruct (IH (angle - 2 * PI) ltac:(lra)) as (Hle & Hsame & Hlow & n & Hn).
      split; [done|]. split; [lra|]. split.
      * intros _. destruct (Rle_dec (angle - 2 * PI) PI) as [Hin|Hout].
        -- rewrite Hsame by done. lra.
        -- apply Hlow. lra.
      * exists (S n). rewrite S_INR, Hn. lra.
    + split; [lra|]. split; [done|]. split; [lra|]. exists 0%nat. cbn. lra.
Qed.

Lemma normalizeAngle_raise_spec (fuel : nat) : forall angle,
  - PI - angle <= INR fuel * (2 * PI) ->
  let r := normalizeAngle_raise fuel angle in
  - PI <= r /\ (- PI <= angle -> r = angle) /\ (angle < - PI -> r < PI) /\
  exists n : nat, r = angle + 2 * INR n * PI.
Proof.
  pose proof PI_RGT_0 as Hpi.
  induction fuel as [|fuel IH]; intros angle Hfuel; cbv zeta.
  - cbn [normalizeAngle_raise]. cbn in Hfuel.
    split; [lra|]. split; [done|]. split; [lra|]. exists 0%nat. cbn. lra.
  - cbn [normalizeAngle_raise]. rewrite S_INR in Hfuel. case_decide as Hlt.
    + destruct (IH (angle + 2 * PI) ltac:(lra)) as (Hge & Hsame & Hhigh & n & Hn).
      split; [done|]. split; [lra|]. split.
      * intros _. destruct (Rle_dec (- PI) (angle + 2 * PI)) as [Hin|Hout].
        -- rewrite Hsame by done. lra.
        -- apply Hhigh. lra.
      * exists (S n). rewrite S_INR, Hn. lra.
    + split; [lra|]. split; [done|]. split; [lra|]. exists 0%nat. cbn. lra.
Qed.

Lemma ceil_fuel_enough (gap : number) :
  gap <= INR (Z.to_nat (Zceil (gap / (2 * PI)))) * (2 * PI).
Proof.
  pose proof PI_RGT_0 as Hpi.
  pose proof (Zceil_bound (gap / (2 * PI))) as [_ Hceil].
  pose proof (INR_to_nat_ge (Zceil (gap / (2 * PI)))) as Hnat.
  assert (Hq : gap / (2 * PI) * (2 * PI) = gap) by (field; lra).
  rewrite <- Hq at 1. apply Rmult_le_compat_r; lra.
Qed.

(** Both loops of [normalizeAngle] leave because their guards are false. *)
Lemma normalizeAngle_loops_done (angle : number) :
  let lowered :=
    normalizeAngle_lower (Z.to_nat (Zceil ((angle - PI) / (2 * PI)))) angle in
  ~ lowered > PI /\ ~ normalizeAngle angle < - PI.
Proof.
  cbv zeta. unfold normalizeAngle. cbv zeta.
  destruct (normalizeAngle_lower_spec _ angle (ceil_fuel_enough (angle - PI)))
    as (Hle & _).
  set (lowered := normalizeAngle_lower _ angle) in *.
  destruct (normalizeAngle_raise_spec _ lowered (ceil_fuel_enough (- PI - lowered)))
    as (Hge & _).
  lra.
Qed.

Lemma trig_period_Z (t : number) (k : Z) :
  cos (t + 2 * IZR k * PI) = cos t /\ sin (t + 2 * IZR k * PI) = sin t.
Proof.
  destruct (Z_lt_le_dec k 0) as [Hneg|Hpos].
  - rewrite <- (cos_period (t + 2 * IZR k * PI) (Z.to_nat (- k))).
    rewrite <- (sin_period (t + 2 * IZR k * PI) (Z.to_nat (- k))).
    rewrite INR_IZR_INZ, Z2Nat.id, opp_IZR by lia.
    split; f_equal; lra.
  - rewrite <- (Z2Nat.id k), <- INR_IZR_INZ by done.
    split; [apply cos_period|apply sin_period].
Qed.

(** X10: [normalizeAngle] returns an angle in [-PI, PI] that differs from
    its argument by a whole number of turns, so it stands for the same
    direction; applied to its own result it changes nothing. *)
Theorem normalizeAngle_range (angle m : number) :
  - PI <= normalizeAngle angle <= PI /\
  (exists k : Z, normalizeAngle angle = angle + 2 * IZR k * PI) /\
  vec2.fromAngle (normalizeAngle angle) m = vec2.fromAngle angle m /\
  normalizeAngle (normalizeAngle angle) = normalizeAngle angle.
Proof.
  pose proof PI_RGT_0 as Hpi.
  assert (Hspec : forall t,
            - PI <= normalizeAngle t <= PI /\
            (exists k : Z, normalizeAngle t = t + 2 * IZR k * PI) /\
            (- PI <= t <= PI -> normalizeAngle t = t)).
  { intros t. unfold normalizeAngle. cbv zeta.
    destruct (normalizeAngle_lower_spec _ t (ceil_fuel_enough (t - PI)))
      as (Hle & Hsame & Hlow & n & Hn).
    set (lowered := normalizeAngle_lower _ t) in *.
    destruct (normalizeAngle_raise_spec _ lowered (ceil_fuel_enough (- PI - lowered)))
      as (Hge & Hsame' & Hhigh & n' & Hn').
    set (raised := normalizeAngle_raise _ lowered) in *.
    split; [|split].
    - split; [done|]. destruct (Rle_dec (- PI) lowered) as [Hin|Hout].
      + rewrite Hsame' by done. done.
      + apply Rlt_le, Hhigh. lra.
    - exists (Z.of_nat n' - Z.of_nat n)%Z.
      rewrite minus_IZR, <- !INR_IZR_INZ, Hn', Hn. lra.
    - intros [H1 H2]. rewrite Hsame', Hsame; lra. }
  destruct (Hspec angle) as (Hrange & [k Hk] & _).
  split; [done|]. split; [by exists k|]. split.
  - unfold vec2.fromAngle. rewrite Hk.
    destruct (trig_period_Z angle k) as [-> ->]. done.
  - by apply Hspec.
Qed.

(** ** utils/geometry.ts: the Gaussian kernel *)

(** X11: for a radius other than 0 the Gaussian weight is positive, the
    same for a distance and its opposite, never larger at a larger
    distance, and largest, [1 / (PI R^2)], at distance 0. *)
Theorem gaussian_kernel (d1 d2 R0 : number) :
  R0 <> 0 -> Rabs d1 <= Rabs d2 ->
  0 < gaussian d2 R0 <= gaussian d1 R0 /\
  gaussian d1 R0 <= gaussian 0 R0 /\
  gaussian 0 R0 = 1 / (PI * (R0 * R0)) /\
  gaussian (- d1) R0 = gaussian d1 R0.
Proof.
  intros HR Hd. pose proof PI_RGT_0 as Hpi.
  assert (HRsq : 0 < R0 * R0) by nra.
  assert (Hscale : 0 < 1 / (PI * (R0 * R0))).
  { apply Rdiv_lt_0_compat; [lra|]. by apply Rmult_lt_0_compat. }
  assert (Hmono : forall u v, u <= v -> exp u <= exp v).
  { intros u v [Hlt| ->]; [left; by apply exp_increasing|right; done]. }
  assert (Hsq : forall u v, u * u <= v * v ->
            - (v * v) / (R0 * R0) <= - (u * u) / (R0 * R0)).
  { intros u v Huv. unfold Rdiv. apply Rmult_le_compat_r; [|lra].
    apply Rlt_le. by apply Rinv_0_lt_compat. }
  unfold gaussian. cbv zeta. repeat split.
  - apply Rmult_lt_0_compat; [done|apply exp_pos].
  - apply Rmult_le_compat_l; [lra|]. apply Hmono, Hsq.
    apply Rsqr_le_abs_1 in Hd. done.
  - apply Rmult_le_compat_l; [lra|]. apply Hmono, Hsq.
    pose proof (Rle_0_sqr d1) as H. unfold Rsqr in H. lra.
  - replace (- (0 * 0) / (R0 * R0)) with 0 by (field; lra). rewrite exp_0. ring.
  - replace (- d1 * - d1) with (d1 * d1) by ring. reflexivity.
Qed.

Lemma gaussian_kernel_witness :
  0 < gaussian 2 0.7 <= gaussian (-1) 0.7 /\
  gaussian (-1) 0.7 <= gaussian 0 0.7 /\
  gaussian 0 0.7 = 1 / (PI * (0.7 * 0.7)) /\
  gaussian (- -1) 0.7 = gaussian (-1) 0.7.
Proof.
  apply (gaussian_kernel (-1) 2 0.7); [lra|].
  rewrite Rabs_left, Rabs_right; lra.
Defined.

(** ** simulation/vision.ts: one direction *)

Lemma with_position_same (other : Pedestrian) :
  with_position other other.(position) = other.
Proof. by destruct other. Qed.

(** X12: without periodic images, sample [i] of [computeVision] is what
    [getDistanceInDirection] returns for the direction of that sample,
    the heading plus [-phi + i * angularResolution], and the horizon
    [dMax]. *)
Theorem computeVision_sample_getDistanceInDirection
    (pedestrian : Pedestrian) (others : list Pedestrian) (walls : list Wall)
    (params : SimulationParams) (bounds : option Bounds) (h : number) (i : nat) :
  (i < Z.to_nat (visionNumSteps params))%nat ->
  let vision := computeVision pedestrian others walls params bounds false (Some h) in
  let alpha := - params.(phi) + INR i * params.(angularResolution) in
  vision.(angles) !! i = Some alpha /\
  vision.(distances) !! i =
    Some (getDistanceInDirection pedestrian (h + alpha) others walls params.(dMax)).
Proof.
  intros Hi. cbv zeta. split; [by apply computeVision_angle_lookup|].
  unfold computeVision. cbv zeta. cbn [distances].
  rewrite !list_lookup_fmap, indices_lookup by done. cbn [fmap option_fmap option_map snd].
  f_equal. unfold visionAlpha. rewrite <- INR_IZR_INZ.
  unfold getDistanceInDirection, visionWalls, visionOthers. cbv zeta.
  f_equal. apply foldl_ext_in. intros minDist other.
  case_decide; [done|]. destruct (negb (active other)); [done|].
  destruct bounds; by rewrite with_position_same.
Qed.

Lemma computeVision_sample_getDistanceInDirection_witness :
  let vision := computeVision walkerA [walkerA; walkerB] [] coarseParams (Some hall) false
                              (Some 0) in
  let alpha := - coarseParams.(phi) + INR 1 * coarseParams.(angularResolution) in
  vision.(angles) !! 1%nat = Some alpha /\
  vision.(distances) !! 1%nat =
    Some (getDistanceInDirection walkerA (0 + alpha) [walkerA; walkerB] []
                                 coarseParams.(dMax)).
Proof.
  apply (computeVision_sample_getDistanceInDirection walkerA [walkerA; walkerB] []
           coarseParams (Some hall) 0 1).
  rewrite visionNumSteps_coarse. simpl. lia.
Defined.

(** ** simulation/vision.ts: the time of contact *)

Lemma quadratic_root (A B C s t : number) :
  A <> 0 -> s * s = B * B - 4 * A * C -> 2 * A * t = - B - s ->
  A * t * t + B * t + C = 0.
Proof.
  intros HA Hs Ht.
  assert (H : 4 * A * (A * t * t + B * t + C) = 0).
  { replace (4 * A * (A * t * t + B * t + C))
      with (2 * A * t * (2 * A * t) + 2 * B * (2 * A * t) + 4 * A * C) by ring.
    rewrite Ht. lra. }
  apply Rmult_integral in H as [H|H]; [lra|done].
Qed.

Lemma quadratic_no_root (A B C s t : number) :
  s * s = B * B - 4 * A * C ->
  (2 * A * t + B + s) * (2 * A * t + B - s) <> 0 ->
  A * t * t + B * t + C <> 0.
Proof.
  intros Hs Hne Hq. apply Hne.
  replace ((2 * A * t + B + s) * (2 * A * t + B - s))
    with (4 * A * (A * t * t + B * t + C) + (B * B - 4 * A * C - s * s)) by ring.
  rewrite Hq, <- Hs. ring.
Qed.

(** X13: when two discs are apart and [collisionDistancePedestrian]
    returns less than the horizon for a candidate velocity that is not
    zero, then after the time it takes to walk that distance at the
    candidate speed the two discs touch, the centres being the sum of the
    radii apart; that time is later than 1e-6, and at no time between 1e-6
    and it do they touch. *)
Theorem collisionDistancePedestrian_contact
    (pi pj : Pedestrian) (vCandidate : Vec2) (dMax0 : number) :
  (pi.(radius) + pj.(radius)) * (pi.(radius) + pj.(radius))
    < vec2.distanceSquared pj.(position) pi.(position) ->
  0 < vec2.length vCandidate ->
  collisionDistancePedestrian pi pj vCandidate dMax0 < dMax0 ->
  let t := collisionDistancePedestrian pi pj vCandidate dMax0 / vec2.length vCandidate in
  1e-6 < t /\
  gapSquaredAfter pi pj vCandidate t
    = (pi.(radius) + pj.(radius)) * (pi.(radius) + pj.(radius)) /\
  forall t', 1e-6 < t' < t ->
    gapSquaredAfter pi pj vCandidate t'
      <> (pi.(radius) + pj.(radius)) * (pi.(radius) + pj.(radius)).
Proof.
  intros Hapart Hspeed.
  unfold vec2.distanceSquared, vec2.lengthSquared, vec2.sub in Hapart. cbn [x y] in Hapart.
  unfold collisionDistancePedestrian. cbv zeta.
  set (dx := x (position pj) - x (position pi)) in *.
  set (dy := y (position pj) - y (position pi)) in *.
  set (dvx := x (velocity pj) - x vCandidate).
  set (dvy := y (velocity pj) - y vCandidate).
  set (cr := radius pi + radius pj) in *.
  set (A := dvx * dvx + dvy * dvy).
  set (B := 2 * (dvx * dx + dvy * dy)).
  set (C := dx * dx + dy * dy - cr * cr).
  set (speed := vec2.length vCandidate) in *.
  assert (Hgap : forall u, gapSquaredAfter pi pj vCandidate u
                           = A * u * u + B * u + C + cr * cr).
  { intros u. unfold gapSquaredAfter, vec2.distanceSquared, vec2.lengthSquared,
      vec2.sub, vec2.add, vec2.scale, A, B, C, dx, dy, dvx, dvy.
    cbn [x y]. ring. }
  rewrite decide_False by lra.
  destruct (decide (A < 1e-10)) as [HA|HA].
  { rewrite decide_False by (unfold C; lra). lra. }
  destruct (decide (B * B - 4 * A * C < 0)) as [Hdisc|Hdisc]; [lra|].
  set (s := sqrt (B * B - 4 * A * C)).
  assert (Hs : s * s = B * B - 4 * A * C) by (apply sqrt_sqrt; lra).
  assert (Hs0 : 0 <= s) by apply sqrt_pos.
  assert (Ht1 : 2 * A * ((- B - s) / (2 * A)) = - B - s) by (field; lra).
  assert (Ht2 : 2 * A * ((- B + s) / (2 * A)) = - B + s) by (field; lra).
  assert (Hwalk : forall t, speed * t < dMax0 -> Rmin (speed * t) dMax0 / speed = t).
  { intros t Ht. rewrite Rmin_left by lra. field. lra. }
  assert (Hshort : forall t, Rmin (speed * t) dMax0 < dMax0 -> speed * t < dMax0).
  { intros t. unfold Rmin. destruct (Rle_dec (speed * t) dMax0); lra. }
  clearbody s A B C speed.
  destruct (decide ((- B - s) / (2 * A) > 1e-6)) as [Hfirst|Hfirst].
  { intros Hd. cbv zeta. rewrite Hwalk by auto.
    set (t := (- B - s) / (2 * A)) in *.
    split; [lra|]. split.
    - rewrite Hgap, (quadratic_root A B C s t); lra.
    - intros t' [Hlow Hhigh]. rewrite Hgap.
      assert (Hne : A * t' * t' + B * t' + C <> 0); [|lra].
      apply (quadratic_no_root A B C s); [done|].
      assert (H2 : 2 * A * t' < 2 * A * t) by (apply Rmult_lt_compat_l; lra).
      assert (0 < (- (2 * A * t' + B + s)) * (- (2 * A * t' + B - s)))
        by (apply Rmult_lt_0_compat; lra).
      lra. }
  destruct (decide ((- B + s) / (2 * A) > 1e-6)) as [Hsecond|Hsecond]; [|lra].
  intros Hd. cbv zeta. rewrite Hwalk by auto.
  set (t1 := (- B - s) / (2 * A)) in *.
  set (t := (- B + s) / (2 * A)) in *.
  split; [lra|]. split.
  - rewrite Hgap, (quadratic_root A B C (- s) t); lra.
  - intros t' [Hlow Hhigh]. rewrite Hgap.
    assert (Hne : A * t' * t' + B * t' + C <> 0); [|lra].
    apply (quadratic_no_root A B C s); [done|].
    assert (H1 : 2 * A * t1 < 2 * A * t') by (apply Rmult_lt_compat_l; lra).
    assert (H2 : 2 * A * t' < 2 * A * t) by (apply Rmult_lt_compat_l; lra).
    assert (0 < (2 * A * t' + B + s) * (- (2 * A * t' + B - s)))
      by (apply Rmult_lt_0_compat; lra).
    lra.
Qed.

Lemma collisionDistancePedestrian_contact_witness :
  let v := {| x := 1; y := 0 |} in
  let t := collisionDistancePedestrian walkerA walkerB v 10 / vec2.length v in
  1e-6 < t /\
  gapSquaredAfter walkerA walkerB v t
    = (walkerA.(radius) + walkerB.(radius)) * (walkerA.(radius) + walkerB.(radius)) /\
  forall t', 1e-6 < t' < t ->
    gapSquaredAfter walkerA walkerB v t'
      <> (walkerA.(radius) + walkerB.(radius)) * (walkerA.(radius) + walkerB.(radius)).
Proof.
  apply (collisionDistancePedestrian_contact walkerA walkerB {| x := 1; y := 0 |} 10).
  - unfold vec2.distanceSquared, vec2.lengthSquared, vec2.sub. simpl. lra.
  - rewrite (vec2_length_eq _ 1); simpl; lra.
  - rewrite (collisionDistancePedestrian_hit _ _ _ _ 1 0.5 1); [|simpl; lra..].
    unfold Rmin. destruct (Rle_dec (1 * 0.5) 10); lra.
Defined.

(** ** simulation/physics.ts: who gets a contact force *)

Lemma foldl_lookup_kept {A B : Type} (f : list A -> B -> list A) (n : nat) (l : list B) :
  (forall forces b, f forces b !! n = forces !! n) ->
  forall forces, foldl f forces l !! n = forces !! n.
Proof.
  intros Hkept. induction l as [|b l IH]; intros forces; [done|].
  cbn [foldl]. by rewrite IH, Hkept.
Qed.

Lemma foldl_unchanged_in {A B : Type} (f : A -> B -> A) (l : list B) (a : A) :
  (forall b, b ∈ l -> f a b = a) -> foldl f a l = a.
Proof.
  induction l as [|b l IH]; intros Hsame; [done|].
  cbn [foldl]. rewrite Hsame by apply list_elem_of_here.
  apply IH. intros b' Hb'. apply Hsame. by apply list_elem_of_further.
Qed.

Lemma fmap_const_replicate {A B : Type} (v : B) (l : list A) :
  (fun _ => v) <$> l = replicate (length l) v.
Proof. induction l as [|a l IH]; [done|]. cbn. by rewrite <- IH. Qed.

Section ContactEntries.

Variables (pedestrians : list Pedestrian) (params : SimulationParams).
Variables (bounds : option Bounds) (periodic : bool).

Lemma contactPair_lookup_inactive n pn i pi forces j :
  pedestrians !! n = Some pn -> pn.(active) = false -> i <> n ->
  contactPair pedestrians params bounds periodic i pi forces j !! n = forces !! n.
Proof.
  intros Hn Hactive Hi. unfold contactPair.
  destruct (pedestrians !! j) as [pj|] eqn:Hj; [|done].
  destruct (active pj) eqn:Hpj; cbn [negb]; [|done].
  cbv zeta. case_decide; [|done].
  assert (j <> n) by (intros ->; congruence).
  by rewrite !list_lookup_alter_ne.
Qed.

Lemma contactWall_lookup_ne n i pi forces wall :
  i <> n -> contactWall params i pi forces wall !! n = forces !! n.
Proof.
  intros Hi. unfold contactWall. cbv zeta. case_decide; [|done].
  by rewrite list_lookup_alter_ne.
Qed.

Lemma contactAgent_lookup_inactive walls n pn forces i :
  pedestrians !! n = Some pn -> pn.(active) = false ->
  contactAgent pedestrians walls params bounds periodic forces i !! n = forces !! n.
Proof.
  intros Hn Hactive. unfold contactAgent.
  destruct (pedestrians !! i) as [pi|] eqn:Hi; [|done].
  destruct (active pi) eqn:Hpi; cbn [negb]; [|done].
  assert (i <> n) by (intros ->; congruence).
  rewrite foldl_lookup_kept; [|intros; by apply contactWall_lookup_ne].
  apply foldl_lookup_kept. intros. by eapply contactPair_lookup_inactive.
Qed.

Lemma contactPair_quiet i pi forces j :
  (forall pj, pedestrians !! j = Some pj -> pj.(active) = true ->
     pi.(radius) + pj.(radius) <= vec2.length (contactDelta bounds periodic pi pj)) ->
  contactPair pedestrians params bounds periodic i pi forces j = forces.
Proof.
  intros Hapart. unfold contactPair.
  destruct (pedestrians !! j) as [pj|] eqn:Hj; [|done].
  destruct (active pj) eqn:Hpj; cbn [negb]; [|done].
  specialize (Hapart pj eq_refl Hpj). unfold contactDelta in Hapart.
  cbv zeta. rewrite decide_False; [done|]. lra.
Qed.

Lemma contactWall_quiet i pi forces wall :
  pi.(radius) <= distanceToSegment pi.(position) wall.(start) wall.(end_) ->
  contactWall params i pi forces wall = forces.
Proof.
  intros Hapart. unfold contactWall. cbv zeta. rewrite decide_False; [done|]. lra.
Qed.

End ContactEntries.

(** X14: an inactive pedestrian gets the zero force, and it exerts none:
    putting any other inactive pedestrian in its place changes no entry of
    the force array. *)
Theorem computeContactForces_inactive
    (pedestrians : list Pedestrian) (walls : list Wall) (params : SimulationParams)
    (bounds : option Bounds) (periodic : bool) (n : nat) (ped ped' : Pedestrian) :
  pedestrians !! n = Some ped -> ped.(active) = false -> ped'.(active) = false ->
  computeContactForces pedestrians walls params bounds periodic !! n = Some vec2.zero /\
  computeContactForces (<[n := ped']> pedestrians) walls params bounds periodic
    = computeContactForces pedestrians walls params bounds periodic.
Proof.
  intros Hn Hactive Hactive'. split.
  - unfold computeContactForces. cbv zeta.
    rewrite foldl_lookup_kept; [|intros; by eapply contactAgent_lookup_inactive].
    by rewrite list_lookup_fmap, Hn.
  - pose proof (lookup_lt_Some _ _ _ Hn) as Hlt.
    unfold computeContactForces. cbv zeta.
    rewrite list_fmap_insert, length_insert.
    rewrite (list_insert_id _ n vec2.zero) by (by rewrite list_lookup_fmap, Hn).
    apply foldl_ext_in. intros forces i. unfold contactAgent.
    destruct (decide (i = n)) as [->|Hi].
    + rewrite list_lookup_insert_eq, Hn by done. by rewrite Hactive, Hactive'.
    + rewrite list_lookup_insert_ne by done.
      destruct (pedestrians !! i) as [pi|]; [|done].
      destruct (active pi); cbn [negb]; [|done].
      rewrite length_insert. f_equal.
      apply foldl_ext_in. intros forces' j. unfold contactPair.
      destruct (decide (j = n)) as [->|Hj].
      * rewrite list_lookup_insert_eq, Hn by done. by rewrite Hactive, Hactive'.
      * by rewrite list_lookup_insert_ne by done.
Qed.

Lemma computeContactForces_inactive_witness :
  let out := {| id := 1; position := {| x := 0.2; y := 0 |}; velocity := vec2.zero;
                mass := 80; radius := 0.25; desiredSpeed := 1;
                destination := {| x := 0; y := 0 |}; direction := 1; active := false |} in
  let gone := with_position out {| x := 30; y := 0 |} in
  computeContactForces [walkerA; out] [] coarseParams None false !! 1%nat
    = Some vec2.zero /\
  computeContactForces (<[1%nat := gone]> [walkerA; out]) [] coarseParams None false
    = computeContactForces [walkerA; out] [] coarseParams None false.
Proof.
  intros out gone.
  apply (computeContactForces_inactive [walkerA; out] [] coarseParams None false 1 out gone);
    reflexivity.
Defined.

(** X15: where no two active pedestrians overlap and no active pedestrian
    overlaps a wall, every contact force is zero. *)
Theorem computeContactForces_no_contact
    (pedestrians : list Pedestrian) (walls : list Wall) (params : SimulationParams)
    (bounds : option Bounds) (periodic : bool) :
  (forall i j pi pj, (i < j)%nat ->
     pedestrians !! i = Some pi -> pedestrians !! j = Some pj ->
     pi.(active) = true -> pj.(active) = true ->
     pi.(radius) + pj.(radius) <= vec2.length (contactDelta bounds periodic pi pj)) ->
  (forall pi wall, pi ∈ pedestrians -> wall ∈ walls -> pi.(active) = true ->
     pi.(radius) <= distanceToSegment pi.(position) wall.(start) wall.(end_)) ->
  computeContactForces pedestrians walls params bounds periodic
    = replicate (length pedestrians) vec2.zero.
Proof.
  intros Hpairs Hwalls. unfold computeContactForces. cbv zeta.
  rewrite <- fmap_const_replicate. apply foldl_unchanged_in.
  intros i _. unfold contactAgent.
  destruct (pedestrians !! i) as [pi|] eqn:Hi; [|done].
  destruct (active pi) eqn:Hpi; cbn [negb]; [|done].
  rewrite (foldl_unchanged_in (contactPair _ _ _ _ _ _)).
  - apply foldl_unchanged_in. intros wall Hwall. apply contactWall_quiet.
    apply Hwalls; [by eapply list_elem_of_lookup_2|done..].
  - intros j Hj. apply contactPair_quiet. intros pj Hpj Hactive.
    apply elem_of_seq in Hj. apply (Hpairs i j); [lia|done..].
Qed.

Lemma computeContactForces_no_contact_witness :
  computeContactForces [walkerA; walkerB] [] coarseParams (Some hall) false
    = replicate (length [walkerA; walkerB]) vec2.zero.
Proof.
  apply (computeContactForces_no_contact [walkerA; walkerB] [] coarseParams (Some hall)
           false).
  - intros i j pi pj Hij Hi Hj _ _.
    destruct i as [|[|i]], j as [|[|j]]; try lia; try done.
    cbn in Hi, Hj. simplify_eq.
    unfold contactDelta. rewrite (vec2_length_eq _ 1); simpl; lra.
  - intros pi wall _ Hwall. by apply elem_of_nil in Hwall.
Defined.

(** X16: two active pedestrians that overlap, with centres more than 1e-10
    apart and no walls, push each other apart along the line of centres:
    the first gets the vector from the second to it scaled to the length
    [|k| * overlap], the second gets the opposite force. *)
Theorem computeContactForces_two_bodies
    (p q : Pedestrian) (params : SimulationParams) (bounds : option Bounds)
    (periodic : bool) :
  p.(active) = true -> q.(active) = true ->
  vec2.length (contactDelta bounds periodic p q) > 1e-10 ->
  p.(radius) + q.(radius) - vec2.length (contactDelta bounds periodic p q) > 0 ->
  let delta := contactDelta bounds periodic p q in
  let overlap := p.(radius) + q.(radius) - vec2.length delta in
  exists force,
    computeContactForces [p; q] [] params bounds periodic
      = [force; vec2.scale force (-1)] /\
    force = vec2.scale delta (params.(k) * overlap / vec2.length delta) /\
    vec2.length force = Rabs params.(k) * overlap.
Proof.
  intros Hp Hq Hdist Hoverlap. cbv zeta.
  set (delta := contactDelta bounds periodic p q) in *.
  set (dist := vec2.length delta) in *.
  eexists. split; [|split; [reflexivity|]].
  - unfold computeContactForces, contactAgent.
    cbn [length seq foldl lookup list_lookup fmap list_fmap Nat.sub].
    rewrite Hp, Hq. cbn [negb foldl]. unfold contactPair.
    cbn [lookup list_lookup]. rewrite Hq. cbn [negb]. cbv zeta.
    change (match bounds with
            | Some bounds0 =>
                if periodic then periodicDisplacement (position q) (position p) bounds0
                else vec2.sub (position p) (position q)
            | None => vec2.sub (position p) (position q)
            end) with delta.
    fold dist. rewrite !decide_True by done.
    cbn [alter list_alter]. destruct delta as [ux uy].
    unfold vec2.add, vec2.sub, vec2.scale, vec2.zero. cbn [x y].
    f_equal; [|f_equal]; f_equal; field; lra.
  - rewrite vec2_length_scale. fold dist.
    unfold Rdiv. rewrite !Rabs_mult, (Rabs_right (_ - _)), (Rabs_right (/ dist)).
    + field. lra.
    + apply Rle_ge, Rlt_le, Rinv_0_lt_compat. lra.
    + lra.
Qed.

Lemma computeContactForces_two_bodies_witness :
  let q := with_position walkerB {| x := 0.4; y := 0 |} in
  let delta := contactDelta None false walkerA q in
  let overlap := walkerA.(radius) + q.(radius) - vec2.length delta in
  exists force,
    computeContactForces [walkerA; q] [] coarseParams None false
      = [force; vec2.scale force (-1)] /\
    force = vec2.scale delta (coarseParams.(k) * overlap / vec2.length delta) /\
    vec2.length force = Rabs coarseParams.(k) * overlap.
Proof.
  assert (Hlen : vec2.length (contactDelta None false walkerA
                                (with_position walkerB {| x := 0.4; y := 0 |})) = 0.4).
  { unfold contactDelta. apply vec2_length_eq; simpl; lra. }
  apply (computeContactForces_two_bodies walkerA
           (with_position walkerB {| x := 0.4; y := 0 |}) coarseParams None false);
    try reflexivity; rewrite Hlen; simpl; lra.
Defined.

(** ** simulation/physics.ts and metrics/compression.ts: compression *)

Lemma compressionContacts_acc
    (pedestrian : Pedestrian) (bounds : option Bounds) (periodic : bool)
    (others : list Pedestrian) :
  forall (total : number) (count : nat),
  let step_ := fun '(totalOverlap, contactCount) other =>
    if decide (other.(id) = pedestrian.(id)) then (totalOverlap, contactCount)
    else if negb other.(active) then (totalOverlap, contactCount)
    else
      let delta :=
        match bounds with
        | Some bounds =>
            if periodic then
              periodicDisplacement other.(position) pedestrian.(position) bounds
            else vec2.sub pedestrian.(position) other.(position)
        | None => vec2.sub pedestrian.(position) other.(position)
        end in
      let dist := vec2.length delta in
      let overlap := pedestrian.(radius) + other.(radius) - dist in
      if decide (overlap > 0) then (totalOverlap + overlap, S contactCount)
      else (totalOverlap, contactCount) in
  let body := fun totalOverlap other =>
    if decide (other.(id) = pedestrian.(id)) then totalOverlap
    else if negb other.(active) then totalOverlap
    else
      let delta :=
        match bounds with
        | Some bounds =>
            if periodic then
              periodicDisplacement other.(position) pedestrian.(position) bounds
            else vec2.sub pedestrian.(position) other.(position)
        | None => vec2.sub pedestrian.(position) other.(position)
        end in
      let dist := vec2.length delta in
      let overlap := pedestrian.(radius) + other.(radius) - dist in
      if decide (overlap > 0) then totalOverlap + overlap else totalOverlap in
  let r := foldl step_ (total, count) others in
  r.1 = foldl body total others /\ total <= r.1 /\ (count <= r.2)%nat /\
  (r.2 = count -> r.1 = total).
Proof.
  induction others as [|other others IH]; intros total count; cbv zeta.
  - cbn [foldl fst snd]. repeat split; try done; lra.
  - cbn [foldl]. cbv zeta in IH.
    case_decide; [apply IH|]. destruct (negb (active other)); [apply IH|].
    case_decide as Hoverlap; [|apply IH].
    match goal with |- context [foldl _ (total + ?o, S count) others] =>
      destruct (IH (total + o) (S count)) as (H1 & H2 & H3 & H4) end.
    repeat split; [done|lra|lia|]. intros Heq. lia.
Qed.

(** X17: the compression of [computeCompression] is the total overlap
    that [computeBodyCompression] returns, divided by the number of
    overlapping neighbours: it is not negative and never more than that
    total, and the two are zero together. *)
Theorem computeCompression_average
    (pedestrian : Pedestrian) (others : list Pedestrian) (bounds : option Bounds)
    (periodic : bool) :
  let contacts := compressionContacts pedestrian others bounds periodic in
  contacts.1 = computeBodyCompression pedestrian others bounds periodic /\
  computeCompression pedestrian others bounds periodic * INR contacts.2
    = computeBodyCompression pedestrian others bounds periodic /\
  0 <= computeCompression pedestrian others bounds periodic
    <= computeBodyCompression pedestrian others bounds periodic /\
  (computeCompression pedestrian others bounds periodic = 0 <->
   computeBodyCompression pedestrian others bounds periodic = 0).
Proof.
  cbv zeta. unfold computeCompression, computeBodyCompression, compressionContacts.
  pose proof (compressionContacts_acc pedestrian bounds periodic others 0 0) as H.
  cbv zeta in H. destruct H as (Hbody & Hpos & _ & Hnone).
  rewrite <- Hbody.
  match goal with |- context [foldl ?f (0, 0%nat) others] =>
    destruct (foldl f (0, 0%nat) others) as [total count] end.
  cbn [fst snd] in *.
  case_decide as Hcount.
  - assert (Hc : 1 <= INR count) by (apply (le_INR 1); lia).
    assert (Hinv : 0 < / INR count) by (apply Rinv_0_lt_compat; lra).
    assert (Hle : total / INR count <= total).
    { unfold Rdiv. rewrite <- (Rmult_1_r total) at 2.
      apply Rmult_le_compat_l; [done|].
      rewrite <- Rinv_1. apply Rinv_le_contravar; lra. }
    assert (Hge : 0 <= total / INR count).
    { unfold Rdiv. apply Rmult_le_pos; lra. }
    repeat split; try done.
    + field. lra.
    + intros Hz. replace total with (total / INR count * INR count) by (field; lra).
      rewrite Hz. ring.
    + intros ->. unfold Rdiv. ring.
  - assert (count = 0%nat) as -> by lia. rewrite Hnone by done.
    cbn [INR]. repeat split; try done; lra.
Qed.

(** ** simulation/simulation.ts: what a step changes *)

Lemma advance_spec walls params bounds periodic others force ped ped' :
  advance walls params bounds periodic others force ped = Some ped' ->
  exists alphaDes speedDes,
    let heading := stepHeading periodic ped in
    let vision :=
      computeVision ped others walls params (Some bounds) periodic (Some heading) in
    computeDesiredVelocity ped.(desiredSpeed) vision.(angles) vision.(distances) params
      = Some (alphaDes, speedDes) /\
    let vDes := vec2.fromAngle (heading + alphaDes) speedDes in
    let relaxation := vec2.scale (vec2.sub vDes ped.(velocity)) (1 / params.(tau)) in
    let contactAccel := vec2.scale force (1 / ped.(mass)) in
    let velocity' :=
      vec2.add ped.(velocity)
               (vec2.scale (vec2.add relaxation contactAccel) params.(dt)) in
    let position' := vec2.add ped.(position) (vec2.scale velocity' params.(dt)) in
    ped' = moved ped velocity'
                 (if periodic then wrapPosition position' bounds else position').
Proof.
  unfold advance. cbv zeta.
  destruct (computeDesiredVelocity _ _ _ _) as [[alphaDes speedDes]|];
    cbn [mbind option_bind]; [|done].
  intros [= <-]. by exists alphaDes, speedDes.
Qed.

Lemma sameBody_moved (ped : Pedestrian) (v p : Vec2) : sameBody ped (moved ped v p).
Proof. reflexivity. Qed.

Lemma sameBody_refl (ped : Pedestrian) : sameBody ped ped.
Proof. by destruct ped. Qed.

Lemma sameBody_trans (p q r : Pedestrian) : sameBody p q -> sameBody q r -> sameBody p r.
Proof. unfold sameBody, moved. intros Hq Hr. rewrite Hr, Hq. reflexivity. Qed.

(** What the agent loop of a step returns, for parameters with which the
    vision has at least one sample. *)
Lemma stepPedestrians_spec
    (env : Environment) (prm : SimulationParams) (peds : list Pedestrian) :
  prm.(phi) > 0 -> prm.(angularResolution) > 0 ->
  let periodic := bool_decide (env.(boundaryType) = periodic) in
  let forces := computeContactForces peds env.(walls) prm (Some env.(bounds)) periodic in
  exists after,
    stepPedestrians env prm peds = Some after /\
    length after = length peds /\
    forall i ped, peds !! i = Some ped ->
      if ped.(active) then
        exists force ped',
          forces !! i = Some force /\
          advance env.(walls) prm env.(bounds) periodic (seenBy peds after i) force ped
            = Some ped' /\
          after !! i = Some ped'
      else after !! i = Some ped.
Proof.
  intros Hphi Hres. cbv zeta.
  pose proof (visionNumSteps_pos prm Hphi Hres) as Hn.
  destruct env as [walls0 kind bounds0]. cbn [walls bounds boundaryType].
  set (wraps := bool_decide (kind = periodic)).
  set (forces := computeContactForces peds walls0 prm (Some bounds0) wraps).
  assert (Hforces : length forces = length peds) by apply computeContactForces_length.
  destruct (stepAgents_total forces walls0 prm bounds0 wraps (length peds) 0
              peds Hn ltac:(lia) Hforces) as [after Hrun].
  exists after.
  destruct (stepAgents_in_place forces walls0 prm bounds0 wraps (length peds) 0
              peds after Hrun ltac:(lia)) as (Hlen & _ & Hagents).
  split; [|split; [done|]].
  - unfold stepPedestrians. fold wraps. fold forces. done.
  - intros i ped Hped. apply Hagents; [lia|done].
Qed.

(** X18: a step moves pedestrians and does nothing else to them: for
    parameters with a positive half-angle and resolution the agent loop
    returns a population of the same size in which every pedestrian has
    kept its id, mass, radius, desired speed, destination, direction and
    activity, and an inactive pedestrian its position and velocity too. *)
Theorem stepPedestrians_frame
    (env : Environment) (prm : SimulationParams) (peds : list Pedestrian) :
  prm.(phi) > 0 -> prm.(angularResolution) > 0 ->
  exists after,
    stepPedestrians env prm peds = Some after /\
    Forall2 (fun ped ped' => sameBody ped ped' /\ (ped.(active) = false -> ped' = ped))
            peds after.
Proof.
  intros Hphi Hres.
  destruct (stepPedestrians_spec env prm peds Hphi Hres) as (after & Hrun & Hlen & Hagents).
  exists after. split; [done|].
  apply Forall2_same_length_lookup_2; [done|].
  intros i ped ped' Hped Hped'. specialize (Hagents i ped Hped).
  destruct (active ped).
  - destruct Hagents as (force & ped'' & _ & Hadv & Hafter).
    assert (ped'' = ped') as -> by congruence.
    apply advance_spec in Hadv as (al & sp & _ & ->). cbv zeta.
    split; [apply sameBody_moved|done].
  - assert (ped' = ped) as -> by congruence. split; [apply sameBody_refl|done].
Qed.

Lemma stepPedestrians_frame_witness :
  exists after,
    stepPedestrians openFloor coarseParams [walkerA; walkerB] = Some after /\
    Forall2 (fun ped ped' => sameBody ped ped' /\ (ped.(active) = false -> ped' = ped))
            [walkerA; walkerB] after.
Proof.
  apply (stepPedestrians_frame openFloor coarseParams [walkerA; walkerB]);
    simpl; pose proof PI_RGT_0; lra.
Defined.

(** X19: on a torus with [xMin < xMax] and [yMin < yMax] a step leaves
    every active pedestrian inside the bounds, wherever it was before. *)
Theorem stepPedestrians_periodic_inside
    (env : Environment) (prm : SimulationParams) (peds : list Pedestrian) :
  prm.(phi) > 0 -> prm.(angularResolution) > 0 ->
  env.(boundaryType) = periodic ->
  env.(bounds).(xMin) < env.(bounds).(xMax) ->
  env.(bounds).(yMin) < env.(bounds).(yMax) ->
  exists after,
    stepPedestrians env prm peds = Some after /\
    forall ped', ped' ∈ after -> ped'.(active) = true ->
                 insideBounds env.(bounds) ped'.(position).
Proof.
  intros Hphi Hres Hkind Hx Hy.
  destruct (stepPedestrians_spec env prm peds Hphi Hres) as (after & Hrun & Hlen & Hagents).
  exists after. split; [done|].
  intros ped' Hin Hactive. apply list_elem_of_lookup_1 in Hin as [i Hi].
  destruct (lookup_lt_is_Some_2 peds i) as [ped Hped].
  { rewrite <- Hlen. by eapply lookup_lt_Some. }
  specialize (Hagents i ped Hped). destruct (active ped) eqn:Hped_active.
  - destruct Hagents as (force & ped'' & _ & Hadv & Hafter).
    assert (ped'' = ped') as -> by congruence.
    apply advance_spec in Hadv as (al & sp & _ & ->). cbv zeta.
    rewrite bool_decide_eq_true_2 by done. cbn [moved position].
    unfold insideBounds, wrapPosition. cbn [x y].
    split; by apply wrapValue_in_range.
  - assert (ped' = ped) by congruence. congruence.
Qed.

Lemma stepPedestrians_periodic_inside_witness :
  exists after,
    stepPedestrians torusFloor coarseParams [walkerA; walkerB] = Some after /\
    forall ped', ped' ∈ after -> ped'.(active) = true ->
                 insideBounds torusFloor.(bounds) ped'.(position).
Proof.
  apply (stepPedestrians_periodic_inside torusFloor coarseParams [walkerA; walkerB]);
    try reflexivity; simpl; pose proof PI_RGT_0; lra.
Defined.

(** ** simulation/simulation.ts: several steps *)

Lemma step_plain (sim : Simulation) :
  sim.(onStepCallbacks) = [] ->
  sim.(world).(params).(phi) > 0 -> sim.(world).(params).(angularResolution) > 0 ->
  exists after,
    step sim =
      Some {| world := mkWorld after sim.(world).(environment) sim.(world).(params)
                               (sim.(world).(time) + sim.(world).(params).(dt));
              onStepCallbacks := [] |} /\
    Forall2 sameBody sim.(world).(pedestrians) after.
Proof.
  destruct sim as [[before env prm tm] callbacks].
  cbn [world pedestrians environment params time onStepCallbacks].
  intros -> Hphi Hres.
  destruct (stepPedestrians_spec env prm before Hphi Hres)
    as (after & Hrun & Hlen & Hagents).
  exists after. split.
  - unfold step. cbn [world onStepCallbacks]. rewrite Hrun. reflexivity.
  - apply Forall2_same_length_lookup_2; [done|].
    intros i ped ped' Hped Hped'. specialize (Hagents i ped Hped).
    destruct (active ped).
    + destruct Hagents as (force & ped'' & _ & Hadv & Hafter).
      assert (ped'' = ped') as -> by congruence.
      apply advance_spec in Hadv as (al & sp & _ & ->). apply sameBody_moved.
    + assert (ped' = ped) as -> by congruence. apply sameBody_refl.
Qed.

Lemma Forall2_sameBody_trans (l k m : list Pedestrian) :
  Forall2 sameBody l k -> Forall2 sameBody k m -> Forall2 sameBody l m.
Proof.
  intros Hlk Hkm.
  apply Forall2_same_length_lookup in Hlk as [Hlen1 Hlk].
  apply Forall2_same_length_lookup in Hkm as [Hlen2 Hkm].
  apply Forall2_same_length_lookup_2; [congruence|].
  intros i p r Hp Hr.
  destruct (lookup_lt_is_Some_2 k i) as [q Hq].
  { rewrite <- Hlen1. by eapply lookup_lt_Some. }
  eapply sameBody_trans; eauto.
Qed.

Lemma stepN_loop_spec (turns : nat) : forall sim : Simulation,
  sim.(onStepCallbacks) = [] ->
  sim.(world).(params).(phi) > 0 -> sim.(world).(params).(angularResolution) > 0 ->
  exists after,
    stepN_loop turns sim =
      Some {| world := mkWorld after sim.(world).(environment) sim.(world).(params)
                               (sim.(world).(time)
                                + INR turns * sim.(world).(params).(dt));
              onStepCallbacks := [] |} /\
    Forall2 sameBody sim.(world).(pedestrians) after.
Proof.
  induction turns as [|turns IH]; intros sim Hcb Hphi Hres.
  - exists sim.(world).(pedestrians). split.
    + destruct sim as [[before env prm tm] callbacks]. cbn in Hcb. subst callbacks.
      cbn [stepN_loop world pedestrians environment params time INR].
      do 3 f_equal. lra.
    + apply Forall2_same_length_lookup_2; [done|].
      intros i p q Hp Hq. assert (q = p) as -> by congruence. apply sameBody_refl.
  - destruct (step_plain sim Hcb Hphi Hres) as (mid & Hstep & Hmid).
    cbn [stepN_loop]. rewrite Hstep. cbn [mbind option_bind].
    match goal with |- context [stepN_loop turns ?s] =>
      destruct (IH s eq_refl Hphi Hres) as (after & Hrun & Hafter) end.
    cbn [world pedestrians environment params time] in Hrun, Hafter.
    exists after. split.
    + rewrite Hrun. rewrite S_INR. do 3 f_equal. lra.
    + by eapply Forall2_sameBody_trans.
Qed.

(** X20: without step hooks and with a positive half-angle and
    resolution, [stepN(n)] takes [ceil n] steps for a positive [n] and none
    otherwise: it returns, the clock has advanced by that many times [dt],
    the environment and the parameters are the same, and the population
    is the same pedestrians, moved. *)
Theorem stepN_clock (n : number) (sim : Simulation) :
  sim.(onStepCallbacks) = [] ->
  sim.(world).(params).(phi) > 0 -> sim.(world).(params).(angularResolution) > 0 ->
  let turns := Z.to_nat (Math_ceil n) in
  exists after,
    stepN n sim =
      Some {| world := mkWorld after sim.(world).(environment) sim.(world).(params)
                               (sim.(world).(time)
                                + INR turns * sim.(world).(params).(dt));
              onStepCallbacks := [] |} /\
    Forall2 sameBody sim.(world).(pedestrians) after /\
    (n <= 0 -> turns = 0%nat) /\
    (forall m : nat, n = INR m -> turns = m).
Proof.
  intros Hcb Hphi Hres. cbv zeta.
  destruct (stepN_loop_spec (Z.to_nat (Math_ceil n)) sim Hcb Hphi Hres)
    as (after & Hrun & Hafter).
  exists after. split; [done|]. split; [done|]. unfold Math_ceil. split.
  - intros Hn. pose proof (Zceil_bound n) as [Hlt _].
    assert (IZR (Zceil n) < 1) as Hc by lra. apply lt_IZR in Hc. lia.
  - intros m ->. rewrite INR_IZR_INZ, (Zceil_eq (Z.of_nat m)) by lra. lia.
Qed.

Lemma stepN_clock_witness :
  let sim := crossing [walkerA; walkerB] in
  let turns := Z.to_nat (Math_ceil 2.5) in
  exists after,
    stepN 2.5 sim =
      Some {| world := mkWorld after sim.(world).(environment) sim.(world).(params)
                               (sim.(world).(time)
                                + INR turns * sim.(world).(params).(dt));
              onStepCallbacks := [] |} /\
    Forall2 sameBody sim.(world).(pedestrians) after /\
    (2.5 <= 0 -> turns = 0%nat) /\
    (forall m : nat, 2.5 = INR m -> turns = m).
Proof.
  apply (stepN_clock 2.5 (crossing [walkerA; walkerB]));
    try reflexivity; simpl; pose proof PI_RGT_0; lra.
Defined.

(** ** simulation/simulation.ts: how fast a step can make a pedestrian *)

Lemma vec2_dot_le (u w : Vec2) : vec2.dot u w <= vec2.length u * vec2.length w.
Proof.
  pose proof (vec2_length_nonneg u) as Hu. pose proof (vec2_length_nonneg w) as Hw.
  pose proof (vec2_length_sqr u) as Hu2. pose proof (vec2_length_sqr w) as Hw2.
  unfold vec2.lengthSquared in Hu2, Hw2.
  set (a := vec2.length u) in *. set (b := vec2.length w) in *.
  unfold vec2.dot. destruct u as [ux uy], w as [wx wy]. cbn [x y] in *.
  assert (Hab : 0 <= a * b) by (by apply Rmult_le_pos).
  assert (Hcs : (ux * wx + uy * wy)² <= (a * b)²).
  { unfold Rsqr.
    replace (a * b * (a * b)) with (a * a * (b * b)) by ring. rewrite Hu2, Hw2.
    pose proof (Rle_0_sqr (ux * wy - uy * wx)) as H. unfold Rsqr in H. lra. }
  apply Rsqr_le_abs_0 in Hcs. rewrite (Rabs_right (a * b)) in Hcs by lra.
  pose proof (Rle_abs (ux * wx + uy * wy)). lra.
Qed.

Lemma vec2_length_add_le (u w : Vec2) :
  vec2.length (vec2.add u w) <= vec2.length u + vec2.length w.
Proof.
  pose proof (vec2_length_nonneg u) as Hu. pose proof (vec2_length_nonneg w) as Hw.
  pose proof (vec2_length_sqr u) as Hu2. pose proof (vec2_length_sqr w) as Hw2.
  pose proof (vec2_dot_le u w) as Hdot.
  unfold vec2.lengthSquared in Hu2, Hw2. unfold vec2.dot in Hdot.
  rewrite <- (sqrt_square (vec2.length u + vec2.length w)) by lra.
  unfold vec2.length at 1. apply sqrt_le_1_alt.
  set (a := vec2.length u) in *. set (b := vec2.length w) in *.
  destruct u as [ux uy], w as [wx wy]. unfold vec2.add. cbn [x y] in *. lra.
Qed.

Lemma vec2_fromAngle_length (theta m : number) :
  vec2.length (vec2.fromAngle theta m) = Rabs m.
Proof.
  unfold vec2.length, vec2.fromAngle. cbn [x y].
  replace (cos theta * m * (cos theta * m) + sin theta * m * (sin theta * m))
    with (((sin theta)² + (cos theta)²) * m²) by (unfold Rsqr; ring).
  rewrite sin2_cos2, Rmult_1_l. apply sqrt_Rsqr_abs.
Qed.

(** The distance chosen by the heuristics is one of the samples. *)
Lemma computeDesiredVelocity_sample
    (desiredSpeed0 : number) (angles0 distances0 : list number)
    (params : SimulationParams) (al sp : number) :
  computeDesiredVelocity desiredSpeed0 angles0 distances0 params = Some (al, sp) ->
  al ∈ angles0 /\
  exists f, f ∈ distances0 /\ sp = selectSpeed desiredSpeed0 f params.(tau).
Proof.
  unfold computeDesiredVelocity, selectDirection. cbv zeta.
  cbn [alphaDes distanceToObstacle].
  destruct (angles0 !! _) as [al'|] eqn:Hal; cbn [mbind option_bind]; [|done].
  destruct (distances0 !! _) as [f|] eqn:Hf; cbn [mbind option_bind]; [|done].
  intros [= <- <-]. split; [by eapply list_elem_of_lookup_2|].
  exists f. split; [by eapply list_elem_of_lookup_2|done].
Qed.

Lemma computeVision_distance_range
    pedestrian others walls params bounds periodic heading (d : number) :
  0 <= params.(dMax) ->
  d ∈ (computeVision pedestrian others walls params bounds periodic heading).(distances) ->
  0 <= d <= params.(dMax).
Proof.
  intros HdMax Hd. unfold computeVision in Hd. cbn [distances] in Hd.
  apply list_elem_of_fmap in Hd as ([al d'] & -> & Hd).
  apply list_elem_of_fmap in Hd as (i & Heq & _).
  injection Heq as _ ->. cbn [snd].
  apply visionWalls_bounds, visionOthers_bounds. lra.
Qed.

(** X21: a step cannot speed a pedestrian up beyond what the relaxation
    and the contact force allow.  With [0 < dt <= tau], a horizon and a
    desired speed that are not negative and a positive mass, the new
    speed is at most the old one weighted by [1 - dt/tau], plus the
    desired speed weighted by [dt/tau], plus [dt] times the contact force
    over the mass.  With no contact force it is at most the larger of
    the old speed and the desired speed. *)
Theorem advance_speed_bound
    (walls : list Wall) (params : SimulationParams) (bounds : Bounds) (periodic : bool)
    (others : list Pedestrian) (force : Vec2) (ped ped' : Pedestrian) :
  advance walls params bounds periodic others force ped = Some ped' ->
  0 < params.(dt) <= params.(tau) -> 0 <= params.(dMax) ->
  0 <= ped.(desiredSpeed) -> 0 < ped.(mass) ->
  vec2.length ped'.(velocity)
    <= (1 - params.(dt) / params.(tau)) * vec2.length ped.(velocity)
       + params.(dt) / params.(tau) * ped.(desiredSpeed)
       + params.(dt) * vec2.length force / ped.(mass) /\
  (force = vec2.zero ->
   vec2.length ped'.(velocity) <= Rmax (vec2.length ped.(velocity)) ped.(desiredSpeed)).
Proof.
  intros Hadv [Hdt Htau] HdMax Hspeed Hmass.
  apply advance_spec in Hadv as (al & sp & Hdes & ->). cbv zeta in *.
  apply computeDesiredVelocity_sample in Hdes as (_ & f & Hf & ->).
  apply computeVision_distance_range in Hf as [Hf0 Hf1]; [|done].
  cbn [moved velocity].
  set (lam := params.(dt) / params.(tau)).
  assert (Hlam : 0 < lam <= 1).
  { unfold lam. split; [apply Rdiv_lt_0_compat; lra|].
    apply (Rmult_le_reg_r (tau params)); [lra|].
    replace (dt params / tau params * tau params) with (dt params) by (field; lra).
    lra. }
  set (sp := selectSpeed (desiredSpeed ped) f (tau params)).
  assert (Hsp : 0 <= sp <= desiredSpeed ped).
  { unfold sp, selectSpeed. split; [|apply Rmin_l].
    apply Rmin_glb; [done|]. apply Rmult_le_pos; [done|].
    apply Rlt_le, Rinv_0_lt_compat. lra. }
  set (vDes := vec2.fromAngle (stepHeading periodic ped + al) sp).
  assert (HvDes : vec2.length vDes = sp).
  { unfold vDes.
    rewrite vec2_fromAngle_length. apply Rabs_right. lra. }
  set (v := velocity ped) in *.
  assert (Hsplit :
    vec2.add v (vec2.scale (vec2.add (vec2.scale (vec2.sub vDes v) (1 / tau params))
                                     (vec2.scale force (1 / mass ped))) (dt params))
    = vec2.add (vec2.add (vec2.scale v (1 - lam)) (vec2.scale vDes lam))
               (vec2.scale force (dt params / mass ped))).
  { unfold lam. destruct v as [vx vy], vDes as [wx wy], force as [fx fy].
    unfold vec2.add, vec2.scale, vec2.sub. cbn [x y]. f_equal; field; lra. }
  rewrite Hsplit.
  assert (Hbound :
    vec2.length (vec2.add (vec2.add (vec2.scale v (1 - lam)) (vec2.scale vDes lam))
                          (vec2.scale force (dt params / mass ped)))
    <= (1 - lam) * vec2.length v + lam * sp + dt params * vec2.length force / mass ped).
  { etransitivity; [apply vec2_length_add_le|].
    apply Rplus_le_compat.
    - etransitivity; [apply vec2_length_add_le|].
      rewrite !vec2_length_scale, HvDes, !Rabs_right by lra. lra.
    - rewrite vec2_length_scale, Rabs_right.
      + right. field. lra.
      + apply Rle_ge, Rlt_le. apply Rdiv_lt_0_compat; lra. }
  pose proof (vec2_length_nonneg v) as Hv.
  split.
  - etransitivity; [apply Hbound|].
    assert (lam * sp <= lam * desiredSpeed ped) by (apply Rmult_le_compat_l; lra).
    lra.
  - intros ->. etransitivity; [apply Hbound|].
    replace (vec2.length vec2.zero) with 0.
    2:{ unfold vec2.length, vec2.zero. cbn [x y].
        replace (0 * 0 + 0 * 0) with 0 by ring. by rewrite sqrt_0. }
    pose proof (Rmax_l (vec2.length v) (desiredSpeed ped)) as Hl.
    pose proof (Rmax_r (vec2.length v) (desiredSpeed ped)) as Hr.
    set (top := Rmax (vec2.length v) (desiredSpeed ped)) in *.
    assert ((1 - lam) * vec2.length v <= (1 - lam) * top)
      by (apply Rmult_le_compat_l; lra).
    assert (lam * sp <= lam * top) by (apply Rmult_le_compat_l; lra).
    replace (dt params * 0 / mass ped) with 0 by (field; lra). lra.
Qed.

Lemma advance_speed_bound_witness :
  vec2.length walkerA1.(velocity)
    <= (1 - coarseParams.(dt) / coarseParams.(tau)) * vec2.length walkerA.(velocity)
       + coarseParams.(dt) / coarseParams.(tau) * walkerA.(desiredSpeed)
       + coarseParams.(dt) * vec2.length vec2.zero / walkerA.(mass) /\
  (vec2.zero = vec2.zero ->
   vec2.length walkerA1.(velocity)
     <= Rmax (vec2.length walkerA.(velocity)) walkerA.(desiredSpeed)).
Proof.
  apply (advance_speed_bound [] coarseParams hall false [walkerA; walkerB] vec2.zero
           walkerA walkerA1 advance_walkerA_first); simpl; lra.
Defined.

(** ** simulation/pedestrian.ts: ids and placement *)

Lemma keepsIds_ret {A : Type} (v : A) : keepsIds (ret v).
Proof. by intros rt. Qed.

Lemma keepsIds_random : keepsIds Math_random.
Proof. by intros rt. Qed.

Lemma keepsIds_bind {A B : Type} (m : Run A) (f : A -> Run B) :
  keepsIds m -> (forall v, keepsIds (f v)) -> keepsIds (bind m f).
Proof.
  intros Hm Hf rt. unfold bind. specialize (Hm rt).
  destruct (m rt) as [v rt']. cbn [snd] in Hm. destruct Hm as [<- <-]. apply Hf.
Qed.

Lemma keepsIds_randomNormal (mean std : number) : keepsIds (randomNormal mean std).
Proof.
  unfold randomNormal. cbv zeta.
  repeat (apply keepsIds_bind; [apply keepsIds_random|intros ?]). apply keepsIds_ret.
Qed.

Lemma createPedestrian_spec (options : PedestrianOptions.t) (rt : Runtime) :
  let ped := (createPedestrian options rt).1 in
  let rt' := (createPedestrian options rt).2 in
  ped.(id) = rt.(nextId) /\
  rt'.(nextId) = (rt.(nextId) + 1)%Z /\
  rt'.(randoms) = rt.(randoms) /\
  ped.(position) = options.(PedestrianOptions.position) /\
  ped.(velocity) = default vec2.zero options.(PedestrianOptions.velocity) /\
  ped.(radius) = ped.(mass) / 320 /\
  ped.(destination) = options.(PedestrianOptions.destination) /\
  ped.(direction) = default 1 options.(PedestrianOptions.direction) /\
  ped.(active) = true /\
  match options.(PedestrianOptions.mass) with
  | Some m => ped.(mass) = m
  | None => ped.(mass) = 60 + rt.(randoms) rt.(drawn) * 40
  end /\
  match options.(PedestrianOptions.desiredSpeed) with
  | Some s => ped.(desiredSpeed) = s
  | None => 0.5 <= ped.(desiredSpeed)
  end.
Proof.
  destruct options as [pos dest m speed vel dir]. cbv zeta.
  unfold createPedestrian, bind, ret.
  cbn [PedestrianOptions.mass PedestrianOptions.desiredSpeed PedestrianOptions.position
       PedestrianOptions.destination PedestrianOptions.velocity
       PedestrianOptions.direction].
  destruct m as [m|], speed as [s|], vel as [v|];
    cbn -[Rmax]; rewrite ?vec2_copy_id; repeat split; try done; apply Rmax_l.
Qed.

(** X22: pedestrians get their ids from one counter: a pedestrian takes
    the value of the counter and leaves it one higher, so two created one
    after the other have consecutive ids, and after [resetPedestrianIds]
    the next one has id 0. *)
Theorem createPedestrian_ids (first second : PedestrianOptions.t) (rt : Runtime) :
  let one := createPedestrian first rt in
  let two := createPedestrian second one.2 in
  one.1.(id) = rt.(nextId) /\
  two.1.(id) = (one.1.(id) + 1)%Z /\
  two.2.(nextId) = (rt.(nextId) + 2)%Z /\
  (createPedestrian first (resetPedestrianIds rt).2).1.(id) = 0%Z.
Proof.
  cbv zeta.
  pose proof (createPedestrian_spec first rt) as H1. cbv zeta in H1.
  destruct H1 as (Hid1 & Hnext1 & _).
  pose proof (createPedestrian_spec second (createPedestrian first rt).2) as H2.
  cbv zeta in H2. destruct H2 as (Hid2 & Hnext2 & _).
  pose proof (createPedestrian_spec first (resetPedestrianIds rt).2) as H3.
  cbv zeta in H3. destruct H3 as (Hid3 & _).
  repeat split; [done|congruence|lia|].
  rewrite Hid3. reflexivity.
Qed.

Lemma placementLoop_placed
    (count maxAttempts : nat) (b : Bounds) (destinationFn : Vec2 -> nat -> Vec2)
    (options : option AreaOptions.t) (id0 : Z) (draws : nat -> number) (fuel : nat) :
  (forall n, 0 <= draws n < 1) ->
  b.(xMin) <= b.(xMax) -> b.(yMin) <= b.(yMax) ->
  forall (peds : list Pedestrian) (attempts : nat) (rt : Runtime)
         (r : list Pedestrian * nat * Runtime),
  rt.(randoms) = draws -> rt.(nextId) = (id0 + Z.of_nat (length peds))%Z ->
  (forall i p, peds !! i = Some p -> placed id0 b destinationFn options i p) ->
  placementLoop fuel count maxAttempts b destinationFn options peds attempts rt = r ->
  r.2.(nextId) = (id0 + Z.of_nat (length r.1.1))%Z /\
  forall i p, r.1.1 !! i = Some p -> placed id0 b destinationFn options i p.
Proof.
  intros Hdraws Hx Hy.
  induction fuel as [|fuel IH]; intros peds attempts rt r Hrandoms Hnext Hpeds Hrun.
  - cbn [placementLoop] in Hrun. by subst r.
  - cbn [placementLoop] in Hrun. case_decide as Hguard; [|by subst r].
    unfold bind at 1 in Hrun. pose proof (keepsIds_random rt) as [Hn1 Hr1].
    pose proof (Hdraws (drawn rt)) as Hrx.
    assert (Hrxv : (Math_random rt).1 = draws (drawn rt))
      by (by rewrite <- Hrandoms).
    destruct (Math_random rt) as [rx rt1]. cbn [fst snd] in Hn1, Hr1, Hrxv. subst rx.
    unfold bind at 1 in Hrun. pose proof (keepsIds_random rt1) as [Hn2 Hr2].
    pose proof (Hdraws (drawn rt1)) as Hry.
    assert (Hryv : (Math_random rt1).1 = draws (drawn rt1))
      by (cbn; congruence).
    destruct (Math_random rt1) as [ry rt2]. cbn [fst snd] in Hn2, Hr2, Hryv. subst ry.
    cbv zeta in Hrun.
    set (position' := {| x := xMin b + draws (drawn rt) * (xMax b - xMin b);
                         y := yMin b + draws (drawn rt1) * (yMax b - yMin b) |}) in *.
    unfold bind at 1 in Hrun.
    match type of Hrun with context [let '(_, _) := ?e rt2 in _] =>
      assert (keepsIds e) as Hk
        by (destruct (options ≫= AreaOptions.uniformMass);
            [apply keepsIds_ret|
             apply keepsIds_bind; [apply keepsIds_random|intros; apply keepsIds_ret]]);
      destruct (Hk rt2) as [Hn3 Hr3]; clear Hk;
      destruct (e rt2) as [mass' rt3] end.
    cbn [snd] in Hn3, Hr3.
    destruct (existsb _ peds).
    + eapply IH; [| | |exact Hrun]; [congruence|congruence|done].
    + unfold bind at 1 in Hrun.
      match type of Hrun with context [let '(_, _) := ?e rt3 in _] =>
        assert (keepsIds e) as Hk
          by (destruct (options ≫= AreaOptions.desiredSpeedMean);
              (apply keepsIds_bind; [apply keepsIds_randomNormal|intros; apply keepsIds_ret]));
        assert (0.5 <= (e rt3).1) as Hspeed
          by (destruct (options ≫= AreaOptions.desiredSpeedMean); unfold bind, ret;
              destruct (randomNormal _ _ rt3); apply Rmax_l);
        destruct (Hk rt3) as [Hn4 Hr4]; clear Hk;
        destruct (e rt3) as [speed' rt4] end.
      cbn [fst snd] in Hn4, Hr4, Hspeed.
      unfold bind at 1 in Hrun.
      match type of Hrun with context [createPedestrian ?o rt4] =>
        pose proof (createPedestrian_spec o rt4) as Hspec;
        destruct (createPedestrian o rt4) as [ped rt5] end.
      cbv zeta in Hspec.
      cbn [fst snd PedestrianOptions.position PedestrianOptions.destination
           PedestrianOptions.mass PedestrianOptions.desiredSpeed
           PedestrianOptions.velocity PedestrianOptions.direction default] in Hspec.
      destruct Hspec as (Hid & Hnext5 & Hr5 & Hpos & Hvel & Hrad & Hdest & Hdir & Hact
                         & Hmass & Hspd).
      eapply IH; [| | |exact Hrun].
      * congruence.
      * rewrite length_app. cbn [length]. lia.
      * intros i p Hi.
        destruct (decide (i < length peds)%nat) as [Hlt|Hge].
        { rewrite lookup_app_l in Hi by done. by apply Hpeds. }
        rewrite lookup_app_r in Hi by lia.
        pose proof (lookup_lt_Some _ _ _ Hi) as Hone. cbn [length] in Hone.
        replace (i - length peds)%nat with 0%nat in Hi by lia. cbn in Hi.
        injection Hi as <-.
        assert (i = length peds) as -> by lia.
        unfold placed. rewrite Hpos. cbn [x y position'].
        assert (Hpx : xMin b <= xMin b + draws (drawn rt) * (xMax b - xMin b) <= xMax b).
        { assert (0 <= draws (drawn rt) * (xMax b - xMin b)) by (apply Rmult_le_pos; lra).
          assert (0 <= (1 - draws (drawn rt)) * (xMax b - xMin b))
            by (apply Rmult_le_pos; lra).
          lra. }
        assert (Hpy : yMin b <= yMin b + draws (drawn rt1) * (yMax b - yMin b) <= yMax b).
        { assert (0 <= draws (drawn rt1) * (yMax b - yMin b)) by (apply Rmult_le_pos; lra).
          assert (0 <= (1 - draws (drawn rt1)) * (yMax b - yMin b))
            by (apply Rmult_le_pos; lra).
          lra. }
        repeat split; try done; try lra; try lia.
        destruct (options ≫= AreaOptions.uniformMass); [done|].
        rewrite Hmass. pose proof (Hdraws (drawn rt4)) as Hm.
        assert (randoms rt4 = draws) as -> by congruence. lra.
Qed.

(** X23: when the generator returns numbers in [0, 1) and the bounds are
    not inverted, [createPedestriansInArea] returns at most [count]
    pedestrians, each active, at rest, inside the bounds, with radius
    [mass / 320], desired speed at least 0.5 and the mass asked for (or
    one in [60, 100)), the destination and direction computed for its
    place and index, and the ids are consecutive from the counter. *)
Theorem createPedestriansInArea_population
    (count : nat) (b : Bounds) (destinationFn : Vec2 -> nat -> Vec2)
    (options : option AreaOptions.t) (rt : Runtime) :
  (forall n, 0 <= rt.(randoms) n < 1) ->
  b.(xMin) <= b.(xMax) -> b.(yMin) <= b.(yMax) ->
  let r := createPedestriansInArea count b destinationFn options rt in
  (length r.1 <= count)%nat /\
  r.2.(nextId) = (rt.(nextId) + Z.of_nat (length r.1))%Z /\
  forall i p, r.1 !! i = Some p -> placed rt.(nextId) b destinationFn options i p.
Proof.
  intros Hdraws Hx Hy. cbv zeta.
  split; [apply createPedestriansInArea_count|].
  unfold createPedestriansInArea, bind, ret. cbv zeta.
  destruct (placementLoop_placed count (count * 100) b destinationFn options
              rt.(nextId) rt.(randoms) (count * 100) Hdraws Hx Hy [] 0 rt
              _ eq_refl ltac:(cbn [length]; lia) ltac:(done) eq_refl)
    as [Hnext Hplaced].
  destruct (placementLoop _ _ _ _ _ _ _ _ _) as [[peds attempts] rt']. done.
Qed.

Lemma createPedestriansInArea_population_witness :
  let r := createPedestriansInArea 2 unitSquare toExit None steadyRuntime in
  (length r.1 <= 2)%nat /\
  r.2.(nextId) = (steadyRuntime.(nextId) + Z.of_nat (length r.1))%Z /\
  forall i p, r.1 !! i = Some p -> placed steadyRuntime.(nextId) unitSquare toExit None i p.
Proof.
  apply (createPedestriansInArea_population 2 unitSquare toExit None steadyRuntime);
    simpl; intros; lra.
Defined.

(** X24: with [uniformMass] the overlap test is made with the radius the
    pedestrian gets, so the population keeps the margin: every radius is
    [mass / 320], and any two of its pedestrians have their centres at
    least [mass / 160 + 0.05] apart, which is the sum of their radii and
    0.05. *)
Theorem createPedestriansInArea_uniform_apart
    (count : nat) (b : Bounds) (destinationFn : Vec2 -> nat -> Vec2)
    (opts : AreaOptions.t) (m : number) (rt : Runtime) :
  opts.(AreaOptions.uniformMass) = Some m ->
  let peds := (createPedestriansInArea count b destinationFn (Some opts) rt).1 in
  Forall (fun p => p.(radius) = m / 320) peds /\
  forall i j p q, i <> j -> peds !! i = Some p -> peds !! j = Some q ->
    m / 160 + 0.05 <= vec2.distance p.(position) q.(position).
Proof.
  intros Hum. cbv zeta.
  unfold createPedestriansInArea, bind, ret. cbv zeta.
  pose proof (placementLoop_separated count (count * 100) b destinationFn opts m
                (count * 100) Hum [] 0 rt) as H.
  cbv zeta in H. destruct H as [Hsep Hrad].
  { intros i j p q _ Hp. done. }
  { done. }
  destruct (placementLoop _ _ _ _ _ _ _ _ _) as [[peds attempts] rt'].
  cbn [fst] in *. split; [done|].
  assert (Hsym : forall u v, vec2.distance u v = vec2.distance v u).
  { intros u v. unfold vec2.distance, vec2.length, vec2.sub. cbn [x y]. f_equal. ring. }
  intros i j p q Hij Hp Hq.
  pose proof (proj1 (Forall_lookup _ _) Hrad i p Hp) as Hrp.
  pose proof (proj1 (Forall_lookup _ _) Hrad j q Hq) as Hrq.
  cbv beta in Hrp, Hrq.
  destruct (decide (i < j)%nat) as [Hlt|Hge].
  - pose proof (Hsep i j p q Hlt Hp Hq) as Hd. rewrite Hsym. lra.
  - pose proof (Hsep j i q p ltac:(lia) Hq Hp) as Hd. lra.
Qed.

Lemma createPedestriansInArea_uniform_apart_witness :
  let opts := AreaOptions.mk (Some 1.4) (Some 0.1) (Some 60) None in
  let peds := (createPedestriansInArea 2 unitSquare toExit (Some opts) packingRuntime).1 in
  Forall (fun p => p.(radius) = 60 / 320) peds /\
  forall i j p q, i <> j -> peds !! i = Some p -> peds !! j = Some q ->
    60 / 160 + 0.05 <= vec2.distance p.(position) q.(position).
Proof.
  apply (createPedestriansInArea_uniform_apart 2 unitSquare toExit
           (AreaOptions.mk (Some 1.4) (Some 0.1) (Some 60) None) 60 packingRuntime).
  reflexivity.
Defined.

(** ** simulation/environment.ts: where the walls are *)

Lemma distanceToSegment_at (p a b q : Vec2) (t0 t : number) :
  1e-10 <= vec2.lengthSquared (vec2.sub b a) ->
  vec2.dot (vec2.sub p a) (vec2.sub b a) / vec2.lengthSquared (vec2.sub b a) = t0 ->
  Rmax 0 (Rmin 1 t0) = t ->
  vec2.lerp a b t = q ->
  distanceToSegment p a b = vec2.distance p q.
Proof.
  intros Hlen Ht0 Ht Hq. unfold distanceToSegment. cbv zeta.
  destruct (closestPointOnSegment_param p a b Hlen) as [_ ->].
  by rewrite Ht0, Ht, Hq.
Qed.

Lemma vec2_distance_same_x (x0 y1 y2 : number) :
  vec2.distance {| x := x0; y := y1 |} {| x := x0; y := y2 |} = Rabs (y1 - y2).
Proof.
  unfold vec2.distance, vec2.length, vec2.sub. cbn [x y].
  replace ((x0 - x0) * (x0 - x0) + (y1 - y2) * (y1 - y2)) with ((y1 - y2)²)
    by (unfold Rsqr; ring).
  apply sqrt_Rsqr_abs.
Qed.

Lemma clamp_inside (t : number) : 0 <= t <= 1 -> Rmax 0 (Rmin 1 t) = t.
Proof. intros Ht. rewrite Rmin_right, Rmax_right; lra. Qed.

Lemma clamp_above (t : number) : 1 <= t -> Rmax 0 (Rmin 1 t) = 1.
Proof. intros Ht. rewrite Rmin_left, Rmax_right; lra. Qed.

Lemma clamp_below (t : number) : t <= 0 -> Rmax 0 (Rmin 1 t) = 0.
Proof. intros Ht. rewrite Rmin_right, Rmax_left; lra. Qed.

Lemma quotient_between (u w : number) : 0 < w -> 0 <= u <= w -> 0 <= u / w <= 1.
Proof.
  intros Hw Hu. split.
  - apply Rmult_le_pos; [lra|]. apply Rlt_le. by apply Rinv_0_lt_compat.
  - apply (Rmult_le_reg_r w); [done|].
    replace (u / w * w) with u by (field; lra). lra.
Qed.

(** X25: a corridor at least 1e-5 long is two walls, and for a point
    anywhere along it the distance to the first is its distance to the
    line [y = centerY + width / 2] and the distance to the second its
    distance to the line [y = centerY - width / 2]. *)
Theorem createCorridor_walls (length0 width centerY : number) (p : Vec2) :
  1e-5 <= length0 ->
  - (length0 / 2) <= p.(x) <= length0 / 2 ->
  exists top bottom,
    createCorridor length0 width (Some centerY) = Returns [top; bottom] /\
    distanceToSegment p top.(start) top.(end_)
      = Rabs (p.(y) - (centerY + width / 2)) /\
    distanceToSegment p bottom.(start) bottom.(end_)
      = Rabs (p.(y) - (centerY - width / 2)).
Proof.
  intros Hlong Hp. destruct p as [px py]. cbn [x y] in Hp.
  unfold createCorridor, createWall. cbv zeta.
  cbn [mbind mret Completion_bind Completion_ret default from_option Datatypes.id].
  eexists _, _. split; [reflexivity|]. cbn [start end_]. unfold vec2.copy. cbn [x y].
  cbv [default from_option Datatypes.id].
  assert (Hsq : 1e-10 <= length0 * length0) by nra.
  split.
  - rewrite <- vec2_distance_same_x with (x0 := px).
    apply (distanceToSegment_at _ _ _ _ ((px + length0 / 2) / length0)
                                ((px + length0 / 2) / length0)).
    + unfold vec2.lengthSquared, vec2.sub. cbn [x y]. lra.
    + unfold vec2.dot, vec2.lengthSquared, vec2.sub. cbn [x y]. field. lra.
    + apply clamp_inside. apply quotient_between; lra.
    + unfold vec2.lerp. cbn [x y]. f_equal; field; lra.
  - rewrite <- vec2_distance_same_x with (x0 := px).
    apply (distanceToSegment_at _ _ _ _ ((length0 / 2 - px) / length0)
                                ((length0 / 2 - px) / length0)).
    + unfold vec2.lengthSquared, vec2.sub. cbn [x y]. lra.
    + unfold vec2.dot, vec2.lengthSquared, vec2.sub. cbn [x y]. field. lra.
    + apply clamp_inside. apply quotient_between; lra.
    + unfold vec2.lerp. cbn [x y]. f_equal; field; lra.
Qed.

Lemma createCorridor_walls_witness :
  let p := {| x := 1; y := 0.5 |} in
  exists top bottom,
    createCorridor 10 4 (Some 0) = Returns [top; bottom] /\
    distanceToSegment p top.(start) top.(end_) = Rabs (p.(y) - (0 + 4 / 2)) /\
    distanceToSegment p bottom.(start) bottom.(end_) = Rabs (p.(y) - (0 - 4 / 2)).
Proof.
  apply (createCorridor_walls 10 4 0 {| x := 1; y := 0.5 |}); simpl; lra.
Defined.

Lemma createCorridorWithDoor_closed
    (length0 width doorWidth py : number) (doorPosition : DoorPosition) :
  doorPosition <> door_right -> 1e-5 <= width ->
  - (width / 2) <= py <= width / 2 ->
  exists top bottom leftEnd rightEnd,
    createCorridorWithDoor length0 width doorWidth (Some doorPosition)
      = Returns [top; bottom; leftEnd; rightEnd] /\
    distanceToSegment {| x := length0 / 2; y := py |} rightEnd.(start) rightEnd.(end_) = 0.
Proof.
  intros Hside Hwide Hpy.
  assert (Hsq : 1e-10 <= width * width) by nra.
  destruct doorPosition; [|done|];
    (unfold createCorridorWithDoor, createWall; cbv zeta;
     cbn [mbind mret Completion_bind Completion_ret default from_option Datatypes.id app];
     eexists _, _, _, _; (split; [reflexivity|]); cbn [start end_]; unfold vec2.copy;
     cbn [x y];
     rewrite <- (Rabs_R0), <- (Rminus_diag py),
       <- vec2_distance_same_x with (x0 := length0 / 2);
     apply (distanceToSegment_at _ _ _ _ ((width / 2 - py) / width)
                                 ((width / 2 - py) / width));
     [unfold vec2.lengthSquared, vec2.sub; cbn [x y]; lra
     |unfold vec2.dot, vec2.lengthSquared, vec2.sub; cbn [x y]; field; lra
     |apply clamp_inside; apply quotient_between; lra
     |unfold vec2.lerp; cbn [x y]; f_equal; field; lra]).
Qed.

(** X26: [createCorridorWithDoor] opens a door only for ['right'].  There
    the right end is two pieces, and a point of the end line between
    [-doorWidth / 2] and [doorWidth / 2] is [doorWidth / 2 - y] from the
    upper piece and [y + doorWidth / 2] from the lower one.  For ['left']
    and ['center'] the right end is one wall from top to bottom, and
    such a point is on that wall. *)
Theorem createCorridorWithDoor_opening
    (length0 width doorWidth py : number) (doorPosition : DoorPosition) :
  0 <= doorWidth -> 1e-5 <= width / 2 - doorWidth / 2 ->
  - (doorWidth / 2) <= py <= doorWidth / 2 ->
  let p := {| x := length0 / 2; y := py |} in
  match doorPosition with
  | door_right =>
      exists top bottom leftEnd upper lower,
        createCorridorWithDoor length0 width doorWidth (Some doorPosition)
          = Returns [top; bottom; leftEnd; upper; lower] /\
        distanceToSegment p upper.(start) upper.(end_) = doorWidth / 2 - py /\
        distanceToSegment p lower.(start) lower.(end_) = py + doorWidth / 2
  | _ =>
      exists top bottom leftEnd rightEnd,
        createCorridorWithDoor length0 width doorWidth (Some doorPosition)
          = Returns [top; bottom; leftEnd; rightEnd] /\
        distanceToSegment p rightEnd.(start) rightEnd.(end_) = 0
  end.
Proof.
  intros Hdoor Hpiece Hpy. cbv zeta.
  destruct doorPosition;
    [apply createCorridorWithDoor_closed; [done|lra|lra]
    |
    |apply createCorridorWithDoor_closed; [done|lra|lra]].
  unfold createCorridorWithDoor, createWall. cbv zeta.
  cbn [mbind mret Completion_bind Completion_ret default from_option Datatypes.id app].
  eexists _, _, _, _, _. split; [reflexivity|]. cbn [start end_]. unfold vec2.copy.
  cbn [x y].
  set (gap := width / 2 - doorWidth / 2) in *.
  assert (Hgap : 1e-10 <= gap * gap) by nra.
  split.
  - replace (doorWidth / 2 - py) with (Rabs (py - doorWidth / 2))
      by (rewrite Rabs_left1; lra).
    rewrite <- vec2_distance_same_x with (x0 := length0 / 2).
    apply (distanceToSegment_at _ _ _ _ ((width / 2 - py) / gap) 1).
    + unfold vec2.lengthSquared, vec2.sub. cbn [x y]. unfold gap in *. lra.
    + unfold vec2.dot, vec2.lengthSquared, vec2.sub, gap. cbn [x y]. field.
      unfold gap in Hpiece. split; [lra|].
      assert (0 < (width - doorWidth) * (width - doorWidth))
        by (apply Rmult_lt_0_compat; lra).
      lra.
    + apply clamp_above. apply (Rmult_le_reg_r gap); [lra|].
      replace ((width / 2 - py) / gap * gap) with (width / 2 - py) by (field; lra).
      unfold gap. lra.
    + unfold vec2.lerp. cbn [x y]. f_equal; lra.
  - replace (py + doorWidth / 2) with (Rabs (py - - (doorWidth / 2)))
      by (rewrite Rabs_right; lra).
    rewrite <- vec2_distance_same_x with (x0 := length0 / 2).
    apply (distanceToSegment_at _ _ _ _ (- ((py + doorWidth / 2) / gap)) 0).
    + unfold vec2.lengthSquared, vec2.sub. cbn [x y]. unfold gap in *. lra.
    + unfold vec2.dot, vec2.lengthSquared, vec2.sub, gap. cbn [x y]. field.
      unfold gap in Hpiece. split; [lra|].
      assert (0 < (width - doorWidth) * (width - doorWidth))
        by (apply Rmult_lt_0_compat; lra).
      lra.
    + apply clamp_below.
      assert (0 <= (py + doorWidth / 2) / gap); [|lra].
      apply Rmult_le_pos; [lra|]. apply Rlt_le, Rinv_0_lt_compat. lra.
    + unfold vec2.lerp. cbn [x y]. f_equal; lra.
Qed.

Lemma createCorridorWithDoor_opening_witness :
  let p := {| x := 10 / 2; y := 0.2 |} in
  exists top bottom leftEnd upper lower,
    createCorridorWithDoor 10 4 1 (Some door_right)
      = Returns [top; bottom; leftEnd; upper; lower] /\
    distanceToSegment p upper.(start) upper.(end_) = 1 / 2 - 0.2 /\
    distanceToSegment p lower.(start) lower.(end_) = 0.2 + 1 / 2.
Proof.
  apply (createCorridorWithDoor_opening 10 4 1 0.2 door_right); lra.
Defined.

Lemma vec2_distance_same_y (x1 x2 y0 : number) :
  vec2.distance {| x := x1; y := y0 |} {| x := x2; y := y0 |} = Rabs (x1 - x2).
Proof.
  unfold vec2.distance, vec2.length, vec2.sub. cbn [x y].
  replace ((x1 - x2) * (x1 - x2) + (y0 - y0) * (y0 - y0)) with ((x1 - x2)²)
    by (unfold Rsqr; ring).
  apply sqrt_Rsqr_abs.
Qed.

Lemma lineFromPoints_normal (p1 p2 : Vec2) (len : number) :
  1e-10 <= len ->
  (p2.(y) - p1.(y)) * (p2.(y) - p1.(y)) + (p2.(x) - p1.(x)) * (p2.(x) - p1.(x))
    = len * len ->
  (lineFromPoints p1 p2).(line_a) = - (p2.(y) - p1.(y)) / len /\
  (lineFromPoints p1 p2).(line_b) = (p2.(x) - p1.(x)) / len.
Proof.
  intros Hlen Hsq. unfold lineFromPoints. cbv zeta.
  replace (- (y p2 - y p1) * - (y p2 - y p1) + (x p2 - x p1) * (x p2 - x p1))
    with (len * len) by lra.
  rewrite sqrt_square by lra. rewrite decide_False by lra. done.
Qed.

Ltac wall_distance t :=
  apply (distanceToSegment_at _ _ _ _ t t);
  [ unfold vec2.lengthSquared, vec2.sub; cbn [x y]; lra
  | unfold vec2.dot, vec2.lengthSquared, vec2.sub; cbn [x y]; field; repeat split; lra
  | apply clamp_inside; apply quotient_between; lra
  | unfold vec2.lerp; cbn [x y]; f_equal; field; lra ].

Ltac wall_normal p1 p2 len :=
  destruct (lineFromPoints_normal p1 p2 len) as [-> ->];
  [ lra | cbn [x y]; ring | cbn [x y]; f_equal; field; lra ].

(** X27: a rectangular room with sides of at least 1e-5 is four walls,
    bottom, right, top and left, whose normals point into the room, and
    the distance from a point of the room to each wall is its distance to
    that side. *)
Theorem createRectangularRoom_walls (xMin0 yMin0 xMax0 yMax0 : number) (p : Vec2) :
  1e-5 <= xMax0 - xMin0 -> 1e-5 <= yMax0 - yMin0 ->
  xMin0 <= p.(x) <= xMax0 -> yMin0 <= p.(y) <= yMax0 ->
  exists bottom right top left,
    createRectangularRoom xMin0 yMin0 xMax0 yMax0 = Returns [bottom; right; top; left] /\
    (fun w => distanceToSegment p w.(start) w.(end_)) <$> [bottom; right; top; left]
      = [p.(y) - yMin0; xMax0 - p.(x); yMax0 - p.(y); p.(x) - xMin0] /\
    normal <$> [bottom; right; top; left]
      = [{| x := 0; y := 1 |}; {| x := -1; y := 0 |};
         {| x := 0; y := -1 |}; {| x := 1; y := 0 |}].
Proof.
  intros Hwide Hhigh Hpx Hpy. destruct p as [px py]. cbn [x y] in *.
  assert (HW : 1e-10 <= (xMax0 - xMin0) * (xMax0 - xMin0)) by nra.
  assert (HH : 1e-10 <= (yMax0 - yMin0) * (yMax0 - yMin0)) by nra.
  unfold createRectangularRoom, createWall. cbv zeta.
  cbn [mbind mret Completion_bind Completion_ret].
  eexists _, _, _, _. split; [reflexivity|].
  cbn [fmap list_fmap start end_ normal]. unfold vec2.copy. cbn [x y].
  split.
  - f_equal; [|f_equal; [|f_equal; [|f_equal]]].
    + replace (py - yMin0) with (Rabs (py - yMin0)) by (apply Rabs_right; lra).
      rewrite <- vec2_distance_same_x with (x0 := px).
      wall_distance ((px - xMin0) / (xMax0 - xMin0)).
    + replace (xMax0 - px) with (Rabs (px - xMax0)) by (rewrite Rabs_left1; lra).
      rewrite <- vec2_distance_same_y with (y0 := py).
      wall_distance ((py - yMin0) / (yMax0 - yMin0)).
    + replace (yMax0 - py) with (Rabs (py - yMax0)) by (rewrite Rabs_left1; lra).
      rewrite <- vec2_distance_same_x with (x0 := px).
      wall_distance ((xMax0 - px) / (xMax0 - xMin0)).
    + replace (px - xMin0) with (Rabs (px - xMin0)) by (apply Rabs_right; lra).
      rewrite <- vec2_distance_same_y with (y0 := py).
      wall_distance ((yMax0 - py) / (yMax0 - yMin0)).
  - f_equal; [|f_equal; [|f_equal; [|f_equal]]].
    + wall_normal {| x := xMin0; y := yMin0 |} {| x := xMax0; y := yMin0 |}
                  (xMax0 - xMin0).
    + wall_normal {| x := xMax0; y := yMin0 |} {| x := xMax0; y := yMax0 |}
                  (yMax0 - yMin0).
    + wall_normal {| x := xMax0; y := yMax0 |} {| x := xMin0; y := yMax0 |}
                  (xMax0 - xMin0).
    + wall_normal {| x := xMin0; y := yMax0 |} {| x := xMin0; y := yMin0 |}
                  (yMax0 - yMin0).
Qed.

Lemma createRectangularRoom_walls_witness :
  let p := {| x := 1; y := 0.5 |} in
  exists bottom right top left,
    createRectangularRoom (-5) (-2) 5 2 = Returns [bottom; right; top; left] /\
    (fun w => distanceToSegment p w.(start) w.(end_)) <$> [bottom; right; top; left]
      = [p.(y) - -2; 5 - p.(x); 2 - p.(y); p.(x) - -5] /\
    normal <$> [bottom; right; top; left]
      = [{| x := 0; y := 1 |}; {| x := -1; y := 0 |};
         {| x := 0; y := -1 |}; {| x := 1; y := 0 |}].
Proof.
  apply (createRectangularRoom_walls (-5) (-2) 5 2 {| x := 1; y := 0.5 |}); simpl; lra.
Defined.

(** ** simulation/simulation.ts and metrics/localSpeed.ts: the average speed *)

Lemma totalSpeed_bounds (top : number) (l : list Pedestrian) : forall acc : number,
  (forall ped, ped ∈ l -> vec2.length ped.(velocity) <= top) ->
  acc <= foldl (fun totalSpeed ped => totalSpeed + vec2.length ped.(velocity)) acc l
      <= acc + INR (length l) * top.
Proof.
  induction l as [|ped l IH]; intros acc Hall.
  - cbn. lra.
  - cbn [foldl length]. rewrite S_INR.
    pose proof (vec2_length_nonneg ped.(velocity)) as Hpos.
    pose proof (Hall ped ltac:(apply list_elem_of_here)) as Hped.
    destruct (IH (acc + vec2.length ped.(velocity))) as [Hlow Hhigh].
    { intros q Hq. apply Hall. by apply list_elem_of_further. }
    split; lra.
Qed.

(** X28: the average speed in [getMetrics] is the one that
    [computeAverageSpeed] computes; it is 0 without active pedestrians,
    never negative, and no larger than any bound on the speeds of the
    active pedestrians; the count is that of the active pedestrians. *)
Theorem getMetrics_averageSpeed (sim : Simulation) (top : number) :
  0 <= top ->
  (forall ped, ped ∈ sim.(world).(pedestrians) -> ped.(active) = true ->
               vec2.length ped.(velocity) <= top) ->
  let metrics := getMetrics sim in
  metrics.(SimulationMetrics.averageSpeed) = computeAverageSpeed sim.(world).(pedestrians) /\
  0 <= metrics.(SimulationMetrics.averageSpeed) <= top /\
  metrics.(SimulationMetrics.pedestrianCount) = activeCount sim.(world).(pedestrians) /\
  (activeCount sim.(world).(pedestrians) = 0%nat ->
   metrics.(SimulationMetrics.averageSpeed) = 0).
Proof.
  destruct sim as [[peds [walls0 kind bounds0] prm tm] callbacks].
  cbn [world pedestrians]. intros Htop Hall. cbv zeta.
  unfold getMetrics, computeAverageSpeed, activeCount.
  cbn [world SimulationMetrics.averageSpeed SimulationMetrics.pedestrianCount].
  set (activePeds := filter (fun p => active p = true) peds).
  pose proof (totalSpeed_bounds top activePeds 0) as Hsum.
  destruct Hsum as [Hlow Hhigh].
  { intros ped Hped. apply list_elem_of_filter in Hped as [Hactive Hin]. by apply Hall. }
  set (totalSpeed := foldl _ 0 activePeds) in *.
  split; [|split; [|split; [done|]]].
  - destruct (decide (0 < length activePeds)%nat) as [Hsome|Hnone].
    + rewrite decide_False by lia. done.
    + rewrite decide_True by lia. done.
  - destruct (decide (0 < length activePeds)%nat) as [Hsome|Hnone]; [|lra].
    assert (Hn : 0 < INR (length activePeds)) by (apply (lt_INR 0); lia).
    split.
    + apply Rmult_le_pos; [lra|]. apply Rlt_le. by apply Rinv_0_lt_compat.
    + apply (Rmult_le_reg_r (INR (length activePeds))); [done|].
      replace (totalSpeed / INR (length activePeds) * INR (length activePeds))
        with totalSpeed by (field; lra).
      lra.
  - intros Hzero. rewrite decide_False by lia. done.
Qed.

Lemma getMetrics_averageSpeed_witness :
  let sim := crossing [walkerA; walkerB] in
  let metrics := getMetrics sim in
  metrics.(SimulationMetrics.averageSpeed) = computeAverageSpeed sim.(world).(pedestrians) /\
  0 <= metrics.(SimulationMetrics.averageSpeed) <= 1 /\
  metrics.(SimulationMetrics.pedestrianCount) = activeCount sim.(world).(pedestrians) /\
  (activeCount sim.(world).(pedestrians) = 0%nat ->
   metrics.(SimulationMetrics.averageSpeed) = 0).
Proof.
  apply (getMetrics_averageSpeed (crossing [walkerA; walkerB]) 1); [lra|].
  intros ped Hped _. cbn in Hped.
  assert (Hrest : vec2.length vec2.zero <= 1).
  { rewrite (vec2_length_eq _ 0); simpl; lra. }
  apply elem_of_cons in Hped as [->|Hped]; [exact Hrest|].
  apply elem_of_cons in Hped as [->|Hped]; [exact Hrest|].
  by apply elem_of_nil in Hped.
Defined.

(** ** scenarios/evacuation.ts: counting who has left *)

Lemma activeCount_app (l k : list Pedestrian) :
  activeCount (l ++ k) = (activeCount l + activeCount k)%nat.
Proof. unfold activeCount. by rewrite filter_app, length_app. Qed.

Lemma evacuation_onStep_fold (l : list Pedestrian) : forall (n : nat) (seen : list Pedestrian),
  let r :=
    foldl (fun '(evacuatedCount', seen) ped =>
      if negb ped.(active) then (evacuatedCount', seen ++ [ped])
      else if decide (ped.(position).(x)
                      > EvacuationScenario.bounds.(xMax) + 0.5) then
        (S evacuatedCount', seen ++ [EvacuationScenario.deactivated ped])
      else (evacuatedCount', seen ++ [ped])) (n, seen) l in
  exists out,
    r.2 = seen ++ out /\
    (r.1 + activeCount out = n + activeCount l)%nat /\
    Forall2 (fun ped ped' =>
               (ped.(active) = true /\ ped.(position).(x) > 5.5 /\
                ped' = EvacuationScenario.deactivated ped) \/
               (~ (ped.(active) = true /\ ped.(position).(x) > 5.5) /\ ped' = ped))
            l out.
Proof.
  induction l as [|ped l IH]; intros n seen; cbv zeta.
  - exists []. cbn. rewrite app_nil_r. split; [done|]. split; [lia|constructor].
  - cbn [foldl]. cbv zeta in IH.
    assert (Hcons : forall q k, activeCount (q :: k)
              = ((if active q then 1 else 0) + activeCount k)%nat).
    { intros q k. unfold activeCount. destruct (active q) eqn:Hq.
      - by rewrite filter_cons_True.
      - rewrite filter_cons_False; [done|]. congruence. }
    destruct (active ped) eqn:Hactive; cbn [negb].
    + destruct (decide (x (position ped) > xMax EvacuationScenario.bounds + 0.5))
        as [Hout|Hin].
      * destruct (IH (S n) (seen ++ [EvacuationScenario.deactivated ped]))
          as (out & Hseen & Hcount & Hrel).
        exists (EvacuationScenario.deactivated ped :: out).
        split; [by rewrite Hseen, <- app_assoc|]. split.
        -- rewrite !Hcons, Hactive. cbn [EvacuationScenario.deactivated active]. lia.
        -- constructor; [|done]. left. cbn in Hout.
           split; [done|]. split; [lra|done].
      * destruct (IH n (seen ++ [ped])) as (out & Hseen & Hcount & Hrel).
        exists (ped :: out).
        split; [by rewrite Hseen, <- app_assoc|]. split.
        -- rewrite !Hcons, Hactive. lia.
        -- constructor; [|done]. right. split; [|done]. cbn in Hin. intros [_ ?]. lra.
    + destruct (IH n (seen ++ [ped])) as (out & Hseen & Hcount & Hrel).
      exists (ped :: out).
      split; [by rewrite Hseen, <- app_assoc|]. split.
      * rewrite !Hcons, Hactive. lia.
      * constructor; [|done]. right. split; [|done]. intros [? _]. congruence.
Qed.

(** X29: the step hook of the evacuation scenario takes out exactly the
    active pedestrians beyond [x = 5.5], leaves every other pedestrian as
    it is, and counts each one it takes out: the evacuated count and the
    number of active pedestrians add up to what they did before, and no
    active pedestrian is left beyond 5.5. *)
Theorem evacuation_onStep_counts
    (scenario : EvacuationScenario.t) (pedestrians : list Pedestrian) :
  let r := EvacuationScenario.onStep scenario pedestrians in
  (r.1.(EvacuationScenario.evacuatedCount) + activeCount r.2
   = scenario.(EvacuationScenario.evacuatedCount) + activeCount pedestrians)%nat /\
  r.1.(EvacuationScenario.pedestrianCount) = scenario.(EvacuationScenario.pedestrianCount) /\
  r.1.(EvacuationScenario.doorWidth) = scenario.(EvacuationScenario.doorWidth) /\
  Forall2 (fun ped ped' =>
             (ped.(active) = true /\ ped.(position).(x) > 5.5 /\
              ped' = EvacuationScenario.deactivated ped) \/
             (~ (ped.(active) = true /\ ped.(position).(x) > 5.5) /\ ped' = ped))
          pedestrians r.2 /\
  Forall (fun ped' => ped'.(active) = true -> ped'.(position).(x) <= 5.5) r.2.
Proof.
  cbv zeta. unfold EvacuationScenario.onStep.
  pose proof (evacuation_onStep_fold pedestrians
                scenario.(EvacuationScenario.evacuatedCount) []) as H.
  cbv zeta in H. destruct H as (out & Hseen & Hcount & Hrel).
  destruct (foldl _ _ pedestrians) as [n peds']. cbn [fst snd] in *.
  cbn [app] in Hseen. subst peds'.
  cbn [EvacuationScenario.evacuatedCount EvacuationScenario.pedestrianCount
       EvacuationScenario.doorWidth].
  repeat split; try done.
  apply Forall_lookup. intros i ped' Hi Hactive.
  destruct (Forall2_lookup_r _ _ _ _ _ Hrel Hi) as (ped & _ & [(_ & _ & ->)|[Hnot ->]]).
  - done.
  - apply Rnot_gt_le. intros Hgt. by apply Hnot.
Qed.

(** ** metrics/bandIndex.ts: the band index *)

Lemma bandLoop_done (activePeds : list Pedestrian) (yMax0 bandWidth stepSize : number)
    (fuel : nat) : forall (y0 total : number) (count : nat),
  0 < stepSize -> yMax0 - bandWidth - y0 < INR fuel * stepSize ->
  ~ (bandLoop fuel activePeds yMax0 bandWidth stepSize y0 total count).2
      <= yMax0 - bandWidth.
Proof.
  induction fuel as [|fuel IH]; intros y0 total count Hstep Hfuel.
  - cbn [bandLoop snd]. cbn in Hfuel. lra.
  - cbn [bandLoop]. rewrite S_INR in Hfuel. case_decide as Hguard; [|done].
    cbv zeta. destruct (bandCounts activePeds y0 (y0 + bandWidth)) as [n1 n2].
    case_decide; apply IH; try done; lra.
Qed.

Lemma bandLoop_range (activePeds : list Pedestrian) (yMax0 bandWidth stepSize : number)
    (fuel : nat) : forall (y0 total : number) (count : nat),
  0 <= total <= INR count ->
  let r := bandLoop fuel activePeds yMax0 bandWidth stepSize y0 total count in
  0 <= r.1.1 <= INR r.1.2.
Proof.
  induction fuel as [|fuel IH]; intros y0 total count Htotal; cbv zeta.
  - done.
  - cbn [bandLoop]. cbv zeta in IH. case_decide as Hguard; [|done].
    cbv zeta. destruct (bandCounts activePeds y0 (y0 + bandWidth)) as [n1 n2].
    case_decide as Hsome; [|by apply IH].
    apply IH. rewrite S_INR.
    assert (Hn : 0 < INR (n1 + n2)) by (apply (lt_INR 0); lia).
    assert (Hband : 0 <= Rabs (INR n1 - INR n2) / INR (n1 + n2) <= 1).
    { split.
      - apply Rmult_le_pos; [apply Rabs_pos|]. apply Rlt_le. by apply Rinv_0_lt_compat.
      - apply (Rmult_le_reg_r (INR (n1 + n2))); [done|].
        replace (Rabs (INR n1 - INR n2) / INR (n1 + n2) * INR (n1 + n2))
          with (Rabs (INR n1 - INR n2)) by (field; lra).
        rewrite plus_INR. pose proof (pos_INR n1). pose proof (pos_INR n2).
        apply Rabs_le. lra. }
    lra.
Qed.

(** The loop of [computeBandIndex] leaves because its guard is false. *)
Lemma bandLoop_turns_enough (activePeds : list Pedestrian)
    (yMin0 yMax0 bandWidth stepSize total : number) (count : nat) :
  0 < stepSize ->
  let turns := Z.to_nat (Zfloor ((yMax0 - bandWidth - yMin0) / stepSize) + 1) in
  ~ (bandLoop turns activePeds yMax0 bandWidth stepSize yMin0 total count).2
      <= yMax0 - bandWidth.
Proof.
  intros Hstep. cbv zeta. apply bandLoop_done; [done|].
  assert (Hq : (yMax0 - bandWidth - yMin0) / stepSize * stepSize
               = yMax0 - bandWidth - yMin0) by (field; lra).
  set (q := (yMax0 - bandWidth - yMin0) / stepSize) in *.
  pose proof (Zfloor_bound q) as [_ Hfloor].
  pose proof (INR_to_nat_ge (Zfloor q + 1)) as Hnat.
  rewrite plus_IZR in Hnat.
  rewrite <- Hq. apply Rmult_lt_compat_r; lra.
Qed.

(** X30: with a positive step, [computeBandIndex] returns a value in
    [0, 1], and 0 when fewer than two pedestrians are active. *)
Theorem computeBandIndex_range
    (pedestrians : list Pedestrian) (b : Bounds) (bandWidth stepSize : option number) :
  0 < default 0.1 stepSize ->
  exists Y,
    computeBandIndex pedestrians b bandWidth stepSize = Some Y /\
    0 <= Y <= 1 /\
    ((activeCount pedestrians < 2)%nat -> Y = 0).
Proof.
  intros Hstep. unfold computeBandIndex, activeCount. cbv zeta.
  set (activePeds := filter (fun p => active p = true) pedestrians).
  destruct (decide (length activePeds < 2)%nat) as [Hfew|Hmany].
  { exists 0. repeat split; try done; lra. }
  rewrite decide_False by lra.
  match goal with |- context [bandLoop ?f ?a ?m ?w ?s ?y 0 0%nat] =>
    pose proof (bandLoop_range a m w s f y 0 0%nat) as Hrange;
    destruct (bandLoop f a m w s y 0 0%nat) as [[total count] yEnd] end.
  cbv zeta in Hrange. cbn [fst snd INR] in Hrange. specialize (Hrange ltac:(lra)).
  eexists. split; [reflexivity|]. split; [|lia].
  case_decide as Hcount; [|lra].
  assert (Hn : 0 < INR count) by (apply (lt_INR 0); lia).
  split.
  - apply Rmult_le_pos; [lra|]. apply Rlt_le. by apply Rinv_0_lt_compat.
  - apply (Rmult_le_reg_r (INR count)); [done|].
    replace (total / INR count * INR count) with total by (field; lra). lra.
Qed.

Lemma computeBandIndex_range_witness :
  exists Y,
    computeBandIndex [walkerA; walkerB] hall None None = Some Y /\
    0 <= Y <= 1 /\
    ((activeCount [walkerA; walkerB] < 2)%nat -> Y = 0).
Proof.
  apply (computeBandIndex_range [walkerA; walkerB] hall None None). simpl. lra.
Defined.
